(** * Replay controller of teamstyle17 ([src/logger.py])

    A shallow embedding of the replay player [RepGame], the session manager
    [RepManager] and the loader [_load_queue], and the properties of the
    seek-and-playback engine proved about them.

    Conventions of the embedding.

    - Python integers are [Z]; a replay time stamp is a [Z].
    - The float arithmetic of the clock ([timestamp / ROUNDS_PER_SEC],
      [int(timestamp * ROUNDS_PER_SEC)]) is read over the rationals [Q]:
      no property below depends on rounding.
    - The logic engine [ts17core.interface.Interface] is external.  It is
      represented by the list of calls it has received, oldest first:
      [NextTick] for [nextTick()] and [Run t a] for [a.run(logic)], where
      [t] is the time stamp the action was queued with.  The engine is
      taken not to raise.
    - [main.root_logger] is the list of records written so far; the
      per-player debug logger is left out.
    - A player is a mutable object: the manager works on a store of
      objects addressed by location. *)

From Stdlib Require Import ZArith QArith Lia.
From stdpp Require Import base tactics option list strings functions sorting.

Local Open Scope Z_scope.

(** ** Results of calls that may raise or never return *)

Inductive Exn := IndexError | KeyError.

Inductive Result (A : Type) :=
| Done (a : A)
| Raises (e : Exn)
| Blocks.

Arguments Done {A} a.
Arguments Raises {A} e.
Arguments Blocks {A}.

Definition bind {A B} (r : Result A) (k : A -> Result B) : Result B :=
  match r with
  | Done a => k a
  | Raises e => Raises e
  | Blocks => Blocks
  end.

Declare Scope result_scope.
Delimit Scope result_scope with result.
Notation "'do' x <- r ; k" := (bind r (fun x => k))
  (at level 10, x name, r at level 100, k at level 200,
   format "'[v' 'do'  x  <-  r ; '/' k ']'") : result_scope.
Local Open Scope result_scope.

(** ** The root logger *)

(** Modelled from the spec: [main.root_logger] is not part of [logger.py].
    The spec (section 7) has failures reported by log entries of a given
    level; an entry is kept as the level, the format string and the
    arguments of the call that wrote it. *)
Inductive Level := ERROR | INFO.

Inductive LogArg := ArgStr (s : string) | ArgInt (z : Z).

Record LogRecord := { level : Level; msg : string; args : list LogArg }.

Definition unexpected_ending : LogRecord :=
  {| level := ERROR; msg := "Unexpected ending of replay file."; args := [] |}.

Definition corrupted_replay (file_name : string) : LogRecord :=
  {| level := ERROR; msg := "Corrupted replay file: %s";
     args := [ArgStr file_name] |}.

Definition set_round_fin (tick : Z) : LogRecord :=
  {| level := INFO; msg := "set round fin: %d"; args := [ArgInt tick] |}.

(** ** Actions and the logic engine *)

(** Modelled from the spec: [action.Action] is not part of [logger.py].  An
    action is built from its JSON text, its name and a return queue; the
    spec (section 6) gives it [setTimestamp(tick)] and [apply(engine)]. *)
Record Action := {
  action_json : string;
  action_name : string;
  return_queue : option nat;
  timestamp : option Z
}.

Definition mkAction (json name : string) (rq : option nat) : Action :=
  {| action_json := json; action_name := name; return_queue := rq;
     timestamp := None |}.

Definition set_timestamp (tick : Z) (a : Action) : Action :=
  {| action_json := action_json a; action_name := action_name a;
     return_queue := return_queue a; timestamp := Some tick |}.

Definition is_game_end (a : Action) : bool :=
  String.eqb (action_name a) "game_end".

(** An entry of the pending queue: [(time stamp, action)]. *)
Definition Entry : Type := Z * Action.

(** Modelled from the spec: [ts17core.interface.Interface] is not part of
    [logger.py].  The spec (section 6) gives the engine [nextTick()],
    which advances the simulation by one tick, and the application of
    actions; a call is recorded as it is made. *)
Inductive LogicCall :=
| NextTick
| Run (t : Z) (a : Action).

(** The number of [nextTick()] calls. *)
Fixpoint ticks (calls : list LogicCall) : Z :=
  match calls with
  | [] => 0
  | NextTick :: cs => 1 + ticks cs
  | Run _ _ :: cs => ticks cs
  end.

(** The entries applied to the engine, in order. *)
Fixpoint applied (calls : list LogicCall) : list Entry :=
  match calls with
  | [] => []
  | NextTick :: cs => applied cs
  | Run t a :: cs => (t, a) :: applied cs
  end.

(** ** The clock *)

(** Modelled from the spec: [main.Timer] is not part of [logger.py].  The
    spec (section 3): the clock has a running flag and an elapsed time;
    its current time is [elapsed + (now - start_instant)] while running and
    [elapsed] otherwise; it can be started, stopped, and its elapsed value
    forced.  [now] is the wall-clock instant of the call. *)
Module Timer.

Record t := { running : bool; elapsed : Q; start_instant : Q }.

Definition init : t := {| running := false; elapsed := 0; start_instant := 0 |}.

Definition current_time (now : Q) (tm : t) : Q :=
  if running tm then (elapsed tm + (now - start_instant tm))%Q else elapsed tm.

Definition start (now : Q) (tm : t) : t :=
  if running tm then tm
  else {| running := true; elapsed := elapsed tm; start_instant := now |}.

Definition stop (now : Q) (tm : t) : t :=
  if running tm
  then {| running := false; elapsed := current_time now tm;
          start_instant := start_instant tm |}
  else tm.

Definition set_elapsed (x : Q) (tm : t) : t :=
  {| running := running tm; elapsed := x; start_instant := start_instant tm |}.

Definition set_running (b : bool) (tm : t) : t :=
  {| running := b; elapsed := elapsed tm; start_instant := start_instant tm |}.

Definition set_current_time (now x : Q) (tm : t) : t :=
  {| running := running tm; elapsed := x; start_instant := now |}.

End Timer.

(** ** The control channel of a player *)

Inductive Signal :=
| SigStop                    (* [0] *)
| SigPause                   (* [1] *)
| SigAction (a : Action)     (* an [action.Action] *)
| SigQueue (ack : nat).      (* a [queue.Queue] to answer on *)

(** ** RepGame *)

Module RepGame.

Definition MAX_DELAY_ROUNDS : Z := 1.
Definition ROUNDS_PER_SEC : Z := 20.

Record t := {
  _timer : Timer.t;
  _last_action_timestamp : Z;
  _logic : list LogicCall;
  queue : list Entry;
  sig : list Signal;
  _action_buffer : option Entry
}.

(** [RepGame(verbose, info_callback)]: the two arguments set up the debug
    logger and the engine, which carry no state here. *)
Definition __init__ : t :=
  {| _timer := Timer.init; _last_action_timestamp := 0; _logic := [];
     queue := []; sig := []; _action_buffer := None |}.

Definition with_timer (tm : Timer.t) (self : t) : t :=
  {| _timer := tm; _last_action_timestamp := _last_action_timestamp self;
     _logic := _logic self; queue := queue self; sig := sig self;
     _action_buffer := _action_buffer self |}.

Definition with_logic (calls : list LogicCall) (self : t) : t :=
  {| _timer := _timer self; _last_action_timestamp := _last_action_timestamp self;
     _logic := calls; queue := queue self; sig := sig self;
     _action_buffer := _action_buffer self |}.

Definition with_queue (q : list Entry) (self : t) : t :=
  {| _timer := _timer self; _last_action_timestamp := _last_action_timestamp self;
     _logic := _logic self; queue := q; sig := sig self;
     _action_buffer := _action_buffer self |}.

Definition with_sig (s : list Signal) (self : t) : t :=
  {| _timer := _timer self; _last_action_timestamp := _last_action_timestamp self;
     _logic := _logic self; queue := queue self; sig := s;
     _action_buffer := _action_buffer self |}.

Definition with_buffer (b : option Entry) (self : t) : t :=
  {| _timer := _timer self; _last_action_timestamp := _last_action_timestamp self;
     _logic := _logic self; queue := queue self; sig := sig self;
     _action_buffer := b |}.

(** [__real_time]: [timestamp / ROUNDS_PER_SEC]. *)
Definition __real_time (timestamp : Z) : Q :=
  (inject_Z timestamp / inject_Z ROUNDS_PER_SEC)%Q.

(** [__logic_time]: [int(timestamp * ROUNDS_PER_SEC)], truncating towards
    zero. *)
Definition __logic_time (timestamp : Q) : Z :=
  let x := (timestamp * inject_Z ROUNDS_PER_SEC)%Q in
  Z.quot (Qnum x) (Zpos (Qden x)).

Definition current_time (now : Q) (self : t) : Q :=
  Timer.current_time now (_timer self).

Definition __timeout_before_round (now : Q) (self : t) (timestamp : Z) : Q :=
  (inject_Z timestamp / inject_Z ROUNDS_PER_SEC - current_time now self)%Q.

(** [self._logic.nextTick(); self._last_action_timestamp += 1] *)
Definition tick (self : t) : t :=
  {| _timer := _timer self;
     _last_action_timestamp := _last_action_timestamp self + 1;
     _logic := _logic self ++ [NextTick]; queue := queue self;
     sig := sig self; _action_buffer := _action_buffer self |}.

(** [while bound > self._last_action_timestamp: tick].  The loop runs
    [bound - _last_action_timestamp] times, which is the fuel given by
    [advance]. *)
Fixpoint tick_while (fuel : nat) (bound : Z) (self : t) : t :=
  match fuel with
  | O => self
  | S fuel' =>
      if bound >? _last_action_timestamp self
      then tick_while fuel' bound (tick self)
      else self
  end.

Definition advance (bound : Z) (self : t) : t :=
  tick_while (Z.to_nat (bound - _last_action_timestamp self)) bound self.

(** [e[1].run(self._logic)] for a queue entry [e]. *)
Definition run (e : Entry) (self : t) : t :=
  with_logic (_logic self ++ [Run (fst e) (snd e)]) self.

(** The replay loop of [set_round] (lines 151-167).  Each round either
    leaves the loop or takes an entry off the queue, so
    [S (length queue)] rounds are enough. *)
Fixpoint replay (fuel : nat) (timestamp : Z) (self : t) : t * list LogRecord :=
  match fuel with
  | O => (self, [])
  | S fuel' =>
      match _action_buffer self with
      | Some (t, a) =>
          if t <? timestamp then
            let self := advance t self in
            if is_game_end a then
              (with_timer (Timer.set_elapsed (__real_time t) (_timer self)) self, [])
            else
              let self := run (t, a) self in
              match queue self with
              | e :: q => replay fuel' timestamp (with_buffer (Some e) (with_queue q self))
              | [] => (self, [unexpected_ending])
              end
          else (self, [])
      | None => (self, [])
      end
  end.

(** [if self._action_buffer is None and self.queue: ... popleft()] *)
Definition fill_buffer (self : t) : t :=
  match _action_buffer self, queue self with
  | None, e :: q => with_buffer (Some e) (with_queue q self)
  | _, _ => self
  end.

(** [RepGame.set_round] (lines 145-174): the player after the call and
    the records it wrote to the root logger. *)
Definition set_round (now : Q) (self : t) (timestamp : Z) : t * list LogRecord :=
  if timestamp >? _last_action_timestamp self then
    let self := with_timer (Timer.stop now (_timer self)) self in
    let self := with_timer (Timer.set_elapsed (__real_time timestamp) (_timer self)) self in
    let self := fill_buffer self in
    let '(self, log) := replay (S (length (queue self))) timestamp self in
    (advance timestamp self, log)
  else (self, []).

(** *** The playback loop *)

(** How a call of [mainloop] ends: the queue is used up (line 64), the
    stop signal was served (line 77), or a rendezvous was answered on the
    channel [ack] (lines 87-89). *)
Inductive Exit := Finished | Stopped | Answered (ack : nat).

(** What one pass of the loop body observes of the outside world:
    [wall i] is the wall-clock instant at its [i]-th access to the clock,
    [arrival] the signal, if any, that reaches an empty channel while the
    loop is waiting on it. *)
Record Env := { wall : nat -> Q; arrival : option Signal }.

Inductive Step :=
| Continue (self : t)                            (* next pass *)
| Return (x : Exit) (self : t) (log : list LogRecord)
| Waits (self : t).                              (* [sig.get] never returns *)

(** [self.sig.get(block=True, timeout=(t if running else None))]:
    [None] when the call never returns, [Some (None, _)] on
    [queue.Empty]. *)
Definition get (e : Env) (self : t) : option (option Signal * t) :=
  match sig self with
  | s :: rest => Some (Some s, with_sig rest self)
  | [] =>
      match arrival e with
      | Some s => Some (Some s, self)
      | None => if Timer.running (_timer self) then Some (None, self) else None
      end
  end.

(** Lines 95-102; the clock is read at every test of the loop. *)
Fixpoint tick_while_due (fuel : nat) (e : Env) (i : nat) (bound : Z) (self : t) : t :=
  match fuel with
  | O => self
  | S fuel' =>
      if (bound >? _last_action_timestamp self)
         && (__logic_time (current_time (wall e i) self) >? _last_action_timestamp self)
      then tick_while_due fuel' e (S i) bound (tick self)
      else self
  end.

(** Lines 109-122: catch the engine up with the action, stamp it, run it. *)
Definition apply_action (next_action : Entry) (self : t) : t :=
  let self := advance (fst next_action) self in
  run (fst next_action,
       set_timestamp (_last_action_timestamp self) (snd next_action)) self.

(** Lines 104-108, then the dispatch. *)
Definition deliver (e : Env) (next_action : Entry) (self : t) : Step :=
  if fst next_action <? __logic_time (current_time (wall e 2) self) then
    Continue (apply_action next_action
                (with_timer (Timer.set_current_time (wall e 3)
                               (__real_time (fst next_action + 1)) (_timer self)) self))
  else if fst next_action >? __logic_time (current_time (wall e 3) self) then
    Continue (with_buffer (Some next_action) self)
  else Continue (apply_action next_action self).

(** Lines 90-103. *)
Definition dispatch (e : Env) (buf : Entry) (next_action : option Entry) (self : t) : Step :=
  match next_action with
  | Some na => deliver e na self
  | None =>
      if fst buf <=? __logic_time (current_time (wall e 1) self) then
        deliver e buf (with_buffer None self)
      else
        Continue (tick_while_due
                    (Z.to_nat (fst buf - _last_action_timestamp self)) e 2 (fst buf) self)
  end.

(** Lines 67-89, with [buf] the buffered entry. *)
Definition poll (e : Env) (buf : Entry) (self : t) : Step :=
  let t := __timeout_before_round (wall e 0) self
             (Z.min (fst buf) (_last_action_timestamp self + 1)) in
  let t := if Qle_bool 0 t then t else 0%Q in
  if negb (Timer.running (_timer self))
     || negb (match sig self with [] => true | _ => false end)
     || negb (Qle_bool t 0)
  then
    match get e self with
    | None => Waits self
    | Some (None, self) => dispatch e buf None self
    | Some (Some SigStop, self) =>
        let '(self, log) := set_round (wall e 1) self (_last_action_timestamp self + 1) in
        Return Stopped self log
    | Some (Some SigPause, self) =>
        Continue (with_timer (Timer.set_running (negb (Timer.running (_timer self)))
                                (_timer self)) self)
    | Some (Some (SigAction q), self) =>
        dispatch e buf (Some (_last_action_timestamp self, q)) self
    | Some (Some (SigQueue q), self) =>
        let '(self, log) := set_round (wall e 1) self (_last_action_timestamp self + 1) in
        Return (Answered q) self log
    end
  else dispatch e buf None self.

(** One pass of [while 1] in [mainloop] (lines 60-122). *)
Definition body (e : Env) (self : t) : Step :=
  match _action_buffer self, queue self with
  | None, [] =>
      let tm := Timer.stop (wall e 0) (_timer self) in
      Return Finished
        (with_timer (Timer.set_elapsed (__real_time (_last_action_timestamp self)) tm) self)
        []
  | None, x :: q => poll e x (with_buffer (Some x) (with_queue q self))
  | Some b, _ => poll e b self
  end.

(** [mainloop] for at most [fuel] passes; pass [n] observes [env n].
    [Continue] is the loop still running when the fuel is spent. *)
Fixpoint mainloop (fuel : nat) (env : nat -> Env) (self : t) : Step :=
  match fuel with
  | O => Continue self
  | S fuel' =>
      match body (env O) self with
      | Continue self' => mainloop fuel' (fun n => env (S n)) self'
      | r => r
      end
  end.

(** *** Live instructions *)

(** [RepGame.enqueue] (lines 139-143): a pause request becomes the signal
    [1], any other action is put on the channel as it is. *)
Definition enqueue (self : t) (act : Action) : t :=
  if String.eqb (action_name act) "_pause"
  then with_sig (sig self ++ [SigPause]) self
  else with_sig (sig self ++ [SigAction act]) self.

End RepGame.

(** ** The replay file and its loader *)

(** A line of the file that [json.loads] decodes to an object: its text
    and its [time] and [action] fields, [None] for a field that is absent.
    The [time] field is an integer (section 6 of the spec). *)
Record JsonLine := { text : string; time : option Z; action : option string }.

(** What reading the gzip file yields, line after line.  [Line] is a line
    that decodes; [BadLine] a line on which decoding raises (a
    [ValueError], not an [OSError]); [OSError] stands for the file that
    cannot be opened, when it comes first, or whose stream is found corrupt
    at that point; [OtherError] for any other exception of the reader, such
    as the [EOFError] of a truncated stream.  The end of the list is the
    end of the file. *)
Inductive ReadEvent :=
| Line (j : JsonLine)
| BadLine (line : string)
| OSError
| OtherError.

Record RepFile := { file_name : string; events : list ReadEvent }.

(** [k == 'game_end'] for [k = j.get('action')]. *)
Definition names_game_end (k : option string) : bool :=
  match k with
  | Some s => String.eqb s "game_end"
  | None => false
  end.

Definition quoted (s : string) : string :=
  let dq := String (Ascii.ascii_of_nat 34) EmptyString in
  String.append dq (String.append s dq).

(** The text [{"action":"game_end","ai_id":-2,"time":0}]. *)
Definition synthetic_json : string :=
  String.concat EmptyString
    ["{"; quoted "action"; ":"; quoted "game_end"; ","; quoted "ai_id"; ":-2,";
     quoted "time"; ":0}"]%string.

Definition synthetic_game_end : Entry :=
  (0, mkAction synthetic_json "game_end" None).

(** The body of the [try] of [_load_queue] with its handlers: the total
    tick count, the queue and the log.  An exception other than [OSError]
    leaves through [finally: return r], which discards it. *)
Fixpoint load_lines (file_name : string) (evs : list ReadEvent) (r : Z)
    (target : list Entry) : Z * list Entry * list LogRecord :=
  match evs with
  | [] => (r, target, [])
  | Line j :: rest =>
      let t := match time j with Some t => t | None => 0 end in
      let k := action j in
      if negb (names_game_end k) then
        load_lines file_name rest r (target ++ [(t, mkAction (text j) "instruction" None)])
      else
        load_lines file_name rest t (target ++ [(t, mkAction (text j) "game_end" None)])
  | OSError :: _ =>
      (r, target ++ [synthetic_game_end], [corrupted_replay file_name])
  | BadLine _ :: _ | OtherError :: _ => (r, target, [])
  end.

Definition _load_queue (file : RepFile) (target : list Entry)
  : Z * list Entry * list LogRecord :=
  load_lines (file_name file) (events file) 0 target.

(** ** The sorted dictionary of checkpoints *)

(** [sortedcontainers.SortedDict] is an external library.  A dictionary is
    the list of its items in increasing order of key; the operations below
    are the ones [RepManager] calls, with the meaning the library documents
    for them. *)
Module SortedDict.

Definition t (V : Type) : Type := list (Z * V).

Definition keys {V} (d : t V) : list Z := d.*1.
Definition values {V} (d : t V) : list V := d.*2.

(** [k in d] *)
Definition contains {V} (k : Z) (d : t V) : bool :=
  existsb (fun kv => fst kv =? k) d.

(** [d[k]] *)
Fixpoint getitem {V} (k : Z) (d : t V) : option V :=
  match d with
  | [] => None
  | (k', v) :: d' => if k' =? k then Some v else getitem k d'
  end.

(** [d[k] = v] *)
Fixpoint setitem {V} (k : Z) (v : V) (d : t V) : t V :=
  match d with
  | [] => [(k, v)]
  | (k', v') :: d' =>
      if k <? k' then (k, v) :: d
      else if k =? k' then (k, v) :: d'
      else (k', v') :: setitem k v d'
  end.

(** [d.bisect(k)], that is [bisect_right]: the number of keys [<= k]. *)
Fixpoint bisect {V} (k : Z) (d : t V) : nat :=
  match d with
  | [] => O
  | (k', _) :: d' => if k' <=? k then S (bisect k d') else O
  end.

(** [d.iloc[i]]: the key at position [i]. *)
Definition iloc {V} (i : nat) (d : t V) : option Z := keys d !! i.

(** [del d.iloc[i]] *)
Definition del_iloc {V} (i : nat) (d : t V) : t V := delete i d.

End SortedDict.

(** ** RepManager *)

Module RepManager.

Definition loc := nat.

(** The notification callback: [lambda _: None], or a function bound from
    outside. *)
Inductive Callback := Silent | Bound (f : nat).

(** The manager object, with the part of the process state its methods
    act on: [heap] holds the [RepGame] objects created so far, at the
    locations below [next_loc], and [root_logger] the records written to
    [main.root_logger]. *)
Record t := {
  _rep_file : RepFile;
  _games : SortedDict.t loc;
  _info_callback : Callback;
  _verbose : bool;
  _active_game : loc;
  _rounds : Z;
  sig : list bool;
  _start_paused : bool;
  heap : loc -> RepGame.t;
  next_loc : loc;
  root_logger : list LogRecord
}.

Definition with_games (d : SortedDict.t loc) (self : t) : t :=
  {| _rep_file := _rep_file self; _games := d;
     _info_callback := _info_callback self; _verbose := _verbose self;
     _active_game := _active_game self; _rounds := _rounds self;
     sig := sig self; _start_paused := _start_paused self;
     heap := heap self; next_loc := next_loc self;
     root_logger := root_logger self |}.

Definition with_info_callback (c : Callback) (self : t) : t :=
  {| _rep_file := _rep_file self; _games := _games self;
     _info_callback := c; _verbose := _verbose self;
     _active_game := _active_game self; _rounds := _rounds self;
     sig := sig self; _start_paused := _start_paused self;
     heap := heap self; next_loc := next_loc self;
     root_logger := root_logger self |}.

Definition with_active_game (l : loc) (self : t) : t :=
  {| _rep_file := _rep_file self; _games := _games self;
     _info_callback := _info_callback self; _verbose := _verbose self;
     _active_game := l; _rounds := _rounds self;
     sig := sig self; _start_paused := _start_paused self;
     heap := heap self; next_loc := next_loc self;
     root_logger := root_logger self |}.

Definition with_sig (s : list bool) (self : t) : t :=
  {| _rep_file := _rep_file self; _games := _games self;
     _info_callback := _info_callback self; _verbose := _verbose self;
     _active_game := _active_game self; _rounds := _rounds self;
     sig := s; _start_paused := _start_paused self;
     heap := heap self; next_loc := next_loc self;
     root_logger := root_logger self |}.

Definition with_rounds (r : Z) (self : t) : t :=
  {| _rep_file := _rep_file self; _games := _games self;
     _info_callback := _info_callback self; _verbose := _verbose self;
     _active_game := _active_game self; _rounds := r;
     sig := sig self; _start_paused := _start_paused self;
     heap := heap self; next_loc := next_loc self;
     root_logger := root_logger self |}.

Definition with_heap (h : loc -> RepGame.t) (n : loc) (self : t) : t :=
  {| _rep_file := _rep_file self; _games := _games self;
     _info_callback := _info_callback self; _verbose := _verbose self;
     _active_game := _active_game self; _rounds := _rounds self;
     sig := sig self; _start_paused := _start_paused self;
     heap := h; next_loc := n;
     root_logger := root_logger self |}.

(** [main.root_logger] gets the records [log]. *)
Definition logged (log : list LogRecord) (self : t) : t :=
  {| _rep_file := _rep_file self; _games := _games self;
     _info_callback := _info_callback self; _verbose := _verbose self;
     _active_game := _active_game self; _rounds := _rounds self;
     sig := sig self; _start_paused := _start_paused self;
     heap := heap self; next_loc := next_loc self;
     root_logger := root_logger self ++ log |}.

(** The object [self._active_game] refers to. *)
Definition active (self : t) : RepGame.t := heap self (_active_game self).

(** A method of the active player has changed it into [g]. *)
Definition store_active (g : RepGame.t) (self : t) : t :=
  with_heap (<[_active_game self := g]> (heap self)) (next_loc self) self.

(** [self._active_game = RepGame(...)]: a new object. *)
Definition new_active_game (self : t) : t :=
  with_active_game (next_loc self)
    (with_heap (<[next_loc self := RepGame.__init__]> (heap self))
               (S (next_loc self)) self).

(** [self._active_game.set_round(timestamp)] *)
Definition active_set_round (now : Q) (timestamp : Z) (self : t) : t :=
  let '(g, log) := RepGame.set_round now (active self) timestamp in
  logged log (store_active g self).

(** [_load_queue(self._rep_file, self._active_game.queue)], returning the
    tick count. *)
Definition active_load_queue (self : t) : Z * t :=
  let '(r, q, log) := _load_queue (_rep_file self) (RepGame.queue (active self)) in
  (r, logged log (store_active (RepGame.with_queue q (active self)) self)).

(** [self._active_game.queue.popleft()[1].run(self._active_game._logic)] *)
Definition active_run_first (self : t) : Result t :=
  match RepGame.queue (active self) with
  | [] => Raises IndexError
  | e :: q => Done (store_active (RepGame.run e (RepGame.with_queue q (active self))) self)
  end.

(** [RepManager.__init__] (lines 178-203).  [_rep_thread] and
    [_ui_running], which no method modelled here reads, are left out. *)
Definition __init__ (rep_file : RepFile) (verbose start_paused : bool) : Result t :=
  let self :=
    {| _rep_file := rep_file; _games := []; _info_callback := Silent;
       _verbose := verbose; _active_game := O; _rounds := 0; sig := [];
       _start_paused := start_paused;
       heap := fun _ => RepGame.__init__; next_loc := 1%nat;
       root_logger := [] |} in
  let '(r, self) := active_load_queue self in
  active_run_first (with_rounds r self).

(** Lines 246-248: a fresh queue [r] is put on the channel of the active
    player and [r.get()] waits for its answer.  The player's loop is
    taken to be at rest at the head of a pass when the signal comes, so
    what it does is one pass of [RepGame.body] with nothing else
    arriving; the call returns when that pass answers on [r] and never
    otherwise.  The interleavings of the two threads are outside this
    model. *)
Definition rendezvous (now : Q) (self : t) : Result t :=
  let r := length (RepGame.sig (active self)) in
  let g := RepGame.with_sig (RepGame.sig (active self) ++ [SigQueue r]) (active self) in
  match RepGame.body {| RepGame.wall := fun _ => now; RepGame.arrival := None |} g with
  | RepGame.Return (RepGame.Answered r') g log =>
      if Nat.eqb r' r then Done (logged log (store_active g self)) else Blocks
  | _ => Blocks
  end.

(** Lines 249-251. *)
Definition retire (self : t) : t :=
  let ts := RepGame._last_action_timestamp (active self) in
  if SortedDict.contains ts (_games self) then self
  else with_games (SortedDict.setitem ts (_active_game self) (_games self)) self.

(** Lines 252-264. *)
Definition recall (now : Q) (timestamp : Z) (self : t) : Result t :=
  match SortedDict.bisect timestamp (_games self) with
  | O =>
      let self := new_active_game self in
      let '(_, self) := active_load_queue self in
      if negb (timestamp =? 0) then Done (active_set_round now timestamp self)
      else active_run_first self
  | S i =>
      match SortedDict.iloc i (_games self) with
      | None => Raises IndexError
      | Some k =>
          match SortedDict.getitem k (_games self) with
          | None => Raises KeyError
          | Some l =>
              let self := with_active_game l self in
              let self := with_games (SortedDict.del_iloc i (_games self)) self in
              if timestamp >? RepGame._last_action_timestamp (active self)
              then Done (active_set_round now timestamp self)
              else Done self
          end
      end
  end.

(** [RepManager.set_round] (lines 238-267). *)
Definition set_round (now : Q) (self : t) (timestamp : Z) : Result t :=
  let callback_backup := _info_callback self in
  let self := with_info_callback Silent self in
  let self := store_active
                (RepGame.with_timer (Timer.stop now (RepGame._timer (active self)))
                                    (active self)) self in
  do self <- (if timestamp >? RepGame._last_action_timestamp (active self)
              then Done (active_set_round now timestamp self)
              else
                do self <- rendezvous now self;
                do self <- recall now timestamp (retire self);
                Done (with_sig (sig self ++ [true]) self));
  let self := with_info_callback callback_backup self in
  Done (logged [set_round_fin (RepGame._last_action_timestamp (active self))] self).

(** A sequence of seeks, each at its wall-clock instant. *)
Fixpoint seeks (targets : list (Q * Z)) (self : t) : Result t :=
  match targets with
  | [] => Done self
  | (now, timestamp) :: rest =>
      do self <- set_round now self timestamp; seeks rest self
  end.

(** *** Live dispatch and the run loop *)

(** The text ['%d\n' % rounds] put on the return queue [queue]. *)
Inductive Sent := Reply (queue : nat) (rounds : Z).

(** How a call of [enqueue] ends: with the outcome of the call for the
    manager and the replies put on return queues, or with the
    [AttributeError] of an action that has no return queue. *)
Inductive Enqueued :=
| Queued (r : Result t) (sent : list Sent)
| AttributeError.

(** [RepManager.enqueue] (lines 205-221). *)
Definition enqueue (now : Q) (self : t) (timestamp : Z) (act : Action) : Enqueued :=
  if String.eqb (action_name act) "_set_time" then
    Queued (set_round now self timestamp) []
  else if String.eqb (action_name act) "_end" then
    let self := with_sig (sig self ++ [false]) self in
    Queued (Done (store_active
                    (RepGame.with_sig (RepGame.sig (active self) ++ [SigStop])
                                      (active self)) self)) []
  else if String.eqb (action_name act) "_query_rounds" then
    match return_queue act with
    | Some q => Queued (Done self) [Reply q (_rounds self)]
    | None => AttributeError
    end
  else
    match RepGame._action_buffer (active self), RepGame.queue (active self) with
    | None, [] =>
        let self := store_active (RepGame.enqueue (active self) act) self in
        Queued (Done (with_sig (sig self ++ [true]) self)) []
    | _, _ =>
        Queued (Done (store_active (RepGame.enqueue (active self) act) self)) []
    end.

(** How a run of [RepManager.mainloop] stands: ended, still running when
    the fuel is spent, or waiting for a signal that does not come. *)
Inductive Run :=
| Ended (self : t)
| Running (self : t)
| Waiting (self : t).

(** [RepManager.mainloop] (lines 226-236) for at most [rounds] rounds, the
    loop of the player having [fuel] passes in each.  [now k] is the
    wall-clock instant at which round [k] starts, [env k] what the player's
    loop observes in that round, and [ui_running k] the answer of
    [self._ui_running()] at its end. *)
Fixpoint mainloop (rounds fuel : nat) (now : nat -> Q)
    (env : nat -> nat -> RepGame.Env) (ui_running : nat -> bool) (self : t) : Run :=
  match rounds with
  | O => Running self
  | S rounds' =>
      let self :=
        if negb (_start_paused self)
        then store_active
               (RepGame.with_timer (Timer.start (now O) (RepGame._timer (active self)))
                                   (active self)) self
        else self in
      match RepGame.mainloop fuel (env O) (active self) with
      | RepGame.Continue g => Running (store_active g self)
      | RepGame.Waits g => Waiting (store_active g self)
      | RepGame.Return _ g log =>
          let self := logged log (store_active g self) in
          if ui_running O then
            match sig self with
            | [] => Waiting self
            | q :: rest =>
                let self := with_sig rest self in
                if q
                then mainloop rounds' fuel (fun k => now (S k)) (fun k => env (S k))
                       (fun k => ui_running (S k)) self
                else Ended self
            end
          else Ended self
      end
  end.

(** The property [current_time] (lines 269-271). *)
Definition current_time (now : Q) (self : t) : Q :=
  RepGame.current_time now (active self).

End RepManager.

(** ** RunLogger *)

(** The writer thread of the run log.  The gzip stream is kept as the list
    of the strings written to it, oldest first; compression is left out. *)
Module RunLogger.

(** What is put on [sig]: a string to write, or [0]. *)
Inductive Item := Text (s : string) | Zero.

Record t := {
  _filename : string;
  _fp : list string;
  closed : bool;
  sig : list Item
}.

(** [RunLogger.__init__] (lines 18-24).  [stamp] is what
    [time.strftime('%m%d%H%M%S')] gives at the call. *)
Definition __init__ (stamp : string) (filename : string) : t :=
  let filename :=
    if String.eqb filename EmptyString
    then String.append "ts17_" (String.append stamp ".rpy")
    else filename in
  {| _filename := filename; _fp := []; closed := false; sig := [] |}.

(** [self.sig.put(q)] *)
Definition put (q : Item) (self : t) : t :=
  {| _filename := _filename self; _fp := _fp self; closed := closed self;
     sig := sig self ++ [q] |}.

(** [RunLogger.exit] (lines 35-36). *)
Definition exit (self : t) : t := put Zero self.

Definition newline : string := String (Ascii.ascii_of_nat 10) EmptyString.

(** The loop of [run] on the items [items] of the channel: the stream, the
    closed flag and the items left. *)
Fixpoint run_loop (items : list Item) (fp : list string)
  : list string * bool * list Item :=
  match items with
  | [] => (fp, false, [])
  | Zero :: rest => (fp, true, rest)
  | Text q :: rest => run_loop rest (fp ++ [q; newline])
  end.

(** How [run] stands once the channel has nothing more to give: returned,
    or waiting in [sig.get]. *)
Inductive Ran := Returned (self : t) | Waits (self : t).

(** [RunLogger.run] (lines 26-33). *)
Definition run (self : t) : Ran :=
  let '(fp, cl, rest) := run_loop (sig self) (_fp self) in
  let self' := {| _filename := _filename self; _fp := fp; closed := cl; sig := rest |} in
  if cl then Returned self' else Waits self'.

End RunLogger.

(** * Vocabulary of the properties *)

Abbreviation lastTick := RepGame._last_action_timestamp (only parsing).

(** A call made by a seek to [T] that ends at tick [L]: a tick, or a
    regular action queued before [T] and not after [L]. *)
Definition call_ok (T L : Z) (c : LogicCall) : Prop :=
  match c with
  | NextTick => True
  | Run t a => t < T /\ t <= L /\ is_game_end a = false
  end.

(** [self'] comes from [self] by engine calls [ext] only, every tick of
    which is counted in [_last_action_timestamp]. *)
Definition advances_by (ext : list LogicCall) (self self' : RepGame.t) : Prop :=
  RepGame._logic self' = RepGame._logic self ++ ext
  /\ ticks ext = lastTick self' - lastTick self.

Definition advances (self self' : RepGame.t) : Prop :=
  lastTick self <= lastTick self' /\ exists ext, advances_by ext self self'.

(** The entries a player has still to apply: the buffered one, then the
    queue. *)
Definition pending (self : RepGame.t) : list Entry :=
  match RepGame._action_buffer self with
  | Some b => b :: RepGame.queue self
  | None => RepGame.queue self
  end.

(** The player as the replay loop of [set_round] finds it. *)
Definition seek_start (now : Q) (timestamp : Z) (self : RepGame.t) : RepGame.t :=
  RepGame.fill_buffer
    (RepGame.with_timer
       (Timer.set_elapsed (RepGame.__real_time timestamp)
                          (Timer.stop now (RepGame._timer self))) self).

(** The player a pass of the loop, or a run of it, leaves behind. *)
Definition step_state (s : RepGame.Step) : RepGame.t :=
  match s with
  | RepGame.Continue self => self
  | RepGame.Return _ self _ => self
  | RepGame.Waits self => self
  end.

(** The items of a sorted dictionary are in strictly increasing order of
    key. *)
Definition dict_ok {V} (d : SortedDict.t V) : Prop :=
  StronglySorted (fun x y : Z * V => x.1 < y.1) d.

(** The first entry of the queue loaded from a replay file. *)
Definition first_entry (file : RepFile) : option Entry :=
  head (_load_queue file []).1.2.

(** The replay file holds at least two records. *)
Definition two_entries (file : RepFile) : Prop :=
  (1 < length (_load_queue file []).1.2)%nat.

(** A player of a session on [file], as the manager finds it between two
    seeks: its engine has been given no action ahead of its tick, the
    first entry of the file apart; its channel is empty; and it has
    entries left when the file has more than one. *)
Definition sound (file : RepFile) (g : RepGame.t) : Prop :=
  0 <= lastTick g
  /\ (forall t a, Run t a ∈ RepGame._logic g ->
        t <= lastTick g \/ first_entry file = Some (t, a))
  /\ RepGame.sig g = []
  /\ (two_entries file -> pending g <> []).

(** The checkpoints: sorted, distinct objects, each filed under its own
    tick. *)
Definition store_ok (file : RepFile) (games : SortedDict.t RepManager.loc)
    (heap : RepManager.loc -> RepGame.t) (next : RepManager.loc) : Prop :=
  dict_ok games
  /\ NoDup (SortedDict.values games)
  /\ forall kv, kv ∈ games ->
       lastTick (heap kv.2) = kv.1 /\ sound file (heap kv.2) /\ (kv.2 < next)%nat.

(** The manager but for the state of its active player, which is no
    checkpoint. *)
Definition frame_ok (file : RepFile) (m : RepManager.t) : Prop :=
  RepManager._rep_file m = file
  /\ store_ok file (RepManager._games m) (RepManager.heap m) (RepManager.next_loc m)
  /\ (RepManager._active_game m ∉ SortedDict.values (RepManager._games m))
  /\ (RepManager._active_game m < RepManager.next_loc m)%nat.

(** The manager between two calls. *)
Definition manager_ok (file : RepFile) (m : RepManager.t) : Prop :=
  frame_ok file m /\ sound file (RepManager.active m).

(** Lines 240-248: notifications off, the clock of the active player
    stopped, the rendezvous. *)
Definition quiesce (now : Q) (self : RepManager.t) : Result RepManager.t :=
  RepManager.rendezvous now
    (RepManager.store_active
       (RepGame.with_timer
          (Timer.stop now (RepGame._timer (RepManager.active self)))
          (RepManager.active self))
       (RepManager.with_info_callback RepManager.Silent self)).

(** The end of [RepManager.set_round] after a backward seek: lines
    265-267. *)
Definition seek_end (backup : RepManager.Callback) (self : RepManager.t) : RepManager.t :=
  let self := RepManager.with_sig (RepManager.sig self ++ [true]) self in
  let self := RepManager.with_info_callback backup self in
  RepManager.logged
    [set_round_fin (lastTick (RepManager.active self))] self.

(** The player a fresh restart builds: a new object with the queue loaded
    from the replay file. *)
Definition reloaded (file : RepFile) : RepGame.t :=
  RepGame.with_queue (_load_queue file []).1.2 RepGame.__init__.

(** [k] is the greatest key of [d] that is at most [t]. *)
Definition greatest_key_le {V} (t k : Z) (d : SortedDict.t V) : Prop :=
  k ∈ SortedDict.keys d /\ k <= t
  /\ forall k', k' ∈ SortedDict.keys d -> k' <= t -> k' <= k.

(** What a step keeps when it only works on the active player. *)
Definition same_frame (m m' : RepManager.t) : Prop :=
  RepManager._games m' = RepManager._games m
  /\ RepManager._active_game m' = RepManager._active_game m
  /\ RepManager.next_loc m' = RepManager.next_loc m
  /\ RepManager._rounds m' = RepManager._rounds m
  /\ forall l, l <> RepManager._active_game m -> RepManager.heap m' l = RepManager.heap m l.

(** The manager after a forward seek: lines 240-244 and 266-267. *)
Definition seek_forward (now : Q) (timestamp : Z) (self : RepManager.t) : RepManager.t :=
  let m :=
    RepManager.active_set_round now timestamp
      (RepManager.store_active
         (RepGame.with_timer
            (Timer.stop now (RepGame._timer (RepManager.active self)))
            (RepManager.active self))
         (RepManager.with_info_callback RepManager.Silent self)) in
  let m := RepManager.with_info_callback (RepManager._info_callback self) m in
  RepManager.logged [set_round_fin (lastTick (RepManager.active m))] m.

(** The call has returned, with a result that has the property [P]. *)
Definition returns {A} (r : Result A) (P : A -> Prop) : Prop :=
  match r with
  | Done a => P a
  | _ => False
  end.

(** ** The replay file, as the spec describes it *)

(** The tick of a record: its [time] field, 0 when it has none. *)
Definition tick_of (j : JsonLine) : Z := default 0 (time j).

(** The queue entry of a record. *)
Definition entry_of (j : JsonLine) : Entry :=
  (tick_of j,
   mkAction (text j)
     (if names_game_end (action j) then "game_end" else "instruction") None).

(** The tick of the last [game_end] record, 0 when there is none. *)
Definition total_ticks (js : list JsonLine) : Z :=
  List.last (tick_of <$> List.filter (fun j => names_game_end (action j)) js) 0.

(** A file that reads to its end without error. *)
Definition clean_file (name : string) (js : list JsonLine) : RepFile :=
  {| file_name := name; events := Line <$> js |}.

(** A source is malformed or unreadable when reading it meets something
    else than a well-formed line. *)
Definition malformed_or_unreadable (file : RepFile) : Prop :=
  exists ev, ev ∈ events file /\ forall j, ev <> Line j.

(** ** The scenario of the spec *)

Definition instr (name : string) : Action := mkAction name "instruction" None.

Definition scenario_queue : list Entry :=
  [(0, instr "init"); (5, instr "instrA"); (12, instr "instrB");
   (20, mkAction "gameEnd" "game_end" None)].

Definition scenario_file : RepFile :=
  clean_file "scenario.rpy"
    [ {| text := "init"; time := Some 0; action := Some "init"%string |};
      {| text := "instrA"; time := Some 5; action := Some "move"%string |};
      {| text := "instrB"; time := Some 12; action := Some "move"%string |};
      {| text := "gameEnd"; time := Some 20; action := Some "game_end"%string |} ].

(** A replay whose first record is not at tick 0. *)
Definition late_start_file : RepFile :=
  clean_file "late.rpy"
    [ {| text := "first"; time := Some 5; action := Some "move"%string |};
      {| text := "gameEnd"; time := Some 20; action := Some "game_end"%string |} ].

(** The manager of an outcome, [no_manager] when the call did not
    return. *)
Definition no_manager : RepManager.t :=
  {| RepManager._rep_file := clean_file EmptyString [];
     RepManager._games := []; RepManager._info_callback := RepManager.Silent;
     RepManager._verbose := false; RepManager._active_game := O;
     RepManager._rounds := 0; RepManager.sig := [];
     RepManager._start_paused := false;
     RepManager.heap := fun _ => RepGame.__init__; RepManager.next_loc := O;
     RepManager.root_logger := [] |}.

Definition the (r : Result RepManager.t) : RepManager.t :=
  match r with
  | Done m => m
  | _ => no_manager
  end.

(** The scenario session at its start, and after a seek to tick 8. *)
Definition scenario_start : RepManager.t :=
  the (RepManager.__init__ scenario_file false false).

Definition scenario_at_8 : RepManager.t :=
  the (RepManager.seeks [(0%Q, 8)] scenario_start).

(** ** Vocabulary of the further properties *)

(** The engine calls [calls], made from tick [l] on, never apply an entry
    before the engine has reached the tick it was queued for. *)
Fixpoint timely (l : Z) (calls : list LogicCall) : Prop :=
  match calls with
  | [] => True
  | NextTick :: rest => timely (l + 1) rest
  | Run t _ :: rest => t <= l /\ timely l rest
  end.

(** The next entry to apply, if any, is not due before tick [l], or is the
    terminal one. *)
Definition head_ok (l : Z) (pend : list Entry) : Prop :=
  match pend with
  | [] => True
  | (t, a) :: _ => l <= t \/ is_game_end a = true
  end.

(** [self'] comes from [self] by engine calls made in time. *)
Definition runs_timely (self self' : RepGame.t) : Prop :=
  exists ext, advances_by ext self self' /\ timely (lastTick self) ext.

(** ** A seek as a function of the tick and the pending entries *)

(** What a seek comes to: the calls it makes to the engine, the tick it
    ends on, the entries it leaves pending and the records it logs. *)
Definition Seek : Type := list LogicCall * Z * list Entry * list LogRecord.

(** The replay loop of [set_round] to [T] on a player at tick [l] with the
    entries [pend] pending. *)
Fixpoint replay_of (T l : Z) (pend : list Entry) : Seek :=
  match pend with
  | [] => ([], l, [], [])
  | (t, a) :: rest =>
      if t <? T then
        let l1 := Z.max t l in
        let tk := replicate (Z.to_nat (t - l)) NextTick in
        if is_game_end a then (tk, l1, pend, [])
        else
          match rest with
          | [] => (tk ++ [Run t a], l1, [(t, a)], [unexpected_ending])
          | _ :: _ =>
              let '(ext, l2, p, log) := replay_of T l1 rest in
              (tk ++ Run t a :: ext, l2, p, log)
          end
      else ([], l, pend, [])
  end.

(** The trailing tick loop of [set_round]. *)
Definition finish (T : Z) (s : Seek) : Seek :=
  let '(ext, l, p, log) := s in
  (ext ++ replicate (Z.to_nat (T - l)) NextTick, Z.max T l, p, log).

Definition seek_of (T l : Z) (pend : list Entry) : Seek :=
  if T >? l then finish T (replay_of T l pend) else ([], l, pend, []).

(** ** Properties of every player of a session *)

(** [P] holds of every checkpoint of the store. *)
Definition stored (P : RepGame.t -> Prop) (m : RepManager.t) : Prop :=
  forall kv, kv ∈ RepManager._games m -> P (RepManager.heap m kv.2).

(** [P] holds of the active player and of every checkpoint. *)
Definition players (P : RepGame.t -> Prop) (m : RepManager.t) : Prop :=
  P (RepManager.active m) /\ stored P m.

(** The engine of a player has been ticked as many times as its tick
    counter says. *)
Definition ticked (g : RepGame.t) : Prop :=
  ticks (RepGame._logic g) = lastTick g.

(** A replay that starts with a regular record at tick 0 and ends with a
    terminal record. *)
Definition plays_to_the_end (file : RepFile) : Prop :=
  exists a0 mid e,
    (_load_queue file []).1.2 = (0, a0) :: mid ++ [e]
    /\ is_game_end a0 = false /\ is_game_end e.2 = true.

(** A player of a session on [file] whose engine has been given the first
    record and then what one seek from tick 0 to the player's tick gives
    it, and that has pending what that seek leaves. *)
Definition canonical (file : RepFile) (g : RepGame.t) : Prop :=
  match (_load_queue file []).1.2 with
  | [] => False
  | e :: q =>
      exists ext,
        seek_of (lastTick g) 0 q = (ext, lastTick g, pending g, [])
        /\ RepGame._logic g = Run e.1 e.2 :: ext
  end.

(** A replay of one record: the session on it has nothing pending from the
    start. *)
Definition one_record_file : RepFile :=
  clean_file "one.rpy"
    [ {| text := "init"; time := Some 0; action := Some "init"%string |} ].

(** ** The run log *)

(** The items [qs] are put on the channel of the writer, one after the
    other. *)
Definition puts (qs : list RunLogger.Item) (self : RunLogger.t) : RunLogger.t :=
  fold_left (fun s q => RunLogger.put q s) qs self.

(** The strings written for the messages [msgs]: each message, then a
    newline. *)
Definition lines (msgs : list string) : list string :=
  flat_map (fun q => [q; RunLogger.newline]) msgs.

(** ** Keeping to the clock *)

(** The clock [tm] shows tick [t] or a later one at one of the instants at
    which the pass observing [e] reads it. *)
Definition on_time (e : RepGame.Env) (tm : Timer.t) (t : Z) : Prop :=
  exists i, t <= RepGame.__logic_time (Timer.current_time (RepGame.wall e i) tm).

(** A pass from [g] to [g'] that applies no action and reaches no tick
    ahead of the clock of [g]. *)
Definition paced (e : RepGame.Env) (g g' : RepGame.t) : Prop :=
  exists ext,
    RepGame._logic g' = RepGame._logic g ++ ext
    /\ (forall t a, Run t a ∈ ext -> on_time e (RepGame._timer g) t)
    /\ (lastTick g' = lastTick g \/ on_time e (RepGame._timer g) (lastTick g')).

(** * Properties *)

(** ** Ticks and calls *)

Lemma ticks_app (l1 l2 : list LogicCall) : ticks (l1 ++ l2) = ticks l1 + ticks l2.
Proof. induction l1 as [|[|t a] l1 IH]; cbn [app ticks]; lia. Qed.

Lemma ticks_replicate (n : nat) : ticks (replicate n NextTick) = Z.of_nat n.
Proof.
  induction n as [|n IH]; cbn [replicate ticks]; lia.
Qed.

Lemma ticks_run (t : Z) (a : Action) : ticks [Run t a] = 0.
Proof. done. Qed.

Lemma ticks_nonneg (l : list LogicCall) : 0 <= ticks l.
Proof. induction l as [|[|t a] l IH]; cbn [ticks]; lia. Qed.

Lemma applied_app (l1 l2 : list LogicCall) : applied (l1 ++ l2) = applied l1 ++ applied l2.
Proof.
  induction l1 as [|[|t a] l1 IH]; cbn; [done|done|]. by rewrite IH.
Qed.

Lemma applied_replicate (n : nat) : applied (replicate n NextTick) = [].
Proof. induction n; done. Qed.

Lemma elem_of_applied (t : Z) (a : Action) (l : list LogicCall) :
  (t, a) ∈ applied l <-> Run t a ∈ l.
Proof.
  induction l as [|[|t' a'] l IH]; cbn.
  - split; inversion 1.
  - rewrite IH. split; [by constructor|]. by inversion 1.
  - rewrite !elem_of_cons, IH. split; intros [H|H]; auto; left; congruence.
Qed.

(** ** The tick loop *)

Section TickLoop.

Lemma tick_while_eq (fuel : nat) (bound : Z) (self : RepGame.t) :
  bound - lastTick self <= Z.of_nat fuel ->
  RepGame.tick_while fuel bound self =
  {| RepGame._timer := RepGame._timer self;
     RepGame._last_action_timestamp := Z.max bound (lastTick self);
     RepGame._logic :=
       RepGame._logic self ++ replicate (Z.to_nat (bound - lastTick self)) NextTick;
     RepGame.queue := RepGame.queue self;
     RepGame.sig := RepGame.sig self;
     RepGame._action_buffer := RepGame._action_buffer self |}.
Proof.
  revert self. induction fuel as [|fuel IH]; intros self Hfuel; cbn [RepGame.tick_while].
  - replace (Z.to_nat (bound - lastTick self)) with O by lia.
    rewrite Z.max_r by lia. cbn. rewrite app_nil_r. by destruct self.
  - destruct (Z.gtb_spec bound (lastTick self)) as [Hgt|Hle].
    + rewrite IH by (cbn; lia). cbn.
      replace (Z.to_nat (bound - lastTick self))
        with (S (Z.to_nat (bound - (lastTick self + 1)))) by lia.
      cbn [replicate]. rewrite <- app_assoc. cbn.
      f_equal. lia.
    + replace (Z.to_nat (bound - lastTick self)) with O by lia.
      rewrite Z.max_r by lia. cbn. rewrite app_nil_r. by destruct self.
Qed.

Lemma advance_eq (bound : Z) (self : RepGame.t) :
  RepGame.advance bound self =
  {| RepGame._timer := RepGame._timer self;
     RepGame._last_action_timestamp := Z.max bound (lastTick self);
     RepGame._logic :=
       RepGame._logic self ++ replicate (Z.to_nat (bound - lastTick self)) NextTick;
     RepGame.queue := RepGame.queue self;
     RepGame.sig := RepGame.sig self;
     RepGame._action_buffer := RepGame._action_buffer self |}.
Proof. unfold RepGame.advance. apply tick_while_eq. lia. Qed.

(** The loop of [advance] has run to its end: its test fails on the
    result. *)
Lemma advance_done (bound : Z) (self : RepGame.t) :
  (bound >? lastTick (RepGame.advance bound self)) = false.
Proof. rewrite advance_eq. cbn. lia. Qed.

End TickLoop.

(** ** Player-level seek *)


Lemma call_ok_mono (T L L' : Z) (c : LogicCall) :
  L <= L' -> call_ok T L c -> call_ok T L' c.
Proof. destruct c; cbn; [done|]. intros ? (? & ? & ?). repeat split; [done|lia|done]. Qed.

Lemma Forall_call_ok_ticks (T L : Z) (n : nat) :
  Forall (call_ok T L) (replicate n NextTick).
Proof. induction n; cbn; constructor; done. Qed.


Lemma advances_by_nil (self self' : RepGame.t) :
  RepGame._logic self' = RepGame._logic self -> lastTick self' = lastTick self ->
  advances_by [] self self'.
Proof. intros Hl Ht. split; [by rewrite app_nil_r|cbn; lia]. Qed.

Lemma advances_by_app (e1 e2 : list LogicCall) (g1 g2 g3 : RepGame.t) :
  advances_by e1 g1 g2 -> advances_by e2 g2 g3 -> advances_by (e1 ++ e2) g1 g3.
Proof.
  intros [H1 H1'] [H2 H2']. split.
  - by rewrite H2, H1, app_assoc.
  - rewrite ticks_app. lia.
Qed.

Lemma advances_refl (self : RepGame.t) : advances self self.
Proof. split; [lia|]. exists []. by apply advances_by_nil. Qed.

Lemma advances_same (self self' : RepGame.t) :
  RepGame._logic self' = RepGame._logic self -> lastTick self' = lastTick self ->
  advances self self'.
Proof. intros Hl Ht. split; [lia|]. exists []. by apply advances_by_nil. Qed.

Lemma advances_trans (g1 g2 g3 : RepGame.t) :
  advances g1 g2 -> advances g2 g3 -> advances g1 g3.
Proof.
  intros [H1 [e1 He1]] [H2 [e2 He2]]. split; [lia|].
  exists (e1 ++ e2). eauto using advances_by_app.
Qed.

Lemma advances_by_advance (bound : Z) (self : RepGame.t) :
  advances_by (replicate (Z.to_nat (bound - lastTick self)) NextTick)
              self (RepGame.advance bound self).
Proof. rewrite advance_eq. split; cbn; [done|]. rewrite ticks_replicate. lia. Qed.

Lemma advances_by_run (e : Entry) (self : RepGame.t) :
  advances_by [Run (fst e) (snd e)] self (RepGame.run e self).
Proof. split; [done|cbn; lia]. Qed.

Lemma last_cons_default {A} (q : list A) (e d : A) :
  List.last (e :: q) d = List.last q e.
Proof.
  revert e d. induction q as [|x q IH]; intros e d; [done|].
  change (List.last (e :: x :: q) d) with (List.last (x :: q) d).
  by rewrite !IH.
Qed.

Section Replay.

Variable timestamp : Z.

(** What the replay loop does to a player that has not reached the
    target. *)
Lemma replay_spec (fuel : nat) (self self' : RepGame.t) (log : list LogRecord) :
  RepGame.replay fuel timestamp self = (self', log) ->
  lastTick self < timestamp ->
  lastTick self <= lastTick self' < timestamp
  /\ RepGame.sig self' = RepGame.sig self
  /\ Timer.running (RepGame._timer self') = Timer.running (RepGame._timer self)
  /\ exists ext, advances_by ext self self'
                 /\ Forall (call_ok timestamp (lastTick self')) ext.
Proof.
  revert self. induction fuel as [|fuel IH]; intros self Hrun Hlt;
    cbn [RepGame.replay] in Hrun.
  { simplify_eq. repeat split; [lia|done|]. exists []. split; [by apply advances_by_nil|done]. }
  destruct (RepGame._action_buffer self) as [[t a]|] eqn:Hbuf; cycle 1.
  { simplify_eq. repeat split; [lia|done|]. exists []. split; [by apply advances_by_nil|done]. }
  destruct (Z.ltb_spec t timestamp) as [Ht|Ht]; cycle 1.
  { simplify_eq. repeat split; [lia|done|]. exists []. split; [by apply advances_by_nil|done]. }
  pose proof (advances_by_advance t self) as Hadv.
  rewrite advance_eq in Hrun, Hadv. cbn in Hrun.
  destruct (is_game_end a) eqn:Hend.
  { simplify_eq. cbn. repeat split; [lia|lia| ].
    eexists. split; [exact Hadv|]. apply Forall_call_ok_ticks. }
  destruct (RepGame.queue self) as [|e q] eqn:Hq.
  { simplify_eq. cbn. repeat split; [lia|lia|].
    eexists. split.
    - eapply advances_by_app; [exact Hadv|]. split; [done|cbn; lia].
    - apply Forall_app. split; [apply Forall_call_ok_ticks|].
      constructor; [|done]. cbn. repeat split; [done|lia|done]. }
  apply IH in Hrun; [|cbn; lia]. cbn in Hrun.
  destruct Hrun as (Hl & Hs & Hr & ext & Hext & Hok).
  repeat split; [lia|lia|done|done|].
  eexists. split.
  - eapply advances_by_app; [exact Hadv|].
    eapply advances_by_app; [|exact Hext]. split; [done|cbn; lia].
  - apply Forall_app. split.
    { apply Forall_call_ok_ticks. }
    constructor; [|done]. cbn. repeat split; [done|lia|done].
Qed.

(** The log of the replay loop is empty or the one error record, and the
    error is written when the loop has just applied the last entry. *)
Lemma replay_log (fuel : nat) (self self' : RepGame.t) (log : list LogRecord) :
  RepGame.replay fuel timestamp self = (self', log) ->
  log = [] \/
  (log = [unexpected_ending] /\ RepGame.queue self' = []
   /\ exists t a pre,
        RepGame._action_buffer self' = Some (t, a) /\ t < timestamp
        /\ is_game_end a = false
        /\ RepGame._logic self' = pre ++ [Run t a]).
Proof.
  revert self. induction fuel as [|fuel IH]; intros self Hrun;
    cbn [RepGame.replay] in Hrun; [simplify_eq; by left|].
  destruct (RepGame._action_buffer self) as [[t a]|] eqn:Hbuf; [|simplify_eq; by left].
  destruct (Z.ltb_spec t timestamp) as [Ht|Ht]; [|simplify_eq; by left].
  destruct (is_game_end a) eqn:Hend; [simplify_eq; by left|].
  rewrite advance_eq in Hrun. cbn in Hrun.
  destruct (RepGame.queue self) as [|e q] eqn:Hq; [|by eapply IH].
  simplify_eq. right. cbn. repeat split. exists t, a. eexists. done.
Qed.

(** When the loop leaves a terminal entry queued before the target in the
    buffer, it has stopped on it and has set the clock to its time. *)
Lemma replay_game_end (fuel : nat) (self self' : RepGame.t) (log : list LogRecord)
    (t : Z) (a : Action) :
  RepGame.replay fuel timestamp self = (self', log) ->
  (length (RepGame.queue self) < fuel)%nat ->
  RepGame._action_buffer self' = Some (t, a) ->
  is_game_end a = true -> t < timestamp ->
  Timer.elapsed (RepGame._timer self') = RepGame.__real_time t /\ log = [].
Proof.
  revert self. induction fuel as [|fuel IH]; intros self Hrun Hfuel Hbuf Hend Ht;
    [lia|]. cbn [RepGame.replay] in Hrun.
  destruct (RepGame._action_buffer self) as [[t0 a0]|] eqn:Hbuf0; [|by simplify_eq].
  destruct (Z.ltb_spec t0 timestamp) as [Ht0|Ht0]; [|simplify_eq; lia].
  rewrite advance_eq in Hrun. cbn in Hrun.
  destruct (is_game_end a0) eqn:Hend0.
  { simplify_eq. cbn in *. by simplify_eq. }
  destruct (RepGame.queue self) as [|e q] eqn:Hq.
  { simplify_eq. cbn in *. congruence. }
  eapply IH; [exact Hrun|cbn in *; lia|done..].
Qed.

(** Fuel beyond the length of the queue is not used: the loop has ended
    by itself. *)
Lemma replay_fuel (fuel fuel' : nat) (self : RepGame.t) :
  (length (RepGame.queue self) < fuel)%nat -> (fuel <= fuel')%nat ->
  RepGame.replay fuel' timestamp self = RepGame.replay fuel timestamp self.
Proof.
  revert fuel' self. induction fuel as [|fuel IH]; intros fuel' self Hq Hle; [lia|].
  destruct fuel' as [|fuel']; [lia|]. cbn [RepGame.replay].
  destruct (RepGame._action_buffer self) as [[t a]|]; [|done].
  destruct (t <? timestamp); [|done].
  destruct (is_game_end a); [done|].
  rewrite advance_eq. cbn.
  destruct (RepGame.queue self) as [|e q] eqn:Hqe; [done|].
  apply IH; cbn in *; lia.
Qed.

(** The queue runs out before the target: every pending entry is a
    regular action queued before it. *)
Lemma replay_exhausted (self : RepGame.t) (b : Entry) :
  RepGame._action_buffer self = Some b ->
  Forall (fun e => fst e < timestamp /\ is_game_end (snd e) = false)
         (b :: RepGame.queue self) ->
  exists self',
    RepGame.replay (S (length (RepGame.queue self))) timestamp self
      = (self', [unexpected_ending])
    /\ applied (RepGame._logic self')
       = applied (RepGame._logic self) ++ b :: RepGame.queue self
    /\ RepGame.queue self' = []
    /\ RepGame._action_buffer self' = Some (List.last (RepGame.queue self) b).
Proof.
  remember (RepGame.queue self) as q eqn:Hq. revert self b Hq.
  induction q as [|e q IH]; intros self [t a] Hq Hbuf Hall;
    inversion Hall as [|? ? [Ht Ha] Hall']; subst; cbn in Ht, Ha;
    cbn [length RepGame.replay]; rewrite Hbuf;
    (destruct (Z.ltb_spec t timestamp); [|lia]); rewrite Ha;
    assert (RepGame.queue (RepGame.run (t, a) (RepGame.advance t self))
            = RepGame.queue self) as Hqr by (by rewrite advance_eq);
    assert (applied (RepGame._logic (RepGame.run (t, a) (RepGame.advance t self)))
            = applied (RepGame._logic self) ++ [(t, a)]) as Happ0
      by (rewrite advance_eq; cbn;
          by rewrite !applied_app, applied_replicate, app_nil_r);
    rewrite Hqr, <- Hq.
  - eexists. split; [done|]. rewrite Happ0, Hqr, <- Hq.
    repeat split. by rewrite advance_eq.
  - edestruct (IH (RepGame.with_buffer (Some e) (RepGame.with_queue q
                (RepGame.run (t, a) (RepGame.advance t self)))) e)
      as (self' & Hrun & Happ & Hq' & Hb'); [done|done|done|].
    exists self'. split; [exact Hrun|]. split; [|split; [done|]].
    + rewrite Happ. cbn [RepGame._logic RepGame.with_buffer RepGame.with_queue].
      by rewrite Happ0, <- app_assoc.
    + by rewrite Hb', last_cons_default.
Qed.

End Replay.


Section SetRound.

Variables (now : Q) (timestamp : Z).

Lemma set_round_noop (self : RepGame.t) :
  timestamp <= lastTick self ->
  RepGame.set_round now self timestamp = (self, []).
Proof.
  intros H. unfold RepGame.set_round.
  by destruct (Z.gtb_spec timestamp (lastTick self)); [lia|].
Qed.

Lemma set_round_forward (self : RepGame.t) :
  lastTick self < timestamp ->
  RepGame.set_round now self timestamp =
  let r := RepGame.replay (S (length (RepGame.queue (seek_start now timestamp self))))
                          timestamp (seek_start now timestamp self) in
  (RepGame.advance timestamp r.1, r.2).
Proof.
  intros H. unfold RepGame.set_round, seek_start.
  destruct (Z.gtb_spec timestamp (lastTick self)); [|lia].
  cbn zeta. by destruct (RepGame.replay _ _ _).
Qed.

Lemma stop_not_running (tm : Timer.t) : Timer.running (Timer.stop now tm) = false.
Proof. unfold Timer.stop. by destruct (Timer.running tm) eqn:E. Qed.

Lemma seek_start_facts (self : RepGame.t) :
  lastTick (seek_start now timestamp self) = lastTick self
  /\ RepGame._logic (seek_start now timestamp self) = RepGame._logic self
  /\ RepGame.sig (seek_start now timestamp self) = RepGame.sig self
  /\ Timer.running (RepGame._timer (seek_start now timestamp self)) = false
  /\ pending (seek_start now timestamp self) = pending self.
Proof.
  unfold seek_start, RepGame.fill_buffer, pending.
  destruct self as [tm l calls [|e q] s [b|]]; cbn;
    by rewrite ?stop_not_running.
Qed.

Lemma seek_start_buffer (self : RepGame.t) (b : Entry) (rest : list Entry) :
  pending self = b :: rest ->
  RepGame._action_buffer (seek_start now timestamp self) = Some b
  /\ RepGame.queue (seek_start now timestamp self) = rest.
Proof.
  unfold seek_start, RepGame.fill_buffer, pending.
  destruct self as [tm l calls [|e q] s [b'|]]; cbn; intros; by simplify_eq.
Qed.

(** A forward seek ends on the target tick; it has made only ticks and
    regular actions queued before the target. *)
Lemma set_round_spec (self self' : RepGame.t) (log : list LogRecord) :
  RepGame.set_round now self timestamp = (self', log) ->
  lastTick self < timestamp ->
  lastTick self' = timestamp
  /\ RepGame.sig self' = RepGame.sig self
  /\ Timer.running (RepGame._timer self') = false
  /\ exists ext, advances_by ext self self'
                 /\ Forall (call_ok timestamp timestamp) ext.
Proof.
  intros Hrun Hlt. rewrite set_round_forward in Hrun by done. cbn zeta in Hrun.
  destruct (RepGame.replay _ _ _) as [g log'] eqn:Hrep. cbn in Hrun.
  destruct (seek_start_facts self) as (Hl & Hc & Hs & Hr & _).
  apply replay_spec in Hrep as (Hl' & Hs' & Hr' & ext & [He1 He2] & Hok); [|lia].
  pose proof (advances_by_advance timestamp g) as [Ha1 Ha2].
  rewrite advance_eq in Hrun, Ha1, Ha2. simplify_eq. cbn in *.
  split; [lia|]. split; [congruence|]. split; [congruence|].
  exists (ext ++ replicate (Z.to_nat (timestamp - lastTick g)) NextTick).
  split; [split|].
  - cbn. rewrite He1, Hc. by rewrite app_assoc.
  - cbn. rewrite ticks_app, ticks_replicate. lia.
  - apply Forall_app. split; [|apply Forall_call_ok_ticks].
    eapply List.Forall_impl; [|exact Hok]. intros c. apply call_ok_mono. lia.
Qed.

Lemma set_round_advances (self : RepGame.t) :
  advances self (RepGame.set_round now self timestamp).1.
Proof.
  destruct (Z.le_gt_cases timestamp (lastTick self)) as [H|H].
  - rewrite set_round_noop by done. apply advances_refl.
  - destruct (RepGame.set_round now self timestamp) as [g log] eqn:E.
    apply set_round_spec in E as (Hl & _ & _ & ext & Hext & _); [|lia].
    split; [cbn; lia|]. by exists ext.
Qed.

Lemma set_round_last (self : RepGame.t) :
  lastTick (RepGame.set_round now self timestamp).1
  = Z.max timestamp (lastTick self).
Proof.
  destruct (Z.le_gt_cases timestamp (lastTick self)) as [H|H].
  - rewrite set_round_noop by done. cbn. lia.
  - destruct (RepGame.set_round now self timestamp) as [g log] eqn:E.
    apply set_round_spec in E as (Hl & _); [|lia]. cbn. lia.
Qed.

Lemma replay_buffer (fuel : nat) (self : RepGame.t) :
  is_Some (RepGame._action_buffer self) ->
  is_Some (RepGame._action_buffer (RepGame.replay fuel timestamp self).1).
Proof.
  revert self. induction fuel as [|fuel IH]; intros self Hb;
    cbn [RepGame.replay]; [done|].
  destruct (RepGame._action_buffer self) as [[t a]|] eqn:Hbuf; [|by destruct Hb].
  destruct (t <? timestamp); [|cbn; by rewrite Hbuf].
  rewrite advance_eq.
  destruct (is_game_end a); [cbn; by rewrite Hbuf|]. cbn.
  destruct (RepGame.queue self); [cbn; by rewrite Hbuf|]. by apply IH.
Qed.

Lemma set_round_pending (self : RepGame.t) :
  pending self <> [] -> pending (RepGame.set_round now self timestamp).1 <> [].
Proof.
  intros Hp.
  destruct (Z.le_gt_cases timestamp (lastTick self)) as [H|H].
  { by rewrite set_round_noop. }
  rewrite set_round_forward by lia. cbn zeta. cbn [fst].
  destruct (pending self) as [|b rest] eqn:Hpe; [done|].
  destruct (seek_start_buffer self b rest Hpe) as [Hb _].
  destruct (replay_buffer (S (length (RepGame.queue (seek_start now timestamp self))))
              (seek_start now timestamp self)) as [x Hx]; [by rewrite Hb|].
  unfold pending. rewrite advance_eq. cbn [RepGame._action_buffer].
  by rewrite Hx.
Qed.

End SetRound.

(** ** The playback loop *)

Lemma advances_advance (bound : Z) (self : RepGame.t) :
  advances self (RepGame.advance bound self).
Proof.
  split; [rewrite advance_eq; cbn; lia|]. eexists. apply advances_by_advance.
Qed.

Lemma advances_run (e : Entry) (self : RepGame.t) :
  advances self (RepGame.run e self).
Proof. split; [cbn; lia|]. eexists. apply advances_by_run. Qed.

Lemma advances_tick (self : RepGame.t) : advances self (RepGame.tick self).
Proof. split; [cbn; lia|]. exists [NextTick]. split; cbn; [done|lia]. Qed.

Section Mainloop.

Variable e : RepGame.Env.

Lemma tick_while_due_advances (fuel i : nat) (bound : Z) (self : RepGame.t) :
  advances self (RepGame.tick_while_due fuel e i bound self).
Proof.
  revert i self. induction fuel as [|fuel IH]; intros i self;
    cbn [RepGame.tick_while_due]; [apply advances_refl|].
  destruct (_ && _); [|apply advances_refl].
  eapply advances_trans; [apply advances_tick|apply IH].
Qed.

Lemma apply_action_advances (next_action : Entry) (self : RepGame.t) :
  advances self (RepGame.apply_action next_action self).
Proof.
  unfold RepGame.apply_action.
  eapply advances_trans; [apply advances_advance|apply advances_run].
Qed.

Lemma deliver_advances (next_action : Entry) (self : RepGame.t) :
  advances self (step_state (RepGame.deliver e next_action self)).
Proof.
  unfold RepGame.deliver. repeat case_match; cbn [step_state].
  - eapply advances_trans; [|apply apply_action_advances]. by apply advances_same.
  - by apply advances_same.
  - apply apply_action_advances.
Qed.

Lemma dispatch_advances (buf : Entry) (next_action : option Entry) (self : RepGame.t) :
  advances self (step_state (RepGame.dispatch e buf next_action self)).
Proof.
  unfold RepGame.dispatch. repeat case_match; cbn [step_state].
  - apply deliver_advances.
  - eapply advances_trans; [|apply deliver_advances]. by apply advances_same.
  - apply tick_while_due_advances.
Qed.

Lemma get_same (self self' : RepGame.t) (q : option Signal) :
  RepGame.get e self = Some (q, self') ->
  self' = RepGame.with_sig (RepGame.sig self') self.
Proof.
  unfold RepGame.get. intros H.
  destruct self as [tm l calls qu s b]; cbn in *.
  repeat case_match; by simplify_eq.
Qed.

Lemma poll_advances (buf : Entry) (self : RepGame.t) :
  advances self (step_state (RepGame.poll e buf self)).
Proof.
  unfold RepGame.poll. cbn zeta.
  destruct (_ || _); [|apply dispatch_advances].
  destruct (RepGame.get e self) as [[q self']|] eqn:Hget; [|apply advances_refl].
  apply get_same in Hget.
  assert (advances self self') as Hs by (rewrite Hget; by apply advances_same).
  destruct q as [[| |a|r]|].
  - destruct (RepGame.set_round _ _ _) as [g log] eqn:E. cbn [step_state].
    eapply advances_trans; [exact Hs|].
    pose proof (set_round_advances (RepGame.wall e 1) (lastTick self' + 1) self') as H.
    by rewrite E in H.
  - cbn [step_state]. eapply advances_trans; [exact Hs|]. by apply advances_same.
  - eapply advances_trans; [exact Hs|]. apply dispatch_advances.
  - destruct (RepGame.set_round _ _ _) as [g log] eqn:E. cbn [step_state].
    eapply advances_trans; [exact Hs|].
    pose proof (set_round_advances (RepGame.wall e 1) (lastTick self' + 1) self') as H.
    by rewrite E in H.
  - eapply advances_trans; [exact Hs|]. apply dispatch_advances.
Qed.

Lemma body_advances (self : RepGame.t) :
  advances self (step_state (RepGame.body e self)).
Proof.
  unfold RepGame.body. repeat case_match; cbn [step_state].
  - apply poll_advances.
  - by apply advances_same.
  - eapply advances_trans; [|apply poll_advances]. by apply advances_same.
Qed.

Lemma get_spec (self self' : RepGame.t) (q : option Signal) :
  RepGame.get e self = Some (q, self') ->
  match RepGame.sig self with
  | s :: rest => q = Some s /\ RepGame.sig self' = rest
  | [] => q = RepGame.arrival e /\ RepGame.sig self' = []
  end.
Proof.
  unfold RepGame.get. intros H.
  destruct self as [tm l calls qu s b]; cbn in *.
  repeat case_match; by simplify_eq.
Qed.

(** A pass that answers a rendezvous is a seek by one tick of the player
    it found, with the signal taken off the channel and the buffer
    filled. *)
Lemma body_answered (self self' : RepGame.t) (r : nat) (log : list LogRecord) :
  RepGame.body e self = RepGame.Return (RepGame.Answered r) self' log ->
  exists g,
    lastTick g = lastTick self /\ RepGame._logic g = RepGame._logic self
    /\ pending g = pending self /\ pending self <> []
    /\ (RepGame.sig self = SigQueue r :: RepGame.sig g
        \/ RepGame.sig self = [] /\ RepGame.sig g = [])
    /\ RepGame.set_round (RepGame.wall e 1) g (lastTick g + 1) = (self', log).
Proof.
  assert (forall buf g next_action s l,
             RepGame.dispatch e buf next_action g
             <> RepGame.Return (RepGame.Answered r) s l) as Hd.
  { intros buf g na s l. unfold RepGame.dispatch, RepGame.deliver.
    repeat case_match; done. }
  assert (forall buf g,
             RepGame.poll e buf g = RepGame.Return (RepGame.Answered r) self' log ->
             exists g', lastTick g' = lastTick g
                        /\ RepGame._logic g' = RepGame._logic g
                        /\ pending g' = pending g
                        /\ (RepGame.sig g = SigQueue r :: RepGame.sig g'
                            \/ RepGame.sig g = [] /\ RepGame.sig g' = [])
                        /\ RepGame.set_round (RepGame.wall e 1) g' (lastTick g' + 1)
                           = (self', log)) as Hp.
  { intros buf g. unfold RepGame.poll. cbn zeta.
    destruct (_ || _); [|intros H; by apply Hd in H].
    destruct (RepGame.get e g) as [[q g']|] eqn:Hget; [|done].
    pose proof (get_spec _ _ _ Hget) as Hsig. apply get_same in Hget.
    destruct q as [[| |a|r']|]; try (intros H; by apply Hd in H).
    - by destruct (RepGame.set_round _ _ _).
    - done.
    - destruct (RepGame.set_round _ _ _) as [g1 l1] eqn:E. intros H. simplify_eq.
      exists g'. repeat split; [by rewrite Hget..| |done].
      destruct (RepGame.sig g) as [|s rest]; destruct Hsig as [Hq Hs];
        [by right|left; congruence]. }
  unfold RepGame.body.
  destruct self as [tm l calls [|x q] s [b|]]; cbn; try done;
    intros H; apply Hp in H as (g' & ? & ? & ? & ? & ?); exists g'; done.
Qed.

End Mainloop.

Lemma mainloop_advances (fuel : nat) (env : nat -> RepGame.Env) (self : RepGame.t) :
  advances self (step_state (RepGame.mainloop fuel env self)).
Proof.
  revert env self. induction fuel as [|fuel IH]; intros env self;
    cbn [RepGame.mainloop]; [apply advances_refl|].
  pose proof (body_advances (env O) self) as Hb.
  destruct (RepGame.body (env O) self) as [g|x g log|g]; cbn [step_state] in *;
    [|done..].
  eapply advances_trans; [exact Hb|apply IH].
Qed.

(** ** The sorted dictionary *)

Section SortedDictFacts.

Context {V : Type}.
Implicit Types (d : SortedDict.t V) (k t : Z) (v : V).

Lemma dict_ok_cons k v d :
  dict_ok ((k, v) :: d) <-> Forall (fun kv => k < kv.1) d /\ dict_ok d.
Proof. apply StronglySorted_cons. Qed.

Lemma dict_ok_middle d1 d2 k v :
  dict_ok (d1 ++ (k, v) :: d2) <->
  dict_ok (d1 ++ d2)
  /\ Forall (fun kv => kv.1 < k) d1 /\ Forall (fun kv => k < kv.1) d2.
Proof.
  unfold dict_ok. rewrite !StronglySorted_app, StronglySorted_cons, !Forall_forall.
  split.
  - intros (H1 & H2 & H3 & H4). repeat split; try done.
    + intros x1 x2 Hx1 Hx2. apply H1; [done|by right].
    + intros x Hx. apply (H1 x (k, v)); [done|by left].
  - intros ((H1 & H2 & H3) & H4 & H5). repeat split; try done.
    intros x1 x2 Hx1 [->|Hx2]%elem_of_cons; [by apply H4|by apply H1].
Qed.

(** [bisect] cuts a sorted dictionary between the keys [<= t] and the
    keys [> t]. *)
Lemma bisect_split t d :
  dict_ok d ->
  exists d1 d2,
    d = d1 ++ d2 /\ length d1 = SortedDict.bisect t d
    /\ Forall (fun kv => kv.1 <= t) d1 /\ Forall (fun kv => t < kv.1) d2.
Proof.
  induction d as [|[k v] d IH]; intros Hok.
  { exists [], []. by repeat split. }
  apply dict_ok_cons in Hok as [Hk Hok]. cbn [SortedDict.bisect].
  destruct (Z.leb_spec k t) as [Hle|Hgt].
  - destruct (IH Hok) as (d1 & d2 & -> & Hlen & H1 & H2).
    exists ((k, v) :: d1), d2. repeat split; [by cbn; rewrite Hlen| |done].
    by constructor.
  - exists [], ((k, v) :: d). repeat split; [done|].
    constructor; [done|]. eapply List.Forall_impl; [|exact Hk]. cbn. lia.
Qed.

Lemma bisect_zero t d :
  dict_ok d -> SortedDict.bisect t d = O ->
  forall k, k ∈ SortedDict.keys d -> t < k.
Proof.
  intros Hok H0 k Hk. destruct (bisect_split t d Hok) as (d1 & d2 & -> & Hlen & _ & H2).
  rewrite H0 in Hlen. destruct d1; [|done]. cbn in Hk.
  apply list_elem_of_fmap in Hk as (kv & -> & Hkv).
  by eapply Forall_forall in H2.
Qed.

Lemma bisect_succ t d i :
  dict_ok d -> SortedDict.bisect t d = S i ->
  exists d1 k v d2,
    d = d1 ++ (k, v) :: d2 /\ length d1 = i /\ k <= t
    /\ Forall (fun kv => t < kv.1) d2.
Proof.
  intros Hok Hi. destruct (bisect_split t d Hok) as (d1 & d2 & -> & Hlen & H1 & H2).
  rewrite Hi in Hlen.
  destruct (decide (d1 = [])) as [->|Hne]; [done|].
  apply exists_last in Hne as (d1' & [k v] & ->).
  rewrite length_app in Hlen. cbn in Hlen.
  apply Forall_app in H1 as [_ Hk]. inversion Hk as [|? ? Hk' _]; subst. cbn in Hk'.
  exists d1', k, v, d2. rewrite <- app_assoc. repeat split; try done; lia.
Qed.

Lemma iloc_middle d1 d2 k v :
  SortedDict.iloc (length d1) (d1 ++ (k, v) :: d2) = Some k.
Proof.
  unfold SortedDict.iloc, SortedDict.keys.
  by rewrite list_lookup_fmap, list_lookup_middle.
Qed.

Lemma getitem_middle d1 d2 k v :
  Forall (fun kv => kv.1 < k) d1 ->
  SortedDict.getitem k (d1 ++ (k, v) :: d2) = Some v.
Proof.
  induction d1 as [|[k' v'] d1 IH]; intros H; cbn.
  - by rewrite Z.eqb_refl.
  - inversion H as [|? ? Hk' H']; subst. cbn in Hk'.
    destruct (Z.eqb_spec k' k); [lia|]. by apply IH.
Qed.

Lemma del_iloc_middle d1 d2 k v :
  SortedDict.del_iloc (length d1) (d1 ++ (k, v) :: d2) = d1 ++ d2.
Proof. apply delete_middle. Qed.

Lemma contains_false k d :
  SortedDict.contains k d = false <-> k ∉ SortedDict.keys d.
Proof.
  unfold SortedDict.contains, SortedDict.keys.
  induction d as [|[k' v'] d IH]; cbn.
  - split; [intros _; by inversion 1|done].
  - rewrite orb_false_iff, IH, not_elem_of_cons.
    destruct (Z.eqb_spec k' k); intuition congruence.
Qed.

Lemma getitem_Some k v d :
  SortedDict.getitem k d = Some v -> (k, v) ∈ d.
Proof.
  induction d as [|[k' v'] d IH]; cbn; [done|].
  destruct (Z.eqb_spec k' k) as [->|]; intros H; simplify_eq; [by left|].
  right. by apply IH.
Qed.

(** Storing under a key that is not there puts one item in its place and
    leaves the others as they are. *)
Lemma setitem_split k v d :
  dict_ok d -> k ∉ SortedDict.keys d ->
  exists d1 d2,
    d = d1 ++ d2 /\ SortedDict.setitem k v d = d1 ++ (k, v) :: d2
    /\ Forall (fun kv => kv.1 < k) d1 /\ Forall (fun kv => k < kv.1) d2.
Proof.
  induction d as [|[k' v'] d IH]; intros Hok Hk.
  { exists [], []. by repeat split. }
  apply dict_ok_cons in Hok as [Hk' Hok].
  cbn in Hk. apply not_elem_of_cons in Hk as [Hne Hk]. cbn [SortedDict.setitem].
  destruct (Z.ltb_spec k k') as [Hlt|Hge].
  - exists [], ((k', v') :: d). repeat split; [done|].
    constructor; [done|]. eapply List.Forall_impl; [|exact Hk']. cbn. lia.
  - destruct (Z.eqb_spec k k'); [done|].
    destruct (IH Hok Hk) as (d1 & d2 & -> & Hset & H1 & H2).
    exists ((k', v') :: d1), d2. rewrite Hset. repeat split; [|done].
    constructor; [cbn; lia|done].
Qed.

End SortedDictFacts.

(** ** Players that stay sound *)

Section Sound.

Variable file : RepFile.

Lemma sound_same (g g' : RepGame.t) :
  sound file g -> lastTick g' = lastTick g -> RepGame._logic g' = RepGame._logic g ->
  RepGame.sig g' = RepGame.sig g -> pending g' = pending g ->
  sound file g'.
Proof.
  intros (H0 & H & Hs & Hp) Hl Hc Hs' Hp'.
  unfold sound. rewrite Hl, Hc, Hs', Hp'. done.
Qed.

Lemma sound_set_round (now : Q) (timestamp : Z) (g : RepGame.t) :
  sound file g -> sound file (RepGame.set_round now g timestamp).1.
Proof.
  intros (H0 & H & Hsig & Hp).
  destruct (Z.le_gt_cases timestamp (lastTick g)) as [Hle|Hgt].
  { by rewrite set_round_noop. }
  pose proof (set_round_pending now timestamp g) as Hp'.
  destruct (RepGame.set_round now g timestamp) as [g' log] eqn:E.
  apply set_round_spec in E as (Hl & Hs' & _ & ext & [Hc _] & Hok); [|lia].
  cbn in *. split; [lia|]. split; [|split; [congruence|auto]].
  intros t a. rewrite Hc, elem_of_app. intros [Hin|Hin].
  - destruct (H t a Hin); [left; lia|by right].
  - eapply Forall_forall in Hok; [|exact Hin]. cbn in Hok. left. lia.
Qed.

Lemma sound_reloaded : sound file (reloaded file).
Proof.
  split; [done|]. split; [intros t a; cbn; by inversion 1|]. split; [done|].
  unfold two_entries, pending, reloaded. cbn.
  destruct ((_load_queue file []).1.2); cbn; [lia|done].
Qed.

(** The player after the first entry of its queue has been run. *)
Lemma sound_run_first (e : Entry) (q : list Entry) :
  (_load_queue file []).1.2 = e :: q ->
  sound file (RepGame.run e (RepGame.with_queue q (reloaded file))).
Proof.
  intros Hq. split; [done|]. split; [|split; [done|]].
  - intros t a. destruct e as [te ae]. cbn.
    intros [= -> ->]%list_elem_of_singleton. right.
    unfold first_entry. by rewrite Hq.
  - unfold two_entries, pending. rewrite Hq. cbn. destruct q; cbn; [lia|done].
Qed.

End Sound.

(** ** The store of checkpoints *)

Section Store.

Variable file : RepFile.
Implicit Types (games : SortedDict.t RepManager.loc) (heap : RepManager.loc -> RepGame.t).

Lemma store_ok_update games heap next l g :
  store_ok file games heap next -> l ∉ SortedDict.values games ->
  store_ok file games (<[l:=g]> heap) next.
Proof.
  intros (Hok & Hnd & Hall) Hl. split; [done|]. split; [done|].
  intros kv Hkv. rewrite fn_lookup_insert_ne; [by apply Hall|].
  intros ->. apply Hl. unfold SortedDict.values. by apply list_elem_of_fmap_2.
Qed.

Lemma store_ok_alloc games heap next g :
  store_ok file games heap next ->
  store_ok file games (<[next:=g]> heap) (S next)
  /\ (next ∉ SortedDict.values games).
Proof.
  intros (Hok & Hnd & Hall).
  assert (next ∉ SortedDict.values games) as Hfresh.
  { intros (kv & -> & Hkv)%list_elem_of_fmap. apply Hall in Hkv. lia. }
  split; [|done]. split; [done|]. split; [done|].
  intros kv Hkv. rewrite fn_lookup_insert_ne.
  - destruct (Hall kv Hkv) as (? & ? & ?). split; [done|]. split; [done|lia].
  - intros ->. apply Hfresh. unfold SortedDict.values. by apply list_elem_of_fmap_2.
Qed.

Lemma store_ok_insert games heap next k l :
  store_ok file games heap next ->
  k ∉ SortedDict.keys games -> l ∉ SortedDict.values games ->
  lastTick (heap l) = k -> sound file (heap l) -> (l < next)%nat ->
  store_ok file (SortedDict.setitem k l games) heap next.
Proof.
  intros (Hok & Hnd & Hall) Hk Hl Hlast Hsound Hnext.
  destruct (setitem_split k l games Hok Hk) as (d1 & d2 & -> & -> & H1 & H2).
  unfold store_ok, SortedDict.values in *. split; [|split].
  - by apply dict_ok_middle.
  - rewrite fmap_app, fmap_cons. cbn. rewrite <- Permutation_middle.
    rewrite fmap_app in Hnd, Hl. by constructor.
  - intros kv [Hin|[->|Hin]%elem_of_cons]%elem_of_app.
    + apply Hall, elem_of_app. by left.
    + done.
    + apply Hall, elem_of_app. by right.
Qed.

Lemma store_ok_delete d1 d2 heap next k l :
  store_ok file (d1 ++ (k, l) :: d2) heap next ->
  store_ok file (d1 ++ d2) heap next
  /\ (l ∉ SortedDict.values (d1 ++ d2))
  /\ lastTick (heap l) = k /\ sound file (heap l) /\ (l < next)%nat.
Proof.
  intros (Hok & Hnd & Hall). unfold store_ok, SortedDict.values in *.
  rewrite fmap_app, fmap_cons in Hnd. cbn in Hnd.
  rewrite <- Permutation_middle in Hnd. apply NoDup_cons in Hnd as [Hl Hnd].
  rewrite <- fmap_app in Hl, Hnd.
  split; [|split; [done|]].
  - split; [by apply dict_ok_middle in Hok as [? _]|]. split; [done|].
    intros kv [Hin|Hin]%elem_of_app; apply Hall, elem_of_app;
      [by left|right; by right].
  - apply (Hall (k, l)), elem_of_app. right. by left.
Qed.

End Store.

(** ** The manager between seeks *)

Section Manager.

Variable file : RepFile.

Lemma active_store_active (g : RepGame.t) (m : RepManager.t) :
  RepManager.active (RepManager.store_active g m) = g.
Proof. unfold RepManager.active, RepManager.store_active. cbn. apply fn_lookup_insert. Qed.

Lemma manager_ok_store_active (m : RepManager.t) (g : RepGame.t) :
  frame_ok file m -> sound file g ->
  manager_ok file (RepManager.store_active g m).
Proof.
  intros (Hf & Hs & Ha & Hn) Hg.
  split; [|by rewrite active_store_active].
  split; [done|]. split; [cbn; by apply store_ok_update|]. done.
Qed.

Lemma same_frame_store_active (m : RepManager.t) (g : RepGame.t) :
  same_frame m (RepManager.store_active g m).
Proof.
  repeat split. intros l Hl. cbn. by rewrite fn_lookup_insert_ne.
Qed.

Lemma same_frame_trans (m1 m2 m3 : RepManager.t) :
  same_frame m1 m2 -> same_frame m2 m3 -> same_frame m1 m3.
Proof.
  intros (H1 & H2 & H3 & H4 & H5) (K1 & K2 & K3 & K4 & K5).
  repeat split; try congruence.
  intros l Hl. rewrite K5, H5; [done..|congruence].
Qed.

Lemma active_set_round_ok (now : Q) (timestamp : Z) (m : RepManager.t) :
  manager_ok file m ->
  manager_ok file (RepManager.active_set_round now timestamp m)
  /\ same_frame m (RepManager.active_set_round now timestamp m)
  /\ RepManager.active (RepManager.active_set_round now timestamp m)
     = (RepGame.set_round now (RepManager.active m) timestamp).1.
Proof.
  intros Hm. unfold RepManager.active_set_round.
  pose proof (sound_set_round file now timestamp (RepManager.active m)) as Hs.
  destruct (RepGame.set_round now (RepManager.active m) timestamp) as [g log].
  cbn in Hs. split; [|split].
  - apply (manager_ok_store_active m g); [apply Hm|]. apply Hs, Hm.
  - apply (same_frame_store_active m g).
  - apply active_store_active.
Qed.

Lemma quiesce_ok (now : Q) (m m1 : RepManager.t) :
  manager_ok file m -> quiesce now m = Done m1 ->
  manager_ok file m1 /\ same_frame m m1
  /\ lastTick (RepManager.active m1) = lastTick (RepManager.active m) + 1.
Proof.
  intros Hm. unfold quiesce, RepManager.rendezvous.
  set (m0 := RepManager.store_active _ _).
  assert (manager_ok file m0 /\ same_frame m m0
          /\ lastTick (RepManager.active m0) = lastTick (RepManager.active m)) as (Hm0 & Hf0 & Hl0).
  { subst m0. split; [|split].
    - apply (manager_ok_store_active (RepManager.with_info_callback RepManager.Silent m));
        [apply Hm|]. eapply sound_same; [apply Hm|done..].
    - apply (same_frame_store_active (RepManager.with_info_callback RepManager.Silent m)).
    - by rewrite active_store_active. }
  destruct (RepGame.body _ _) as [|x g log|] eqn:Hbody; try done.
  destruct x as [| |r']; try done. destruct (Nat.eqb _ _); [|done].
  intros [= <-].
  apply body_answered in Hbody as (g0 & Hl & Hc & Hp & _ & Hsig & Hset).
  change (lastTick g0 = lastTick (RepManager.active m0)) in Hl.
  change (RepGame._logic g0 = RepGame._logic (RepManager.active m0)) in Hc.
  change (pending g0 = pending (RepManager.active m0)) in Hp.
  assert (RepGame.sig (RepManager.active m0) = []) as Hs0 by apply Hm0.
  assert (sound file g0) as Hg0.
  { eapply sound_same; [apply Hm0|done..| |done].
    change (RepGame.sig (RepGame.with_sig ?s _)) with s in Hsig.
    rewrite Hs0 in Hsig. cbn [app] in Hsig.
    destruct Hsig as [Hsig|[_ Hsig]]; congruence. }
  pose proof (sound_set_round file (RepGame.wall
    {| RepGame.wall := fun _ => now; RepGame.arrival := None |} 1)
    (lastTick g0 + 1) g0 Hg0) as Hg.
  pose proof (set_round_last (RepGame.wall
    {| RepGame.wall := fun _ => now; RepGame.arrival := None |} 1)
    (lastTick g0 + 1) g0) as Hlast.
  rewrite Hset in Hg, Hlast. cbn [fst] in Hg, Hlast.
  split; [|split].
  - apply (manager_ok_store_active m0 g); [apply Hm0|exact Hg].
  - eapply same_frame_trans; [exact Hf0|]. apply (same_frame_store_active m0 g).
  - change (lastTick (RepManager.active (RepManager.store_active g m0))
            = lastTick (RepManager.active m) + 1).
    rewrite active_store_active, Hlast. lia.
Qed.

Lemma retire_ok (m : RepManager.t) :
  manager_ok file m ->
  RepManager._rep_file (RepManager.retire m) = file
  /\ store_ok file (RepManager._games (RepManager.retire m))
              (RepManager.heap (RepManager.retire m))
              (RepManager.next_loc (RepManager.retire m))
  /\ RepManager._rounds (RepManager.retire m) = RepManager._rounds m.
Proof.
  intros ((Hf & Hs & Ha & Hn) & Hg). unfold RepManager.retire.
  destruct (SortedDict.contains _ _) eqn:Hc; [done|].
  apply contains_false in Hc. cbn. split; [done|]. split; [|done].
  by apply store_ok_insert.
Qed.

Lemma active_load_queue_fresh (m : RepManager.t) :
  RepManager._rep_file m = file -> RepManager.active m = RepGame.__init__ ->
  RepManager.active_load_queue m =
  ((_load_queue file []).1.1,
   RepManager.logged (_load_queue file []).2
     (RepManager.store_active (reloaded file) m)).
Proof.
  intros Hf Ha. unfold RepManager.active_load_queue, reloaded.
  rewrite Hf, Ha. cbn. by destruct (_load_queue file []) as [[r q] log].
Qed.

Lemma recall_ok (now : Q) (timestamp : Z) (m m' : RepManager.t) :
  RepManager._rep_file m = file ->
  store_ok file (RepManager._games m) (RepManager.heap m)
           (RepManager.next_loc m) ->
  RepManager.recall now timestamp m = Done m' ->
  manager_ok file m'
  /\ lastTick (RepManager.active m') = Z.max timestamp 0
  /\ RepManager._rounds m' = RepManager._rounds m.
Proof.
  intros Hf Hs. unfold RepManager.recall.
  destruct (SortedDict.bisect timestamp (RepManager._games m)) as [|i] eqn:Hb.
  - (* no checkpoint: a new player *)
    destruct (store_ok_alloc _ _ _ _ RepGame.__init__ Hs) as [Hs1 Hfresh].
    set (m1 := RepManager.new_active_game m).
    assert (frame_ok file m1) as Hm1.
    { split; [done|]. split; [exact Hs1|]. split; [exact Hfresh|]. cbn; lia. }
    rewrite (active_load_queue_fresh m1); [|done|];
      [|unfold RepManager.active; cbn; by rewrite fn_lookup_insert].
    set (m2 := RepManager.logged _ _).
    assert (manager_ok file m2) as Hm2
      by apply (manager_ok_store_active m1 _ Hm1 (sound_reloaded file)).
    assert (RepManager.active m2 = reloaded file) as Ha2
      by apply active_store_active.
    destruct (Z.eqb_spec timestamp 0) as [->|Hne]; cbn [negb].
    + unfold RepManager.active_run_first. rewrite Ha2.
      destruct (RepGame.queue (reloaded file)) as [|e q] eqn:Hq; [done|].
      intros [= <-]. split; [|split; [by rewrite active_store_active|done]].
      apply (manager_ok_store_active m2); [apply Hm2|].
      by apply sound_run_first.
    + intros [= <-].
      destruct (active_set_round_ok now timestamp m2 Hm2) as (Hm3 & Hf3 & Ha3).
      split; [done|]. split; [|apply Hf3].
      rewrite Ha3, set_round_last, Ha2. done.
  - (* a checkpoint at or below the target *)
    destruct Hs as (Hok & Hnd & Hall).
    destruct (bisect_succ timestamp _ i Hok Hb) as (d1 & k & l & d2 & Hd & Hi & Hk & _).
    rewrite Hd in Hok, Hnd, Hall. rewrite Hd. subst i. rewrite iloc_middle.
    pose proof Hok as (Hok' & H1 & H2)%dict_ok_middle.
    rewrite (getitem_middle d1 d2 k l H1).
    cbn [RepManager._games RepManager.with_active_game].
    rewrite Hd, del_iloc_middle.
    destruct (store_ok_delete _ d1 d2 _ _ k l (conj Hok (conj Hnd Hall)))
      as (Hs' & Hl & Hlast & Hsound & Hnext).
    set (m1 := RepManager.with_games _ _).
    assert (manager_ok file m1) as Hm1 by done.
    assert (lastTick (RepManager.active m1) = k) as Hk1 by done.
    pose proof Hsound as [Hk0 _].
    destruct (Z.gtb_spec timestamp (lastTick (RepManager.active m1))) as [Hgt|Hle];
      intros [= <-].
    + destruct (active_set_round_ok now timestamp m1 Hm1) as (Hm3 & Hf3 & Ha3).
      split; [done|]. split; [|apply Hf3].
      rewrite Ha3, set_round_last. lia.
    + split; [done|]. split; [lia|done].
Qed.

End Manager.

(** ** Manager-level seek *)

Section ManagerSeek.

Variables (file : RepFile) (now : Q) (timestamp : Z).

Lemma set_round_forward_eq (m : RepManager.t) :
  lastTick (RepManager.active m) < timestamp ->
  RepManager.set_round now m timestamp = Done (seek_forward now timestamp m).
Proof.
  intros H. unfold RepManager.set_round, seek_forward.
  rewrite active_store_active.
  change (lastTick (RepGame.with_timer _ ?g)) with (lastTick g).
  change (RepManager.active (RepManager.with_info_callback _ ?x))
    with (RepManager.active x).
  by destruct (Z.gtb_spec timestamp (lastTick (RepManager.active m))); [|lia].
Qed.

Lemma set_round_backward_eq (m : RepManager.t) :
  timestamp <= lastTick (RepManager.active m) ->
  RepManager.set_round now m timestamp =
  (do m1 <- quiesce now m;
   do m2 <- RepManager.recall now timestamp (RepManager.retire m1);
   Done (seek_end (RepManager._info_callback m) m2)).
Proof.
  intros H. unfold RepManager.set_round, quiesce.
  rewrite active_store_active.
  change (lastTick (RepGame.with_timer _ ?g)) with (lastTick g).
  change (RepManager.active (RepManager.with_info_callback _ ?x))
    with (RepManager.active x).
  destruct (Z.gtb_spec timestamp (lastTick (RepManager.active m))); [lia|].
  destruct (RepManager.rendezvous _ _) as [m1| |]; [|done..]. cbn [bind].
  by destruct (RepManager.recall _ _ _).
Qed.

Lemma set_round_ok (m m' : RepManager.t) :
  manager_ok file m -> RepManager.set_round now m timestamp = Done m' ->
  manager_ok file m'
  /\ lastTick (RepManager.active m') = Z.max timestamp 0
  /\ RepManager._rounds m' = RepManager._rounds m.
Proof.
  intros Hm.
  destruct (Z.le_gt_cases timestamp (lastTick (RepManager.active m))) as [Hle|Hgt].
  - rewrite set_round_backward_eq by done.
    destruct (quiesce now m) as [m1| |] eqn:Hq; [|done..]. cbn [bind].
    destruct (quiesce_ok file now m m1 Hm Hq) as (Hm1 & Hf1 & _).
    destruct (retire_ok file m1 Hm1) as (Hfile & Hs & Hr).
    destruct (RepManager.recall _ _ _) as [m2| |] eqn:Hrec; [|done..]. cbn [bind].
    intros [= <-].
    destruct (recall_ok file now timestamp _ m2 Hfile Hs Hrec) as (Hm2 & Hl2 & Hr2).
    split; [exact Hm2|]. split; [exact Hl2|].
    change (RepManager._rounds m2 = RepManager._rounds m).
    rewrite Hr2, Hr. apply Hf1.
  - rewrite set_round_forward_eq by lia. intros [= <-]. unfold seek_forward.
    set (m0 := RepManager.store_active _ _).
    assert (manager_ok file m0) as Hm0.
    { apply (manager_ok_store_active file
               (RepManager.with_info_callback RepManager.Silent m)); [apply Hm|].
      eapply sound_same; [apply Hm|done..]. }
    destruct (active_set_round_ok file now timestamp m0 Hm0) as (Hm3 & Hf3 & Ha3).
    split; [exact Hm3|]. split.
    + change (lastTick (RepManager.active (RepManager.active_set_round now timestamp m0))
              = Z.max timestamp 0).
      rewrite Ha3, set_round_last. subst m0. rewrite active_store_active.
      change (lastTick (RepGame.with_timer _ ?g)) with (lastTick g).
      destruct Hm as (_ & [H0 _]). lia.
    + change (RepManager._rounds (RepManager.active_set_round now timestamp m0)
              = RepManager._rounds m).
      destruct Hf3 as (_ & _ & _ & -> & _). done.
Qed.

End ManagerSeek.

Lemma init_ok (file : RepFile) (verbose start_paused : bool) (m : RepManager.t) :
  RepManager.__init__ file verbose start_paused = Done m ->
  manager_ok file m
  /\ RepManager._rounds m = (_load_queue file []).1.1
  /\ RepManager._games m = []
  /\ exists e q, (_load_queue file []).1.2 = e :: q
                 /\ RepManager.active m
                    = RepGame.run e (RepGame.with_queue q RepGame.__init__).
Proof.
  unfold RepManager.__init__.
  rewrite (active_load_queue_fresh file); [|done..].
  cbv beta iota zeta.
  set (m0 := RepManager.with_rounds _ _).
  unfold RepManager.active_run_first.
  assert (RepManager.active m0 = reloaded file) as ->
    by (unfold RepManager.active; cbn; by rewrite fn_lookup_insert).
  destruct (RepGame.queue (reloaded file)) as [|e q] eqn:Hq; [done|].
  intros [= <-]. cbn in Hq. split; [|split; [done|split; [done|]]].
  - apply (manager_ok_store_active file m0); [|by apply sound_run_first].
    split; [done|]. split; [|split]; cbn.
    + split; [constructor|]. split; [constructor|]. intros kv. by inversion 1.
    + by inversion 1.
    + lia.
  - exists e, q. split; [done|]. unfold RepManager.active. cbn.
    by rewrite fn_lookup_insert.
Qed.

Lemma seeks_ok (file : RepFile) (targets : list (Q * Z)) (m m' : RepManager.t) :
  manager_ok file m -> RepManager.seeks targets m = Done m' ->
  manager_ok file m' /\ RepManager._rounds m' = RepManager._rounds m.
Proof.
  revert m. induction targets as [|[now t] targets IH]; intros m Hm; cbn.
  { by intros [= <-]. }
  destruct (RepManager.set_round now m t) as [m1| |] eqn:Hs; [|done..]. cbn.
  destruct (set_round_ok file now t m m1 Hm Hs) as (Hm1 & _ & Hr1).
  intros H. destruct (IH m1 Hm1 H) as [? ?]. split; [done|congruence].
Qed.

(** ** Seeks that return *)

Section Returns.

Variables (file : RepFile) (now : Q).

(** A loop at rest with its clock stopped serves the rendezvous that
    heads its channel, provided it has an entry left. *)
Lemma body_rendezvous (e : RepGame.Env) (g : RepGame.t) (r : nat) (rest : list Signal) :
  Timer.running (RepGame._timer g) = false ->
  RepGame.sig g = SigQueue r :: rest -> pending g <> [] ->
  exists g' log, RepGame.body e g = RepGame.Return (RepGame.Answered r) g' log.
Proof.
  intros Hrun Hsig Hp.
  assert (forall buf g0, Timer.running (RepGame._timer g0) = false ->
                         RepGame.sig g0 = SigQueue r :: rest ->
                         exists g' log, RepGame.poll e buf g0
                                        = RepGame.Return (RepGame.Answered r) g' log) as Hpoll.
  { intros buf g0 Hr Hs. unfold RepGame.poll, RepGame.get. cbn zeta.
    rewrite Hr, Hs. cbn [negb orb].
    destruct (RepGame.set_round _ _ _) as [g' log]. by exists g', log. }
  unfold RepGame.body, pending in *.
  destruct (RepGame._action_buffer g) as [b|]; [by apply Hpoll|].
  destruct (RepGame.queue g) as [|x q]; [done|]. by apply Hpoll.
Qed.

Lemma quiesce_returns (m : RepManager.t) :
  manager_ok file m -> pending (RepManager.active m) <> [] ->
  exists m1, quiesce now m = Done m1.
Proof.
  intros [_ (_ & _ & Hsig & _)] Hp. unfold quiesce, RepManager.rendezvous.
  rewrite active_store_active.
  change (RepGame.sig (RepGame.with_timer _ ?g)) with (RepGame.sig g).
  change (RepManager.active (RepManager.with_info_callback _ ?x))
    with (RepManager.active x).
  rewrite Hsig. cbn [app length].
  edestruct (body_rendezvous
               {| RepGame.wall := fun _ => now; RepGame.arrival := None |}
               (RepGame.with_sig [SigQueue O]
                  (RepGame.with_timer
                     (Timer.stop now (RepGame._timer (RepManager.active m)))
                     (RepManager.active m))) O [])
    as (g' & log & ->); [apply stop_not_running|done|done|].
  cbn [Nat.eqb]. by eexists.
Qed.

Lemma recall_returns (timestamp : Z) (m : RepManager.t) :
  RepManager._rep_file m = file ->
  store_ok file (RepManager._games m) (RepManager.heap m) (RepManager.next_loc m) ->
  (_load_queue file []).1.2 <> [] ->
  exists m', RepManager.recall now timestamp m = Done m'.
Proof.
  intros Hf (Hok & _) Hq. unfold RepManager.recall.
  destruct (SortedDict.bisect timestamp (RepManager._games m)) as [|i] eqn:Hb.
  - rewrite (active_load_queue_fresh file);
      [|done|unfold RepManager.active; cbn; by rewrite fn_lookup_insert].
    destruct (negb (timestamp =? 0)); [by eexists|].
    unfold RepManager.active_run_first.
    change (RepManager.active (RepManager.logged _ ?x)) with (RepManager.active x).
    rewrite active_store_active. cbn [RepGame.queue reloaded RepGame.with_queue].
    destruct ((_load_queue file []).1.2); [done|by eexists].
  - destruct (bisect_succ timestamp _ i Hok Hb) as (d1 & k & l & d2 & Hd & Hi & Hk & _).
    rewrite Hd in Hok. rewrite Hd. subst i. rewrite iloc_middle.
    pose proof Hok as (_ & H1 & _)%dict_ok_middle.
    rewrite (getitem_middle d1 d2 k l H1).
    destruct (_ >? _); by eexists.
Qed.

Lemma set_round_returns (timestamp : Z) (m : RepManager.t) :
  manager_ok file m -> (_load_queue file []).1.2 <> [] ->
  lastTick (RepManager.active m) < timestamp \/ pending (RepManager.active m) <> [] ->
  exists m', RepManager.set_round now m timestamp = Done m'.
Proof.
  intros Hm Hq Hcase.
  destruct (Z.le_gt_cases timestamp (lastTick (RepManager.active m))) as [Hle|Hgt].
  - destruct Hcase as [?|Hp]; [lia|].
    rewrite set_round_backward_eq by done.
    destruct (quiesce_returns m Hm Hp) as [m1 Hm1]. rewrite Hm1. cbn [bind].
    destruct (quiesce_ok file now m m1 Hm Hm1) as (Hok1 & _).
    destruct (retire_ok file m1 Hok1) as (Hfile & Hs & _).
    destruct (recall_returns timestamp _ Hfile Hs Hq) as [m2 ->]. cbn [bind].
    by eexists.
  - rewrite set_round_forward_eq by lia. by eexists.
Qed.

End Returns.

(** On a file of two records or more no seek blocks or raises. *)
Lemma seeks_return (file : RepFile) (targets : list (Q * Z)) (m : RepManager.t) :
  two_entries file -> manager_ok file m ->
  exists m', RepManager.seeks targets m = Done m'.
Proof.
  intros H2. revert m. induction targets as [|[now t] targets IH]; intros m Hm; cbn.
  { by eexists. }
  destruct (set_round_returns file now t m Hm) as [m1 Hm1].
  - unfold two_entries in H2. destruct ((_load_queue file []).1.2); [cbn in H2; lia|done].
  - right. by apply Hm.
  - rewrite Hm1. cbn. apply IH. eapply set_round_ok; [exact Hm|exact Hm1].
Qed.

(** A backward seek on a player that has used up its queue never returns:
    the loop of that player has ended and nobody answers the rendezvous. *)
Lemma seek_back_after_the_end_blocks (file : RepFile) (now : Q) (timestamp : Z)
    (m : RepManager.t) :
  manager_ok file m -> pending (RepManager.active m) = [] ->
  timestamp <= lastTick (RepManager.active m) ->
  RepManager.set_round now m timestamp = Blocks.
Proof.
  intros Hm Hp Hle. rewrite set_round_backward_eq by done.
  unfold quiesce, RepManager.rendezvous. rewrite active_store_active.
  unfold RepGame.body. unfold pending in Hp.
  change (RepManager.active (RepManager.with_info_callback _ ?x))
    with (RepManager.active x).
  cbn [RepGame._action_buffer RepGame.queue RepGame.with_sig RepGame.with_timer].
  destruct (RepGame._action_buffer (RepManager.active m)); [done|].
  by rewrite Hp.
Qed.

(** ** The loader *)

Lemma load_lines_clean (name : string) (js : list JsonLine) (r : Z) (target : list Entry) :
  load_lines name (Line <$> js) r target
  = (List.last (tick_of <$> List.filter (fun j => names_game_end (action j)) js) r,
     target ++ (entry_of <$> js), []).
Proof.
  revert r target. induction js as [|j js IH]; intros r target.
  { cbn. by rewrite app_nil_r. }
  rewrite !fmap_cons. cbn [load_lines List.filter].
  destruct (names_game_end (action j)) eqn:Hk; cbn [negb];
    rewrite IH, <- app_assoc; unfold entry_of at 2; rewrite Hk.
  - by rewrite fmap_cons, last_cons_default.
  - done.
Qed.

(** Reading stops at the first [OSError]: the synthetic record comes after
    the records read before it. *)
Lemma load_lines_oserror (name : string) (js : list JsonLine) (rest : list ReadEvent)
    (r : Z) (target : list Entry) :
  load_lines name ((Line <$> js) ++ OSError :: rest) r target
  = (List.last (tick_of <$> List.filter (fun j => names_game_end (action j)) js) r,
     target ++ (entry_of <$> js) ++ [synthetic_game_end],
     [corrupted_replay name]).
Proof.
  revert target r.
  induction js as [|j js IH]; intros target r; [done|].
  rewrite !fmap_cons. cbn [app load_lines List.filter].
  destruct (names_game_end (action j)) eqn:Hk; cbn [negb];
    rewrite IH, <- app_assoc; unfold entry_of at 2; rewrite Hk.
  - by rewrite fmap_cons, last_cons_default.
  - done.
Qed.

(** ** The two ways of a backward seek *)

Section Recall.

Context {V : Type}.
Implicit Types (d : SortedDict.t V) (k t : Z) (v : V).

Lemma bisect_none t d :
  dict_ok d -> (forall k, k ∈ SortedDict.keys d -> t < k) ->
  SortedDict.bisect t d = O.
Proof.
  intros Hok Hall. destruct (SortedDict.bisect t d) as [|i] eqn:Hb; [done|].
  destruct (bisect_succ t d i Hok Hb) as (d1 & k & v & d2 & -> & _ & Hk & _).
  specialize (Hall k). unfold SortedDict.keys in Hall.
  rewrite fmap_app, fmap_cons in Hall. cbn in Hall.
  assert (t < k); [|lia]. apply Hall, elem_of_app. right. by left.
Qed.

Lemma bisect_greatest t k d :
  dict_ok d -> greatest_key_le t k d ->
  exists d1 v d2,
    d = d1 ++ (k, v) :: d2 /\ SortedDict.bisect t d = S (length d1)
    /\ SortedDict.getitem k d = Some v.
Proof.
  intros Hok (Hin & Hle & Hmax).
  destruct (SortedDict.bisect t d) as [|i] eqn:Hb.
  { pose proof (bisect_zero t d Hok Hb k Hin). lia. }
  destruct (bisect_succ t d i Hok Hb) as (d1 & k0 & v & d2 & -> & Hi & Hk0 & H2).
  pose proof Hok as (_ & H1 & _)%dict_ok_middle.
  assert (k = k0) as ->.
  { assert (k0 <= k) as Hk.
    { apply Hmax; [|done]. unfold SortedDict.keys.
      rewrite fmap_app, fmap_cons. apply elem_of_app. right. by left. }
    unfold SortedDict.keys in Hin. rewrite fmap_app, fmap_cons in Hin.
    apply elem_of_app in Hin as [Hin|[Hin|Hin]%elem_of_cons]; [|done|].
    - apply list_elem_of_fmap in Hin as (kv & -> & Hkv).
      eapply Forall_forall in H1; [|exact Hkv]. cbn in H1. lia.
    - apply list_elem_of_fmap in Hin as (kv & -> & Hkv).
      eapply Forall_forall in H2; [|exact Hkv]. cbn in H2. lia. }
  exists d1, v, d2. split; [done|]. split; [by rewrite Hi|].
  by apply getitem_middle.
Qed.

Lemma getitem_setitem k v k' d :
  SortedDict.getitem k' (SortedDict.setitem k v d)
  = if k =? k' then Some v else SortedDict.getitem k' d.
Proof.
  induction d as [|[k0 v0] d IH]; cbn; [done|].
  destruct (Z.ltb_spec k k0); [done|].
  destruct (Z.eqb_spec k k0) as [->|Hne]; cbn.
  - by destruct (Z.eqb_spec k0 k').
  - rewrite IH. destruct (Z.eqb_spec k0 k'), (Z.eqb_spec k k'); (done || lia).
Qed.

Lemma getitem_contains k v d :
  SortedDict.getitem k d = Some v -> SortedDict.contains k d = true.
Proof.
  intros H%getitem_Some. destruct (SortedDict.contains k d) eqn:Hc; [done|].
  apply contains_false in Hc. destruct Hc. unfold SortedDict.keys.
  by apply (list_elem_of_fmap_2 fst) in H.
Qed.

End Recall.

Section RecallEquations.

Variables (file : RepFile) (now : Q) (timestamp : Z).

Lemma retire_frame (m : RepManager.t) :
  RepManager.next_loc (RepManager.retire m) = RepManager.next_loc m
  /\ RepManager.heap (RepManager.retire m) = RepManager.heap m
  /\ RepManager._active_game (RepManager.retire m) = RepManager._active_game m.
Proof. unfold RepManager.retire. by destruct (SortedDict.contains _ _). Qed.

Lemma recall_fresh_eq (m : RepManager.t) :
  RepManager._rep_file m = file ->
  SortedDict.bisect timestamp (RepManager._games m) = O ->
  RepManager.recall now timestamp m =
  let m1 := RepManager.logged (_load_queue file []).2
              (RepManager.store_active (reloaded file)
                 (RepManager.new_active_game m)) in
  if negb (timestamp =? 0) then Done (RepManager.active_set_round now timestamp m1)
  else RepManager.active_run_first m1.
Proof.
  intros Hf Hb. unfold RepManager.recall. rewrite Hb.
  rewrite (active_load_queue_fresh file);
    [done|done|unfold RepManager.active; cbn; by rewrite fn_lookup_insert].
Qed.

Lemma recall_checkpoint_eq (m : RepManager.t) d1 k l d2 :
  RepManager._games m = d1 ++ (k, l) :: d2 ->
  dict_ok (RepManager._games m) ->
  SortedDict.bisect timestamp (RepManager._games m) = S (length d1) ->
  RepManager.recall now timestamp m =
  let m1 := RepManager.with_games (d1 ++ d2) (RepManager.with_active_game l m) in
  Done (if timestamp >? lastTick (RepManager.active m1)
        then RepManager.active_set_round now timestamp m1 else m1).
Proof.
  intros Hd Hok Hb. unfold RepManager.recall. rewrite Hb, Hd, iloc_middle.
  rewrite Hd in Hok. apply dict_ok_middle in Hok as (_ & H1 & _).
  rewrite (getitem_middle d1 d2 k l H1).
  cbn [RepManager._games RepManager.with_active_game].
  rewrite Hd, del_iloc_middle. cbn zeta. by destruct (_ >? _).
Qed.

End RecallEquations.

(** * Main theorems *)

(** ** Player-level seek *)

(** C8. [RepGame.set_round(targetTick)] with [targetTick <= lastTick] is a
    no-op: the call gives back the player as it was, with its tick, its
    clock, its lookahead buffer, its pending queue and its logic engine
    unchanged, and writes nothing to the log. *)
Theorem C8_set_round_back_is_noop (now : Q) (self : RepGame.t) (timestamp : Z) :
  timestamp <= lastTick self ->
  RepGame.set_round now self timestamp = (self, []).
Proof. apply set_round_noop. Qed.

Lemma C8_set_round_back_is_noop_witness :
  3 <= lastTick (RepGame.set_round 0 (RepGame.with_queue scenario_queue RepGame.__init__) 8).1
  /\ RepGame.set_round 0
       (RepGame.set_round 0 (RepGame.with_queue scenario_queue RepGame.__init__) 8).1 3
     = ((RepGame.set_round 0 (RepGame.with_queue scenario_queue RepGame.__init__) 8).1, []).
Proof.
  split; [vm_compute; discriminate|].
  apply (C8_set_round_back_is_noop 0
           (RepGame.set_round 0 (RepGame.with_queue scenario_queue RepGame.__init__) 8).1 3).
  vm_compute. discriminate.
Defined.

(** C7. The player invariant, kept by [set_round] and by any run of
    [mainloop] whatever the clock shows and whatever signals come in:
    [_last_action_timestamp] does not decrease, the engine receives calls
    only at the end of those it had, and the [nextTick()] calls among the
    new ones are exactly as many as the ticks gained: one call for each
    unit of increase, none skipped, none doubled. *)
Theorem C7_one_tick_per_increment :
  (forall (now : Q) (self : RepGame.t) (timestamp : Z),
      let self' := (RepGame.set_round now self timestamp).1 in
      lastTick self <= lastTick self'
      /\ exists ext, RepGame._logic self' = RepGame._logic self ++ ext
                     /\ ticks ext = lastTick self' - lastTick self)
  /\ (forall (fuel : nat) (env : nat -> RepGame.Env) (self : RepGame.t),
         let self' := step_state (RepGame.mainloop fuel env self) in
         lastTick self <= lastTick self'
         /\ exists ext, RepGame._logic self' = RepGame._logic self ++ ext
                        /\ ticks ext = lastTick self' - lastTick self).
Proof.
  split.
  - intros now self timestamp. apply set_round_advances.
  - intros fuel env self. apply mainloop_advances.
Qed.

(** C3. Player-level seek never applies the terminal [game_end] action:
    the calls it adds to the engine are ticks and actions that are not
    [game_end]; and when it ends with a terminal entry queued before the
    target in its buffer, the replay loop has stopped on that entry, with
    no error logged, and the elapsed time of the clock is the real time of
    the entry's tick.  On the queue [(0, init), (5, instrA), (12, instrB),
    (20, gameEnd)] a seek to 20 of a fresh player applies init, instrA and
    instrB in this order and nothing else, ends at tick 20 after 20 ticks of
    the engine, and leaves [gameEnd] in the buffer. *)
Theorem C3_game_end_never_applied (now : Q) (self : RepGame.t) (timestamp : Z) :
  let self' := (RepGame.set_round now self timestamp).1 in
  (exists ext, RepGame._logic self' = RepGame._logic self ++ ext
               /\ Forall (fun e => is_game_end e.2 = false) (applied ext))
  /\ (forall t a,
         lastTick self < timestamp ->
         RepGame._action_buffer self' = Some (t, a) ->
         is_game_end a = true -> t < timestamp ->
         Timer.elapsed (RepGame._timer self') = RepGame.__real_time t
         /\ (RepGame.set_round now self timestamp).2 = [])
  /\ (let fresh := RepGame.with_queue scenario_queue RepGame.__init__ in
      let r := (RepGame.set_round now fresh 20).1 in
      applied (RepGame._logic r)
      = [(0, instr "init"); (5, instr "instrA"); (12, instr "instrB")]
      /\ lastTick r = 20 /\ ticks (RepGame._logic r) = 20
      /\ RepGame._action_buffer r = Some (20, mkAction "gameEnd" "game_end" None)
      /\ RepGame.queue r = []).
Proof.
  cbn zeta. split; [|split].
  - destruct (Z.le_gt_cases timestamp (lastTick self)) as [H|H].
    { rewrite set_round_noop by done. exists []. by rewrite app_nil_r. }
    destruct (RepGame.set_round now self timestamp) as [g log] eqn:E.
    apply set_round_spec in E as (_ & _ & _ & ext & [Hc _] & Hok); [|lia].
    exists ext. split; [done|]. clear Hc.
    induction Hok as [|[|t a] ext Hc Hok IH]; cbn; [done|done|].
    constructor; [|done]. apply Hc.
  - intros t a Hlt Hbuf Hend Ht.
    rewrite set_round_forward in Hbuf |- * by done. cbn zeta in Hbuf |- *.
    destruct (RepGame.replay _ _ _) as [g log] eqn:E.
    cbn [fst snd] in Hbuf |- *. rewrite advance_eq in Hbuf |- *.
    cbn in Hbuf |- *. eapply replay_game_end in E; [exact E|lia|done..].
  - vm_compute. done.
Qed.

Lemma C3_game_end_never_applied_witness :
  let fresh :=
    RepGame.with_queue [(0, instr "init"); (7, mkAction "gameEnd" "game_end" None);
                        (9, instr "late")] RepGame.__init__ in
  Timer.elapsed (RepGame._timer (RepGame.set_round 0 fresh 10).1) = RepGame.__real_time 7
  /\ (RepGame.set_round 0 fresh 10).2 = []
  /\ applied (RepGame._logic (RepGame.set_round 0 fresh 10).1) = [(0, instr "init")].
Proof.
  cbn zeta.
  pose proof (C3_game_end_never_applied 0
    (RepGame.with_queue [(0, instr "init"); (7, mkAction "gameEnd" "game_end" None);
                         (9, instr "late")] RepGame.__init__) 10) as (_ & H & _).
  destruct (H 7 (mkAction "gameEnd" "game_end" None)) as [H1 H2];
    [vm_compute; reflexivity..|].
  split; [exact H1|]. split; [exact H2|]. vm_compute. reflexivity.
Defined.

(** C4, as the code has it.  When the pending queue runs out before the
    target of a player-level seek (every pending entry is a regular action
    queued before the target, and there is at least one), the seek applies
    them all in order, writes the one error record "Unexpected ending of
    replay file." and leaves the replay loop without raising, the last
    entry still in the buffer and the queue empty; the final tick loop then
    brings [_last_action_timestamp] up to the target all the same. *)
Theorem C4_premature_end (now : Q) (self : RepGame.t) (timestamp : Z)
    (b : Entry) (rest : list Entry) :
  lastTick self < timestamp ->
  pending self = b :: rest ->
  Forall (fun e => e.1 < timestamp /\ is_game_end e.2 = false) (b :: rest) ->
  exists self',
    RepGame.set_round now self timestamp = (self', [unexpected_ending])
    /\ lastTick self' = timestamp
    /\ applied (RepGame._logic self') = applied (RepGame._logic self) ++ b :: rest
    /\ RepGame.queue self' = []
    /\ RepGame._action_buffer self' = Some (List.last rest b).
Proof.
  intros Hlt Hp Hall. rewrite set_round_forward by done. cbn zeta.
  destruct (seek_start_buffer now timestamp self b rest Hp) as [Hb Hq].
  destruct (seek_start_facts now timestamp self) as (Hl & Hc & _).
  destruct (replay_exhausted timestamp (seek_start now timestamp self) b Hb)
    as (g & E & Happ & Hq' & Hb'); [by rewrite Hq|].
  rewrite E. cbn [fst snd]. eexists. split; [done|]. rewrite advance_eq. cbn.
  apply replay_spec in E as (Hg & _); [|lia].
  split; [lia|]. split; [|by rewrite Hq', Hb', Hq].
  by rewrite applied_app, applied_replicate, app_nil_r, Happ, Hc, Hq.
Qed.

Lemma C4_premature_end_witness :
  let fresh := RepGame.with_queue [(0, instr "init"); (5, instr "instrA")] RepGame.__init__ in
  exists self',
    RepGame.set_round 0 fresh 10 = (self', [unexpected_ending])
    /\ lastTick self' = 10
    /\ applied (RepGame._logic self') = [(0, instr "init"); (5, instr "instrA")]
    /\ RepGame.queue self' = []
    /\ RepGame._action_buffer self' = Some (5, instr "instrA").
Proof.
  cbn zeta.
  apply (C4_premature_end 0
           (RepGame.with_queue [(0, instr "init"); (5, instr "instrA")] RepGame.__init__)
           10 (0, instr "init") [(5, instr "instrA")]).
  - vm_compute. reflexivity.
  - reflexivity.
  - repeat constructor; vm_compute; reflexivity.
Defined.

(** The queue [(5, a)] runs out before tick 10: the error is logged, and
    the player is at tick 10, not short of it. *)
Lemma C4_counterexample :
  let fresh := RepGame.with_queue [(5, instr "a")] RepGame.__init__ in
  (RepGame.set_round 0 fresh 10).2 = [unexpected_ending]
  /\ RepGame.queue (RepGame.set_round 0 fresh 10).1 = []
  /\ ~ lastTick (RepGame.set_round 0 fresh 10).1 < 10.
Proof. vm_compute. repeat split. discriminate. Qed.

(** The error record is written only when the queue has run out. *)
Lemma error_only_when_exhausted (now : Q) (self : RepGame.t) (timestamp : Z) :
  (RepGame.set_round now self timestamp).2 <> [] ->
  (RepGame.set_round now self timestamp).2 = [unexpected_ending]
  /\ RepGame.queue (RepGame.set_round now self timestamp).1 = []
  /\ lastTick (RepGame.set_round now self timestamp).1 = timestamp.
Proof.
  destruct (Z.le_gt_cases timestamp (lastTick self)) as [H|H].
  { by rewrite set_round_noop. }
  pose proof (set_round_last now timestamp self) as Hl.
  rewrite set_round_forward in Hl |- * by lia. cbn zeta in Hl |- *.
  destruct (RepGame.replay _ _ _) as [g log] eqn:E. cbn [fst snd] in Hl |- *.
  intros Hlog. apply replay_log in E as [->|(-> & Hq & _)]; [done|].
  rewrite advance_eq in Hl |- *. cbn in Hl |- *. repeat split; [done|lia].
Qed.

(** ** The loader and the constructor *)

(** C9. [_load_queue] does not stop at a terminal record: on a source that
    reads to its end, every record is appended to the queue, in order,
    those after a [game_end] included; the count returned is the tick of
    the last [game_end] record, 0 when there is none; and a record without
    a [time] field is loaded at tick 0. *)
Theorem C9_load_queue_reads_every_record :
  (forall (name : string) (js : list JsonLine) (target : list Entry),
      _load_queue (clean_file name js) target
      = (total_ticks js, target ++ (entry_of <$> js), []))
  /\ (forall (name txt : string) (k : option string) (target : list Entry),
         (_load_queue
            (clean_file name [ {| text := txt; time := None; action := k |} ])
            target).1.2
         = target ++ [(0, mkAction txt (if names_game_end k then "game_end"
                                        else "instruction") None)]).
Proof.
  split.
  - intros name js target. apply load_lines_clean.
  - intros name txt k target. unfold _load_queue, clean_file. cbn.
    by destruct (names_game_end k).
Qed.

(** Records after a [game_end] are loaded, and the last [game_end] gives
    the count. *)
Example load_queue_past_game_end :
  _load_queue
    (clean_file "two_ends.rpy"
       [ {| text := "a"; time := Some 3; action := Some "game_end"%string |};
         {| text := "b"; time := None; action := Some "move"%string |};
         {| text := "c"; time := Some 9; action := Some "game_end"%string |};
         {| text := "d"; time := Some 11; action := None |} ]) []
  = (9, [(3, mkAction "a" "game_end" None); (0, mkAction "b" "instruction" None);
         (9, mkAction "c" "game_end" None); (11, mkAction "d" "instruction" None)], []).
Proof. reflexivity. Qed.

(** C5, as the code has it.  For a replay source that cannot be read at
    all (reading raises [OSError] before any record), loading logs the
    error "Corrupted replay file" and puts the one synthetic [game_end]
    record at tick 0 in the queue; the tick count is 0; the constructor
    returns, and the playback loop of the session, whatever its clock
    shows, returns on its first pass with the session finished, at tick
    0. *)
Theorem C5_unreadable_source (name : string) (rest : list ReadEvent)
    (verbose start_paused : bool) :
  let file := {| file_name := name; events := OSError :: rest |} in
  _load_queue file [] = (0, [synthetic_game_end], [corrupted_replay name])
  /\ exists m,
       RepManager.__init__ file verbose start_paused = Done m
       /\ RepManager._rounds m = 0
       /\ RepManager.root_logger m = [corrupted_replay name]
       /\ pending (RepManager.active m) = []
       /\ forall (fuel : nat) (env : nat -> RepGame.Env) (tm : Timer.t),
            exists g,
              RepGame.mainloop (S fuel) env (RepGame.with_timer tm (RepManager.active m))
              = RepGame.Return RepGame.Finished g []
              /\ lastTick g = 0
              /\ Timer.running (RepGame._timer g) = false.
Proof.
  cbn zeta. split; [done|]. eexists. split; [reflexivity|]. cbn.
  repeat split. intros fuel env tm. eexists. split; [reflexivity|].
  split; [done|]. by destruct tm as [[] ? ?].
Qed.

(** A source whose first line is not JSON: nothing is logged, no record is
    substituted, the queue stays empty, and the constructor raises. *)
Lemma C5_counterexample :
  let file := {| file_name := "bad.rpy"; events := [BadLine "{"] |} in
  malformed_or_unreadable file
  /\ _load_queue file [] = (0, [], [])
  /\ _load_queue file [] <> (0, [synthetic_game_end], [corrupted_replay "bad.rpy"])
  /\ RepManager.__init__ file false false = Raises IndexError.
Proof.
  cbn zeta. split; [|split; [done|split; [done|done]]].
  exists (BadLine "{"). split; [by left|done].
Qed.

(** When the stream fails after some records, the synthetic record comes
    after them and the count is that of the records read. *)
Lemma load_queue_corrupt_stream (name : string) (js : list JsonLine)
    (rest : list ReadEvent) :
  _load_queue {| file_name := name; events := (Line <$> js) ++ OSError :: rest |} []
  = (total_ticks js, (entry_of <$> js) ++ [synthetic_game_end], [corrupted_replay name]).
Proof. apply load_lines_oserror. Qed.

(** C10. The constructor of the manager takes the first record off the
    queue it has just loaded and applies it to the engine at once: the
    active player of the new manager is at tick 0, with that one call made
    to its engine, the rest of the file in its queue and nothing in its
    buffer; on an empty queue the constructor raises.  For a source that
    cannot be read, the record so applied is the synthetic [game_end], and
    the queue of the active player is left empty. *)
Theorem C10_constructor_applies_first_record (file : RepFile)
    (verbose start_paused : bool) :
  match (_load_queue file []).1.2 with
  | e :: q =>
      exists m,
        RepManager.__init__ file verbose start_paused = Done m
        /\ RepManager.active m = RepGame.run e (RepGame.with_queue q RepGame.__init__)
        /\ RepGame._logic (RepManager.active m) = [Run e.1 e.2]
        /\ lastTick (RepManager.active m) = 0
        /\ RepGame.queue (RepManager.active m) = q
        /\ RepGame._action_buffer (RepManager.active m) = None
  | [] => RepManager.__init__ file verbose start_paused = Raises IndexError
  end
  /\ (forall (name : string) (rest : list ReadEvent),
         exists m,
           RepManager.__init__ {| file_name := name; events := OSError :: rest |}
                               verbose start_paused = Done m
           /\ RepGame._logic (RepManager.active m)
              = [Run 0 (mkAction synthetic_json "game_end" None)]
           /\ RepGame.queue (RepManager.active m) = []).
Proof.
  split.
  - destruct (RepManager.__init__ file verbose start_paused) as [m| |] eqn:E.
    + apply init_ok in E as (_ & _ & _ & e & q & -> & Ha).
      exists m. rewrite Ha. by repeat split.
    + revert E. unfold RepManager.__init__.
      rewrite (active_load_queue_fresh file); [|done..]. cbv beta iota zeta.
      unfold RepManager.active_run_first.
      set (m0 := RepManager.with_rounds _ _).
      assert (RepManager.active m0 = reloaded file) as ->
        by (unfold RepManager.active; cbn; by rewrite fn_lookup_insert).
      cbn [RepGame.queue reloaded RepGame.with_queue].
      destruct ((_load_queue file []).1.2); [by intros [= <-]|done].
    + revert E. unfold RepManager.__init__.
      rewrite (active_load_queue_fresh file); [|done..]. cbv beta iota zeta.
      unfold RepManager.active_run_first. by destruct (RepGame.queue _).
  - intros name rest. eexists. split; [reflexivity|]. done.
Qed.

(** ** Manager-level seek *)

(** The manager any sequence of seeks leads to is sound, and its file has
    given a queue that is not empty. *)
Lemma seek_lands (file : RepFile) (verbose start_paused : bool)
    (targets : list (Q * Z)) (m0 m : RepManager.t) :
  RepManager.__init__ file verbose start_paused = Done m0 ->
  RepManager.seeks targets m0 = Done m ->
  manager_ok file m
  /\ RepManager._rounds m = (_load_queue file []).1.1
  /\ (_load_queue file []).1.2 <> [].
Proof.
  intros H0 Hs. apply init_ok in H0 as (Hm0 & Hr0 & _ & e & q & Hq & _).
  destruct (seeks_ok file targets m0 m Hm0 Hs) as [Hm Hr].
  split; [done|]. split; [congruence|]. by rewrite Hq.
Qed.

(** C1, as the code has it.  After any sequence of manager-level seeks, a
    seek to a tick [T] with [0 <= T <= totalTicks] that goes forward, or
    that finds the active player with entries pending, returns with the
    active player at [_last_action_timestamp = min(T, totalTicks)], and
    every action applied to the engine of that player was queued at a tick
    not after it, the first record of the replay file apart: the
    constructor and a restart at tick 0 apply that one whatever its tick. *)
Theorem C1_seek_reaches_target (file : RepFile) (verbose start_paused : bool)
    (targets : list (Q * Z)) (m0 m : RepManager.t) (now : Q) (timestamp : Z) :
  RepManager.__init__ file verbose start_paused = Done m0 ->
  RepManager.seeks targets m0 = Done m ->
  0 <= timestamp -> timestamp <= RepManager._rounds m ->
  lastTick (RepManager.active m) < timestamp \/ pending (RepManager.active m) <> [] ->
  exists m',
    RepManager.set_round now m timestamp = Done m'
    /\ lastTick (RepManager.active m') = Z.min timestamp (RepManager._rounds m)
    /\ forall t a, Run t a ∈ RepGame._logic (RepManager.active m') ->
                   t <= lastTick (RepManager.active m') \/ first_entry file = Some (t, a).
Proof.
  intros H0 Hs Hpos Hle Hcase.
  destruct (seek_lands file verbose start_paused targets m0 m H0 Hs) as (Hm & _ & Hq).
  destruct (set_round_returns file now timestamp m Hm Hq Hcase) as [m' Hm'].
  destruct (set_round_ok file now timestamp m m' Hm Hm') as (Hok & Hl & _).
  exists m'. split; [done|]. split; [lia|]. apply Hok.
Qed.

Lemma C1_seek_reaches_target_witness :
  exists m',
    RepManager.set_round 0 scenario_at_8 3 = Done m'
    /\ lastTick (RepManager.active m') = Z.min 3 (RepManager._rounds scenario_at_8)
    /\ forall t a, Run t a ∈ RepGame._logic (RepManager.active m') ->
                   t <= lastTick (RepManager.active m')
                   \/ first_entry scenario_file = Some (t, a).
Proof.
  apply (C1_seek_reaches_target scenario_file false false [(0%Q, 8)]
           scenario_start scenario_at_8 0 3).
  - vm_compute. reflexivity.
  - vm_compute. reflexivity.
  - lia.
  - vm_compute. discriminate.
  - right. vm_compute. discriminate.
Defined.

(** A seek to tick -1 ends at tick 0; and on a replay whose first record is
    at tick 5, the session seeked to tick 3 has that record applied. *)
Lemma C1_counterexample :
  RepManager.__init__ scenario_file false false = Done scenario_start
  /\ returns (RepManager.set_round 0 scenario_start (-1))
       (fun m' => -1 <= RepManager._rounds scenario_start
                  /\ lastTick (RepManager.active m')
                     <> Z.min (-1) (RepManager._rounds scenario_start))
  /\ returns (do m0 <- RepManager.__init__ late_start_file false false;
              RepManager.set_round 0 m0 3)
       (fun m' => 3 <= RepManager._rounds m'
                  /\ lastTick (RepManager.active m') = 3
                  /\ applied (RepGame._logic (RepManager.active m')) = [(5, instr "first")]).
Proof.
  split; [vm_compute; reflexivity|]. split; vm_compute; repeat split; discriminate.
Qed.

(** For any target, a seek that returns ends on [max(T, 0)]. *)
Lemma seek_ends_on_target (file : RepFile) (verbose start_paused : bool)
    (targets : list (Q * Z)) (m0 m m' : RepManager.t) (now : Q) (timestamp : Z) :
  RepManager.__init__ file verbose start_paused = Done m0 ->
  RepManager.seeks targets m0 = Done m ->
  RepManager.set_round now m timestamp = Done m' ->
  lastTick (RepManager.active m') = Z.max timestamp 0.
Proof.
  intros H0 Hs Hm'.
  destruct (seek_lands file verbose start_paused targets m0 m H0 Hs) as (Hm & _).
  apply (set_round_ok file now timestamp m m' Hm Hm').
Qed.

(** C6. The checkpoint store after any sequence of seeks: no player object
    is stored twice, the active player is not stored, and every
    checkpoint is filed under the tick of its player.  When a seek retires
    the active player, every entry the store had is still there under its
    key: the player goes in only when its tick is not a key yet, and is
    dropped otherwise; no object is stored twice afterwards either. *)
Theorem C6_checkpoint_store (file : RepFile) (verbose start_paused : bool)
    (targets : list (Q * Z)) (m0 m : RepManager.t) :
  RepManager.__init__ file verbose start_paused = Done m0 ->
  RepManager.seeks targets m0 = Done m ->
  NoDup (SortedDict.values (RepManager._games m))
  /\ (RepManager._active_game m ∉ SortedDict.values (RepManager._games m))
  /\ (forall k l, (k, l) ∈ RepManager._games m -> lastTick (RepManager.heap m l) = k)
  /\ forall now m1,
       quiesce now m = Done m1 ->
       let ts := lastTick (RepManager.active m1) in
       let games := RepManager._games m1 in
       let games' := RepManager._games (RepManager.retire m1) in
       (forall k l, SortedDict.getitem k games = Some l ->
                    SortedDict.getitem k games' = Some l)
       /\ (SortedDict.contains ts games = true -> games' = games)
       /\ (SortedDict.contains ts games = false ->
           SortedDict.getitem ts games' = Some (RepManager._active_game m1))
       /\ NoDup (SortedDict.values games').
Proof.
  intros H0 Hs.
  destruct (seek_lands file verbose start_paused targets m0 m H0 Hs) as (Hm & _).
  pose proof Hm as ((_ & (_ & Hnd & Hall) & Ha & _) & _).
  split; [done|]. split; [done|]. split; [intros k l Hkl; by apply (Hall (k, l))|].
  intros now m1 Hq. cbn zeta.
  destruct (quiesce_ok file now m m1 Hm Hq) as (Hm1 & _).
  destruct (retire_ok file m1 Hm1) as (_ & (_ & Hnd' & _) & _).
  split; [|split; [|split; [|done]]]; unfold RepManager.retire.
  - intros k l Hkl. destruct (SortedDict.contains _ _) eqn:Hc; [done|].
    cbn. rewrite getitem_setitem.
    destruct (Z.eqb_spec (lastTick (RepManager.active m1)) k) as [<-|]; [|done].
    apply getitem_contains in Hkl. congruence.
  - by intros ->.
  - intros ->. cbn. by rewrite getitem_setitem, Z.eqb_refl.
Qed.

Lemma C6_checkpoint_store_witness :
  NoDup (SortedDict.values (RepManager._games
           (the (RepManager.seeks [(0%Q, 3)] scenario_at_8))))
  /\ RepManager._games (the (RepManager.seeks [(0%Q, 3)] scenario_at_8)) = [(9, O)]
  /\ RepManager._active_game (the (RepManager.seeks [(0%Q, 3)] scenario_at_8)) = 1%nat.
Proof.
  split; [|split; vm_compute; reflexivity].
  apply (C6_checkpoint_store scenario_file false false [(0%Q, 8); (0%Q, 3)]
           scenario_start (the (RepManager.seeks [(0%Q, 3)] scenario_at_8))).
  - vm_compute. reflexivity.
  - vm_compute. reflexivity.
Defined.

(** C2. A manager-level seek to a tick at or before that of the active
    player, once that player has answered the rendezvous and has been
    retired, looks for the stored checkpoint with the greatest key that is
    at most the target.  When there is none, the active player becomes a
    new object with the queue loaded afresh from the replay file: it is
    seeked to the target when the target is above 0, and has only the
    first entry of its queue applied when the target is 0.  When there is
    one, that player is taken out of the store, the rest of which stays as
    it is, and becomes the active player; it is seeked to the target only
    if its tick is below it. *)
Theorem C2_backward_seek (file : RepFile) (verbose start_paused : bool)
    (targets : list (Q * Z)) (m0 : RepManager.t)
    (now : Q) (m m1 : RepManager.t) (timestamp : Z) :
  RepManager.__init__ file verbose start_paused = Done m0 ->
  RepManager.seeks targets m0 = Done m ->
  timestamp <= lastTick (RepManager.active m) ->
  quiesce now m = Done m1 ->
  let store := RepManager._games (RepManager.retire m1) in
  ((forall k, k ∈ SortedDict.keys store -> timestamp < k) ->
   (0 < timestamp ->
    exists m',
      RepManager.set_round now m timestamp = Done m'
      /\ RepManager._active_game m' = RepManager.next_loc m1
      /\ RepManager.active m' = (RepGame.set_round now (reloaded file) timestamp).1
      /\ RepManager._games m' = store)
   /\ (timestamp = 0 ->
       forall e q, (_load_queue file []).1.2 = e :: q ->
       exists m',
         RepManager.set_round now m timestamp = Done m'
         /\ RepManager._active_game m' = RepManager.next_loc m1
         /\ RepManager.active m' = RepGame.run e (RepGame.with_queue q RepGame.__init__)
         /\ RepManager._games m' = store))
  /\ (forall k,
         greatest_key_le timestamp k store ->
         exists l d1 d2 m',
           store = d1 ++ (k, l) :: d2
           /\ RepManager.set_round now m timestamp = Done m'
           /\ RepManager._active_game m' = l
           /\ RepManager._games m' = d1 ++ d2
           /\ (l ∉ SortedDict.values (RepManager._games m'))
           /\ RepManager.active m'
              = if lastTick (RepManager.heap m1 l) <? timestamp
                then (RepGame.set_round now (RepManager.heap m1 l) timestamp).1
                else RepManager.heap m1 l).
Proof.
  intros H0 Hseeks Hle Hq. cbn zeta.
  destruct (seek_lands file verbose start_paused targets m0 m H0 Hseeks) as (Hm & _).
  destruct (quiesce_ok file now m m1 Hm Hq) as (Hm1 & _).
  destruct (retire_ok file m1 Hm1) as (Hfile & Hs & _).
  destruct (retire_frame m1) as (Hnext & Hheap & _).
  pose proof Hs as (Hok & _).
  rewrite (set_round_backward_eq now timestamp m Hle), Hq. cbn [bind].
  split.
  - intros Hnone. pose proof (bisect_none timestamp _ Hok Hnone) as Hb.
    rewrite (recall_fresh_eq file now timestamp _ Hfile Hb). cbn zeta.
    set (mL := RepManager.logged _ _).
    assert (RepManager.active mL = reloaded file) as HaL by apply active_store_active.
    split.
    + intros Hpos. destruct (Z.eqb_spec timestamp 0); [lia|]. cbn [negb bind].
      destruct (active_set_round_ok file now timestamp mL) as (_ & (Hg & Hal & _) & Ha).
      { apply (manager_ok_store_active file (RepManager.new_active_game (RepManager.retire m1)));
          [|apply sound_reloaded].
        destruct (store_ok_alloc file _ _ _ RepGame.__init__ Hs) as [Hs1 Hfresh].
        split; [done|]. split; [exact Hs1|]. split; [exact Hfresh|]. cbn; lia. }
      eexists. split; [done|].
      change (RepManager._active_game (RepManager.active_set_round now timestamp mL)
              = RepManager.next_loc m1
              /\ RepManager.active (RepManager.active_set_round now timestamp mL)
                 = (RepGame.set_round now (reloaded file) timestamp).1
              /\ RepManager._games (RepManager.active_set_round now timestamp mL)
                 = RepManager._games (RepManager.retire m1)).
      rewrite Hal, Hg, Ha, HaL. by repeat split.
    + intros -> e q Hload. cbn [Z.eqb negb]. unfold RepManager.active_run_first.
      rewrite HaL. cbn [RepGame.queue reloaded RepGame.with_queue]. rewrite Hload.
      cbn [bind]. eexists. split; [done|]. split; [exact Hnext|]. split; [|done].
      change (RepManager.active
                (RepManager.store_active
                   (RepGame.run e (RepGame.with_queue q (reloaded file))) mL)
              = RepGame.run e (RepGame.with_queue q RepGame.__init__)).
      by rewrite active_store_active.
  - intros k Hk.
    destruct (bisect_greatest timestamp k _ Hok Hk) as (d1 & l & d2 & Hd & Hb & _).
    rewrite (recall_checkpoint_eq now timestamp _ d1 k l d2 Hd Hok Hb).
    cbn zeta. cbn [bind].
    rewrite Hd in Hs. destruct (store_ok_delete file d1 d2 _ _ k l Hs)
      as (Hs' & Hl & Hlast & Hsound & Hnext').
    set (mC := RepManager.with_games _ _).
    assert (RepManager.active mC = RepManager.heap m1 l) as HaC
      by (unfold RepManager.active; cbn; by rewrite Hheap).
    exists l, d1, d2. eexists. split; [done|]. split; [done|].
    rewrite HaC. rewrite Z.gtb_ltb.
    destruct (Z.ltb_spec (lastTick (RepManager.heap m1 l)) timestamp) as [Hlt|Hge].
    + destruct (active_set_round_ok file now timestamp mC) as (_ & (Hg & Hal & _) & Ha).
      { split; [|by rewrite HaC, <- Hheap].
        split; [done|]. split; [exact Hs'|]. split; [exact Hl|exact Hnext']. }
      split; [exact Hal|]. split; [exact Hg|]. split; [|by rewrite <- HaC].
      change (l ∉ SortedDict.values
                    (RepManager._games (RepManager.active_set_round now timestamp mC))).
      by rewrite Hg.
    + by repeat split.
Qed.

Lemma C2_backward_seek_witness :
  let m := the (RepManager.seeks [(0%Q, 3); (0%Q, 15)] scenario_at_8) in
  let m1 := the (quiesce 0 m) in
  exists l d1 d2 m',
    RepManager._games (RepManager.retire m1) = d1 ++ (9, l) :: d2
    /\ RepManager.set_round 0 m 10 = Done m'
    /\ RepManager._active_game m' = l
    /\ RepManager._games m' = d1 ++ d2
    /\ (l ∉ SortedDict.values (RepManager._games m'))
    /\ RepManager.active m'
       = if lastTick (RepManager.heap m1 l) <? 10
         then (RepGame.set_round 0 (RepManager.heap m1 l) 10).1
         else RepManager.heap m1 l.
Proof.
  cbn zeta.
  refine (proj2 (C2_backward_seek scenario_file false false
                   [(0%Q, 8); (0%Q, 3); (0%Q, 15)] scenario_start 0
                   (the (RepManager.seeks [(0%Q, 3); (0%Q, 15)] scenario_at_8))
                   (the (quiesce 0 (the (RepManager.seeks [(0%Q, 3); (0%Q, 15)] scenario_at_8))))
                   10 _ _ _ _) 9 _).
  - vm_compute. reflexivity.
  - vm_compute. reflexivity.
  - vm_compute. discriminate.
  - vm_compute. reflexivity.
  - split; [vm_compute; by left|]. split; [lia|].
    intros k' Hk'. vm_compute in Hk'.
    apply elem_of_cons in Hk' as [->|Hk']; [lia|].
    apply elem_of_cons in Hk' as [->|Hk']; [lia|]. by inversion Hk'.
Defined.

(** ** The scenarios of the spec *)

Example scenario_file_loads : _load_queue scenario_file [] = (20, scenario_queue, []).
Proof. reflexivity. Qed.

(** A seek to 20 of the new session: init was applied by the constructor,
    instrA and instrB by the seek; [gameEnd] waits in the buffer. *)
Example scenario_seek_20 :
  returns (RepManager.set_round 0 scenario_start 20)
    (fun m => applied (RepGame._logic (RepManager.active m))
              = [(0, instr "init"); (5, instr "instrA"); (12, instr "instrB")]
              /\ lastTick (RepManager.active m) = 20
              /\ RepGame._action_buffer (RepManager.active m)
                 = Some (20, mkAction "gameEnd" "game_end" None)
              /\ RepManager._rounds m = 20).
Proof. vm_compute. by repeat split. Qed.

(** A seek to 8, then to 3: the player at tick 8 answers the rendezvous,
    which takes it to tick 9, and is stored there; a new player is built
    and seeked to 3, with only init applied. *)
Example scenario_seek_8_then_3 :
  returns (RepManager.seeks [(0%Q, 8); (0%Q, 3)] scenario_start)
    (fun m => applied (RepGame._logic (RepManager.active m)) = [(0, instr "init")]
              /\ lastTick (RepManager.active m) = 3
              /\ RepManager._games m = [(9, O)]
              /\ RepManager._active_game m = 1%nat).
Proof. vm_compute. by repeat split. Qed.

(** * Further properties *)

(** ** Player-level seek: what becomes of the queue *)

Section ReplayQueue.

Variable timestamp : Z.

Lemma replay_conserves (fuel : nat) (self self' : RepGame.t) (log : list LogRecord) :
  RepGame.replay fuel timestamp self = (self', log) ->
  exists ext,
    RepGame._logic self' = RepGame._logic self ++ ext
    /\ lastTick self' = lastTick self + ticks ext
    /\ (log = [] /\ applied ext ++ pending self' = pending self
        \/ exists b, log = [unexpected_ending]
                     /\ RepGame._action_buffer self = Some b
                     /\ applied ext = pending self
                     /\ pending self' = [List.last (RepGame.queue self) b]).
Proof.
  revert self. induction fuel as [|fuel IH]; intros self Hrun;
    cbn [RepGame.replay] in Hrun.
  { simplify_eq. exists []. rewrite app_nil_r. cbn. split; [done|]. split; [lia|by left]. }
  destruct (RepGame._action_buffer self) as [[t a]|] eqn:Hbuf; cycle 1.
  { simplify_eq. exists []. rewrite app_nil_r. cbn. split; [done|]. split; [lia|by left]. }
  destruct (Z.ltb_spec t timestamp) as [Ht|Ht]; cycle 1.
  { simplify_eq. exists []. rewrite app_nil_r. cbn. split; [done|]. split; [lia|by left]. }
  rewrite advance_eq in Hrun. cbn in Hrun.
  destruct (is_game_end a) eqn:Hend.
  { simplify_eq. eexists. cbn. split; [done|]. rewrite ticks_replicate.
    split; [lia|]. left. split; [done|].
    unfold pending. cbn. by rewrite applied_replicate, Hbuf. }
  destruct (RepGame.queue self) as [|e q] eqn:Hq.
  { simplify_eq.
    exists (replicate (Z.to_nat (t - lastTick self)) NextTick ++ [Run t a]).
    cbn. split; [by rewrite app_assoc|].
    rewrite ticks_app, ticks_replicate. cbn. split; [lia|]. right. exists (t, a).
    unfold pending. cbn. rewrite Hbuf, Hq, applied_app, applied_replicate. done. }
  apply IH in Hrun as (ext & Hc & Hl & Hcase). cbn in Hc, Hl.
  exists (replicate (Z.to_nat (t - lastTick self)) NextTick ++ Run t a :: ext).
  split; [by rewrite Hc, <- !app_assoc|].
  rewrite ticks_app, ticks_replicate. cbn [ticks].
  split; [lia|].
  rewrite applied_app, applied_replicate. cbn [app applied].
  unfold pending at 2 4. rewrite Hbuf, Hq.
  destruct Hcase as [[-> Hp]|(b & -> & Hb & Ha & Hp)].
  - left. split; [done|]. cbn. f_equal. exact Hp.
  - right. exists (t, a). unfold pending in Ha, Hp. cbn in Hb, Ha, Hp. simplify_eq.
    split; [done|]. split; [done|].
    split; [unfold pending; by rewrite Hbuf, Hq, Ha|].
    by rewrite Hp, last_cons_default.
Qed.

(** With fuel for the whole queue, the loop that ends without error ends
    on an entry that is not due before the target or is terminal. *)
Lemma replay_head (fuel : nat) (self self' : RepGame.t) :
  RepGame.replay fuel timestamp self = (self', []) ->
  (length (RepGame.queue self) < fuel)%nat ->
  (RepGame._action_buffer self = None -> RepGame.queue self = []) ->
  head_ok timestamp (pending self').
Proof.
  revert self. induction fuel as [|fuel IH]; intros self Hrun Hfuel Hnone; [lia|].
  cbn [RepGame.replay] in Hrun.
  destruct (RepGame._action_buffer self) as [[t a]|] eqn:Hbuf; cycle 1.
  { simplify_eq. unfold pending. by rewrite Hbuf, Hnone. }
  destruct (Z.ltb_spec t timestamp) as [Ht|Ht]; cycle 1.
  { simplify_eq. unfold pending. rewrite Hbuf. cbn. by left. }
  rewrite advance_eq in Hrun. cbn in Hrun.
  destruct (is_game_end a) eqn:Hend.
  { simplify_eq. unfold pending. cbn. rewrite Hbuf. cbn. by right. }
  destruct (RepGame.queue self) as [|e q] eqn:Hq; [done|].
  apply IH in Hrun; [done|cbn in *; lia|done].
Qed.

(** The clock comes out of the loop as it went in, unless the loop stopped
    on a terminal entry. *)
Lemma replay_timer (fuel : nat) (self self' : RepGame.t) (log : list LogRecord) :
  RepGame.replay fuel timestamp self = (self', log) ->
  RepGame._timer self' = RepGame._timer self
  \/ exists t a, RepGame._action_buffer self' = Some (t, a) /\ t < timestamp
                 /\ is_game_end a = true
                 /\ RepGame._timer self'
                    = Timer.set_elapsed (RepGame.__real_time t) (RepGame._timer self).
Proof.
  revert self. induction fuel as [|fuel IH]; intros self Hrun;
    cbn [RepGame.replay] in Hrun; [simplify_eq; by left|].
  destruct (RepGame._action_buffer self) as [[t a]|] eqn:Hbuf; [|simplify_eq; by left].
  destruct (Z.ltb_spec t timestamp) as [Ht|Ht]; [|simplify_eq; by left].
  rewrite advance_eq in Hrun. cbn in Hrun.
  destruct (is_game_end a) eqn:Hend.
  { simplify_eq. right. exists t, a. cbn. by rewrite Hbuf. }
  destruct (RepGame.queue self) as [|e q] eqn:Hq; [simplify_eq; by left|].
  by apply IH in Hrun.
Qed.

End ReplayQueue.

Lemma call_ok_applied (T L : Z) (ext : list LogicCall) :
  Forall (call_ok T L) ext ->
  Forall (fun e => e.1 < T /\ e.1 <= L /\ is_game_end e.2 = false) (applied ext).
Proof.
  induction 1 as [|[|t a] ext Hc Hok IH]; cbn; [done|done|].
  constructor; [exact Hc|done].
Qed.

Lemma pending_advance (bound : Z) (self : RepGame.t) :
  pending (RepGame.advance bound self) = pending self.
Proof. by rewrite advance_eq. Qed.

(** X1. What a forward seek does to the queue.  A seek of a player to a
    tick after its own applies, in queue order, exactly the longest run of
    pending entries that are regular actions queued before the target: what
    it applied followed by what it left pending is what was pending, every
    entry applied is a regular action queued before the target, and the
    next pending entry, if any, is queued at or after the target or is the
    terminal one.  The one exception is the seek that uses up the queue:
    it logs the error, has applied every pending entry, and keeps the last
    one in the buffer. *)
Theorem X1_seek_applies_the_due_prefix (now : Q) (self : RepGame.t) (timestamp : Z) :
  lastTick self < timestamp ->
  exists ext,
    RepGame._logic (RepGame.set_round now self timestamp).1 = RepGame._logic self ++ ext
    /\ Forall (fun e => e.1 < timestamp /\ is_game_end e.2 = false) (applied ext)
    /\ ((RepGame.set_round now self timestamp).2 = []
        /\ applied ext ++ pending (RepGame.set_round now self timestamp).1 = pending self
        /\ head_ok timestamp (pending (RepGame.set_round now self timestamp).1)
        \/ (RepGame.set_round now self timestamp).2 = [unexpected_ending]
           /\ applied ext = pending self
           /\ exists b rest, pending self = b :: rest
                             /\ pending (RepGame.set_round now self timestamp).1
                                = [List.last rest b]).
Proof.
  intros Hlt.
  destruct (RepGame.set_round now self timestamp) as [g' log] eqn:Hset.
  pose proof Hset as Hspec.
  apply set_round_spec in Hspec as (_ & _ & _ & ext0 & [Hc0 _] & Hok0); [|done].
  rewrite set_round_forward in Hset by done. cbn zeta in Hset.
  destruct (seek_start_facts now timestamp self) as (Hl & Hc & _ & _ & Hp).
  destruct (RepGame.replay _ _ _) as [g log'] eqn:Hrep. cbn [fst snd] in Hset.
  simplify_eq. cbn [fst snd].
  pose proof (replay_conserves _ _ _ _ _ Hrep) as (ext & Hce & _ & Hcase).
  exists (ext ++ replicate (Z.to_nat (timestamp - lastTick g)) NextTick).
  assert (ext0 = ext ++ replicate (Z.to_nat (timestamp - lastTick g)) NextTick) as ->.
  { rewrite advance_eq in Hc0. cbn in Hc0. rewrite Hce, Hc, <- app_assoc in Hc0.
    by apply app_inv_head in Hc0. }
  split; [done|].
  split.
  { eapply List.Forall_impl; [|apply (call_ok_applied _ _ _ Hok0)]. cbn. tauto. }
  rewrite applied_app, applied_replicate, app_nil_r, pending_advance.
  destruct Hcase as [[-> Hpe]|(b & -> & Hb & Ha & Hpe)].
  - left. split; [done|]. split; [by rewrite Hpe|].
    eapply replay_head; [exact Hrep|lia|].
    unfold seek_start, RepGame.fill_buffer.
    destruct self as [tm l calls [|x q] s [b|]]; cbn; done.
  - right. split; [done|]. split; [by rewrite Ha, Hp|].
    exists b, (RepGame.queue (seek_start now timestamp self)).
    split; [|done]. rewrite <- Hp. unfold pending. by rewrite Hb.
Qed.

Lemma X1_seek_applies_the_due_prefix_witness :
  let fresh := RepGame.with_queue scenario_queue RepGame.__init__ in
  exists ext,
    RepGame._logic (RepGame.set_round 0 fresh 12).1 = RepGame._logic fresh ++ ext
    /\ Forall (fun e => e.1 < 12 /\ is_game_end e.2 = false) (applied ext)
    /\ ((RepGame.set_round 0 fresh 12).2 = []
        /\ applied ext ++ pending (RepGame.set_round 0 fresh 12).1 = pending fresh
        /\ head_ok 12 (pending (RepGame.set_round 0 fresh 12).1)
        \/ (RepGame.set_round 0 fresh 12).2 = [unexpected_ending]
           /\ applied ext = pending fresh
           /\ exists b rest, pending fresh = b :: rest
                             /\ pending (RepGame.set_round 0 fresh 12).1
                                = [List.last rest b]).
Proof.
  cbn zeta.
  apply (X1_seek_applies_the_due_prefix 0
           (RepGame.with_queue scenario_queue RepGame.__init__) 12).
  vm_compute. reflexivity.
Defined.

(** The seek that uses up the queue. *)
Lemma seek_past_the_queue (now : Q) (self : RepGame.t) (timestamp : Z)
    (b : Entry) (rest : list Entry) :
  lastTick self < timestamp ->
  pending self = b :: rest ->
  Forall (fun e => e.1 < timestamp /\ is_game_end e.2 = false) (b :: rest) ->
  exists self',
    RepGame.set_round now self timestamp = (self', [unexpected_ending])
    /\ lastTick self' = timestamp
    /\ applied (RepGame._logic self') = applied (RepGame._logic self) ++ b :: rest
    /\ pending self' = [List.last rest b].
Proof.
  intros Hlt Hp Hall. rewrite set_round_forward by done. cbn zeta.
  destruct (seek_start_buffer now timestamp self b rest Hp) as [Hb Hq].
  destruct (seek_start_facts now timestamp self) as (Hl & Hc & _).
  destruct (replay_exhausted timestamp (seek_start now timestamp self) b Hb)
    as (g & E & Happ & Hq' & Hb'); [by rewrite Hq|].
  rewrite E. cbn [fst snd]. eexists. split; [done|].
  rewrite pending_advance, advance_eq. cbn.
  apply replay_spec in E as (Hg & _); [|lia].
  split; [lia|]. split; [|unfold pending; by rewrite Hq', Hb', Hq].
  by rewrite applied_app, applied_replicate, app_nil_r, Happ, Hc, Hq.
Qed.

Lemma last_elem_of {A} (rest : list A) (b : A) : List.last rest b ∈ b :: rest.
Proof.
  revert b. induction rest as [|x rest IH]; intros b; [by left|].
  rewrite last_cons_default. right. apply IH.
Qed.

(** X2. Once a seek has used up the queue, the entry it applied last stays
    in the buffer, and the next forward seek applies it to the engine a
    second time and logs the error again. *)
Theorem X2_last_entry_applied_again (now now' : Q) (self : RepGame.t)
    (t1 t2 : Z) (b : Entry) (rest : list Entry) :
  lastTick self < t1 -> t1 < t2 ->
  pending self = b :: rest ->
  Forall (fun e => e.1 < t1 /\ is_game_end e.2 = false) (b :: rest) ->
  exists g1 g2,
    RepGame.set_round now self t1 = (g1, [unexpected_ending])
    /\ RepGame.set_round now' g1 t2 = (g2, [unexpected_ending])
    /\ lastTick g2 = t2
    /\ applied (RepGame._logic g2)
       = applied (RepGame._logic self) ++ (b :: rest) ++ [List.last rest b].
Proof.
  intros Hlt Ht Hp Hall.
  destruct (seek_past_the_queue now self t1 b rest Hlt Hp Hall)
    as (g1 & H1 & Hl1 & Ha1 & Hp1).
  destruct (seek_past_the_queue now' g1 t2 (List.last rest b) []) as (g2 & H2 & Hl2 & Ha2 & _);
    [lia|done| |].
  { constructor; [|done].
    pose proof (last_elem_of rest b) as Hin.
    eapply Forall_forall in Hall; [|exact Hin]. cbn in Hall |- *. split; [lia|tauto]. }
  exists g1, g2. split; [done|]. split; [done|]. split; [done|].
  by rewrite Ha2, Ha1, <- app_assoc.
Qed.

Lemma X2_last_entry_applied_again_witness :
  let fresh := RepGame.with_queue [(0, instr "init"); (5, instr "instrA")] RepGame.__init__ in
  exists g1 g2,
    RepGame.set_round 0 fresh 10 = (g1, [unexpected_ending])
    /\ RepGame.set_round 0 g1 15 = (g2, [unexpected_ending])
    /\ lastTick g2 = 15
    /\ applied (RepGame._logic g2)
       = applied (RepGame._logic fresh)
         ++ [(0, instr "init"); (5, instr "instrA")] ++ [(5, instr "instrA")].
Proof.
  cbn zeta.
  apply (X2_last_entry_applied_again 0 0
           (RepGame.with_queue [(0, instr "init"); (5, instr "instrA")] RepGame.__init__)
           10 15 (0, instr "init") [(5, instr "instrA")]).
  - vm_compute. reflexivity.
  - lia.
  - reflexivity.
  - repeat constructor; vm_compute; reflexivity.
Defined.

(** The clock after a forward seek. *)
Lemma forward_seek_clock (now : Q) (self : RepGame.t) (timestamp : Z) :
  lastTick self < timestamp ->
  let self' := (RepGame.set_round now self timestamp).1 in
  lastTick self' = timestamp
  /\ Timer.running (RepGame._timer self') = false
  /\ (Timer.elapsed (RepGame._timer self') = RepGame.__real_time timestamp
      \/ exists t a, RepGame._action_buffer self' = Some (t, a)
                     /\ is_game_end a = true /\ t < timestamp
                     /\ Timer.elapsed (RepGame._timer self') = RepGame.__real_time t).
Proof.
  intros Hlt. cbn zeta.
  pose proof (set_round_last now timestamp self) as Hl.
  destruct (RepGame.set_round now self timestamp) as [g' log] eqn:Hset.
  pose proof Hset as (_ & _ & Hrun & _)%set_round_spec; [|done].
  cbn [fst] in *. split; [lia|]. split; [done|].
  rewrite set_round_forward in Hset by done. cbn zeta in Hset.
  destruct (RepGame.replay _ _ _) as [g log'] eqn:Hrep. cbn [fst snd] in Hset.
  simplify_eq. rewrite advance_eq. cbn.
  destruct (replay_timer _ _ _ _ _ Hrep) as [->|(t & a & Hb & Ht & Ha & ->)].
  - left. unfold seek_start, RepGame.fill_buffer.
    destruct self as [tm l calls [|x q] s [b|]]; done.
  - right. by exists t, a.
Qed.

(** X3. A forward seek always ends on the target tick with the clock
    stopped, also when it met the terminal record before the target: the
    engine is then ticked past the end of the game, while the elapsed time
    of the clock is the real time of the terminal record's tick.  In every
    other case the elapsed time is the real time of the target. *)
Theorem X3_clock_after_forward_seek (now : Q) (self : RepGame.t) (timestamp : Z) :
  lastTick self < timestamp ->
  let self' := (RepGame.set_round now self timestamp).1 in
  lastTick self' = timestamp
  /\ Timer.running (RepGame._timer self') = false
  /\ (Timer.elapsed (RepGame._timer self') = RepGame.__real_time timestamp
      \/ exists t a, RepGame._action_buffer self' = Some (t, a)
                     /\ is_game_end a = true /\ t < timestamp
                     /\ Timer.elapsed (RepGame._timer self') = RepGame.__real_time t).
Proof. apply forward_seek_clock. Qed.

Lemma X3_clock_after_forward_seek_witness :
  let fresh := RepGame.with_queue scenario_queue RepGame.__init__ in
  lastTick (RepGame.set_round 0 fresh 25).1 = 25
  /\ Timer.running (RepGame._timer (RepGame.set_round 0 fresh 25).1) = false
  /\ Timer.elapsed (RepGame._timer (RepGame.set_round 0 fresh 25).1)
     = RepGame.__real_time 20.
Proof.
  cbn zeta.
  destruct (X3_clock_after_forward_seek 0
              (RepGame.with_queue scenario_queue RepGame.__init__) 25)
    as (H1 & H2 & _); [vm_compute; reflexivity|].
  split; [exact H1|]. split; [exact H2|]. vm_compute. reflexivity.
Defined.

(** ** Nothing is applied ahead of its tick *)

Lemma timely_app (l : Z) (e1 e2 : list LogicCall) :
  timely l (e1 ++ e2) <-> timely l e1 /\ timely (l + ticks e1) e2.
Proof.
  revert l. induction e1 as [|[|t a] e1 IH]; intros l; cbn [app timely ticks].
  - rewrite Z.add_0_r. tauto.
  - rewrite IH. by replace (l + 1 + ticks e1) with (l + (1 + ticks e1)) by lia.
  - rewrite IH. tauto.
Qed.

Lemma timely_ticks (l : Z) (n : nat) : timely l (replicate n NextTick).
Proof. revert l. induction n as [|n IH]; intros l; cbn; [done|apply IH]. Qed.

Lemma runs_timely_refl (g : RepGame.t) : runs_timely g g.
Proof. exists []. split; [by apply advances_by_nil|done]. Qed.

Lemma runs_timely_same (g g' : RepGame.t) :
  RepGame._logic g' = RepGame._logic g -> lastTick g' = lastTick g -> runs_timely g g'.
Proof. intros. exists []. split; [by apply advances_by_nil|done]. Qed.

Lemma runs_timely_trans (g1 g2 g3 : RepGame.t) :
  runs_timely g1 g2 -> runs_timely g2 g3 -> runs_timely g1 g3.
Proof.
  intros (e1 & H1 & T1) (e2 & H2 & T2). exists (e1 ++ e2).
  split; [eauto using advances_by_app|].
  apply timely_app. split; [done|].
  destruct H1 as [_ Ht]. by replace (lastTick g1 + ticks e1) with (lastTick g2) by lia.
Qed.

Lemma runs_timely_advance (bound : Z) (g : RepGame.t) :
  runs_timely g (RepGame.advance bound g).
Proof. eexists. split; [apply advances_by_advance|apply timely_ticks]. Qed.

Lemma runs_timely_tick (g : RepGame.t) : runs_timely g (RepGame.tick g).
Proof. exists [NextTick]. split; [split; cbn; [done|lia]|done]. Qed.

Lemma runs_timely_run (e : Entry) (g : RepGame.t) :
  e.1 <= lastTick g -> runs_timely g (RepGame.run e g).
Proof. intros H. eexists. split; [apply advances_by_run|]. cbn. done. Qed.

(** Catching up with an entry, then running it. *)
Lemma runs_timely_advance_run (t : Z) (a : Action) (g : RepGame.t) :
  runs_timely g (RepGame.run (t, a) (RepGame.advance t g)).
Proof.
  eapply runs_timely_trans; [apply runs_timely_advance|].
  apply runs_timely_run. rewrite advance_eq. cbn. lia.
Qed.

Lemma replay_timely (timestamp : Z) (fuel : nat) (g : RepGame.t) :
  runs_timely g (RepGame.replay fuel timestamp g).1.
Proof.
  revert g. induction fuel as [|fuel IH]; intros g; cbn [RepGame.replay];
    [apply runs_timely_refl|].
  destruct (RepGame._action_buffer g) as [[t a]|]; [|apply runs_timely_refl].
  destruct (t <? timestamp); [|apply runs_timely_refl].
  destruct (is_game_end a).
  { cbn [fst]. eapply runs_timely_trans; [apply (runs_timely_advance t)|].
    by apply runs_timely_same. }
  cbn zeta.
  destruct (RepGame.queue (RepGame.run (t, a) (RepGame.advance t g))) as [|e q];
    [apply runs_timely_advance_run|].
  eapply runs_timely_trans; [apply (runs_timely_advance_run t a)|].
  eapply runs_timely_trans; [|apply IH]. by apply runs_timely_same.
Qed.

Lemma set_round_timely (now : Q) (timestamp : Z) (g : RepGame.t) :
  runs_timely g (RepGame.set_round now g timestamp).1.
Proof.
  destruct (Z.le_gt_cases timestamp (lastTick g)) as [H|H].
  { rewrite set_round_noop by done. apply runs_timely_refl. }
  rewrite set_round_forward by lia. cbn zeta. cbn [fst].
  destruct (seek_start_facts now timestamp g) as (Hl & Hc & _).
  eapply runs_timely_trans; [by apply (runs_timely_same g (seek_start now timestamp g))|].
  eapply runs_timely_trans; [apply replay_timely|apply runs_timely_advance].
Qed.

Section MainloopTimely.

Variable e : RepGame.Env.

Lemma tick_while_due_timely (fuel i : nat) (bound : Z) (g : RepGame.t) :
  runs_timely g (RepGame.tick_while_due fuel e i bound g).
Proof.
  revert i g. induction fuel as [|fuel IH]; intros i g;
    cbn [RepGame.tick_while_due]; [apply runs_timely_refl|].
  destruct (_ && _); [|apply runs_timely_refl].
  eapply runs_timely_trans; [apply runs_timely_tick|apply IH].
Qed.

Lemma apply_action_timely (next_action : Entry) (g : RepGame.t) :
  runs_timely g (RepGame.apply_action next_action g).
Proof.
  unfold RepGame.apply_action.
  eapply runs_timely_trans; [apply runs_timely_advance|].
  apply runs_timely_run. rewrite advance_eq. cbn. lia.
Qed.

Lemma deliver_timely (next_action : Entry) (g : RepGame.t) :
  runs_timely g (step_state (RepGame.deliver e next_action g)).
Proof.
  unfold RepGame.deliver. repeat case_match; cbn [step_state].
  - eapply runs_timely_trans; [|apply apply_action_timely]. by apply runs_timely_same.
  - by apply runs_timely_same.
  - apply apply_action_timely.
Qed.

Lemma dispatch_timely (buf : Entry) (next_action : option Entry) (g : RepGame.t) :
  runs_timely g (step_state (RepGame.dispatch e buf next_action g)).
Proof.
  unfold RepGame.dispatch. repeat case_match; cbn [step_state].
  - apply deliver_timely.
  - eapply runs_timely_trans; [|apply deliver_timely]. by apply runs_timely_same.
  - apply tick_while_due_timely.
Qed.

Lemma poll_timely (buf : Entry) (g : RepGame.t) :
  runs_timely g (step_state (RepGame.poll e buf g)).
Proof.
  unfold RepGame.poll. cbn zeta.
  destruct (_ || _); [|apply dispatch_timely].
  destruct (RepGame.get e g) as [[q g']|] eqn:Hget; [|apply runs_timely_refl].
  apply get_same in Hget.
  assert (runs_timely g g') as Hs by (rewrite Hget; by apply runs_timely_same).
  destruct q as [[| |a|r]|].
  - pose proof (set_round_timely (RepGame.wall e 1) (lastTick g' + 1) g') as H.
    destruct (RepGame.set_round _ _ _) as [g1 log]. cbn [step_state fst] in *.
    eapply runs_timely_trans; [exact Hs|exact H].
  - cbn [step_state]. eapply runs_timely_trans; [exact Hs|]. by apply runs_timely_same.
  - eapply runs_timely_trans; [exact Hs|]. apply dispatch_timely.
  - pose proof (set_round_timely (RepGame.wall e 1) (lastTick g' + 1) g') as H.
    destruct (RepGame.set_round _ _ _) as [g1 log]. cbn [step_state fst] in *.
    eapply runs_timely_trans; [exact Hs|exact H].
  - eapply runs_timely_trans; [exact Hs|]. apply dispatch_timely.
Qed.

Lemma body_timely (g : RepGame.t) :
  runs_timely g (step_state (RepGame.body e g)).
Proof.
  unfold RepGame.body. repeat case_match; cbn [step_state].
  - apply poll_timely.
  - by apply runs_timely_same.
  - eapply runs_timely_trans; [|apply poll_timely]. by apply runs_timely_same.
Qed.

End MainloopTimely.

Lemma mainloop_timely (fuel : nat) (env : nat -> RepGame.Env) (g : RepGame.t) :
  runs_timely g (step_state (RepGame.mainloop fuel env g)).
Proof.
  revert env g. induction fuel as [|fuel IH]; intros env g;
    cbn [RepGame.mainloop]; [apply runs_timely_refl|].
  pose proof (body_timely (env O) g) as Hb.
  destruct (RepGame.body (env O) g) as [g1|x g1 log|g1]; cbn [step_state] in *;
    [|done..].
  eapply runs_timely_trans; [exact Hb|apply IH].
Qed.

(** X4. No operation of a player applies an action before the engine has
    been ticked up to the tick the action is queued for: in the calls that
    [set_round], or any run of [mainloop] under any clock and any signals,
    adds to the engine, every action comes after as many [nextTick()] calls
    as its tick asks for. *)
Theorem X4_nothing_applied_ahead_of_its_tick :
  (forall (now : Q) (self : RepGame.t) (timestamp : Z),
      exists ext,
        RepGame._logic (RepGame.set_round now self timestamp).1
        = RepGame._logic self ++ ext
        /\ timely (lastTick self) ext)
  /\ (forall (fuel : nat) (env : nat -> RepGame.Env) (self : RepGame.t),
         exists ext,
           RepGame._logic (step_state (RepGame.mainloop fuel env self))
           = RepGame._logic self ++ ext
           /\ timely (lastTick self) ext).
Proof.
  split.
  - intros now self timestamp.
    destruct (set_round_timely now timestamp self) as (ext & [Hc _] & Ht). by exists ext.
  - intros fuel env self.
    destruct (mainloop_timely fuel env self) as (ext & [Hc _] & Ht). by exists ext.
Qed.

(** ** A seek depends on the tick and the pending entries only *)

Section SeekOf.

Variable T : Z.

Lemma replay_of_cons (l t : Z) (a : Action) (rest : list Entry) :
  replay_of T l ((t, a) :: rest) =
  if t <? T then
    if is_game_end a
    then (replicate (Z.to_nat (t - l)) NextTick, Z.max t l, (t, a) :: rest, [])
    else
      match rest with
      | [] => (replicate (Z.to_nat (t - l)) NextTick ++ [Run t a], Z.max t l,
               [(t, a)], [unexpected_ending])
      | _ :: _ =>
          let '(ext, l2, p, log) := replay_of T (Z.max t l) rest in
          (replicate (Z.to_nat (t - l)) NextTick ++ Run t a :: ext, l2, p, log)
      end
  else ([], l, (t, a) :: rest, []).
Proof. by destruct rest. Qed.

Lemma replay_abs (fuel : nat) (g g' : RepGame.t) (log : list LogRecord) :
  (length (RepGame.queue g) < fuel)%nat ->
  (RepGame._action_buffer g = None -> RepGame.queue g = []) ->
  RepGame.replay fuel T g = (g', log) ->
  exists ext,
    replay_of T (lastTick g) (pending g) = (ext, lastTick g', pending g', log)
    /\ RepGame._logic g' = RepGame._logic g ++ ext.
Proof.
  revert g. induction fuel as [|fuel IH]; intros g Hfuel Hnone Hrun; [lia|].
  cbn [RepGame.replay] in Hrun. unfold pending at 1.
  destruct (RepGame._action_buffer g) as [[t a]|] eqn:Hbuf; cycle 1.
  { simplify_eq. exists []. rewrite app_nil_r. unfold pending.
    by rewrite Hbuf, Hnone. }
  rewrite replay_of_cons.
  destruct (Z.ltb_spec t T) as [Ht|Ht]; cycle 1.
  { simplify_eq. exists []. rewrite app_nil_r. unfold pending. by rewrite Hbuf. }
  rewrite advance_eq in Hrun. cbn in Hrun.
  destruct (is_game_end a) eqn:Hend.
  { simplify_eq. eexists. split; [|done]. unfold pending. cbn. by rewrite Hbuf. }
  destruct (RepGame.queue g) as [|e q] eqn:Hq.
  { simplify_eq. eexists. split; [|cbn; by rewrite <- app_assoc].
    unfold pending. cbn. by rewrite Hbuf, ?Hq. }
  apply IH in Hrun as (ext & Habs & Hc); [|cbn in *; lia|done].
  assert (replay_of T (Z.max t (lastTick g)) (e :: q)
          = (ext, lastTick g', pending g', log)) as -> by exact Habs.
  eexists. split; [done|]. rewrite Hc. cbn. by rewrite <- !app_assoc.
Qed.

End SeekOf.

(** The engine calls, the tick, the pending entries and the log of a seek
    are those of [seek_of], whatever the clock, the channel and the
    instant of the call. *)
Lemma set_round_abs (now : Q) (g : RepGame.t) (T : Z) :
  exists ext,
    seek_of T (lastTick g) (pending g)
    = (ext, lastTick (RepGame.set_round now g T).1,
       pending (RepGame.set_round now g T).1, (RepGame.set_round now g T).2)
    /\ RepGame._logic (RepGame.set_round now g T).1 = RepGame._logic g ++ ext.
Proof.
  unfold seek_of.
  destruct (Z.gtb_spec T (lastTick g)) as [Hgt|Hle]; cycle 1.
  { rewrite set_round_noop by done. exists []. by rewrite app_nil_r. }
  rewrite set_round_forward by done. cbn zeta. cbn [fst snd].
  destruct (seek_start_facts now T g) as (Hl & Hc & _ & _ & Hp).
  destruct (RepGame.replay _ _ _) as [g1 log] eqn:Hrep. cbn [fst snd].
  apply replay_abs in Hrep as (ext & Habs & Hc1); [|lia|].
  - rewrite Hl, Hp in Habs. rewrite Habs. cbn [finish].
    rewrite advance_eq. cbn.
    eexists. split; [done|]. by rewrite Hc1, Hc, <- app_assoc.
  - unfold seek_start, RepGame.fill_buffer.
    destruct g as [tm l calls [|e q] s [b|]]; cbn; done.
Qed.

Lemma replicate_ticks_add (a b c : Z) :
  a <= b -> b <= c ->
  replicate (Z.to_nat (b - a)) NextTick ++ replicate (Z.to_nat (c - b)) NextTick
  = replicate (Z.to_nat (c - a)) NextTick.
Proof.
  intros. rewrite <- replicate_add. f_equal. lia.
Qed.

(** Seeking in two steps: the replay loop to [T2] does what the loop to
    [T1], the ticks up to [T1] and the loop from there to [T2] do. *)
Lemma replay_of_compose (T1 T2 : Z) (pend : list Entry) (l : Z) :
  l < T1 -> T1 <= T2 ->
  forall e1 l1 p1, replay_of T1 l pend = (e1, l1, p1, []) ->
  l1 <= T1
  /\ finish T2 (replay_of T2 l pend)
     = let '(e2, l2, p2, log) := finish T2 (replay_of T2 T1 p1) in
       (e1 ++ replicate (Z.to_nat (T1 - l1)) NextTick ++ e2, l2, p2, log).
Proof.
  revert l. induction pend as [|[t a] rest IH]; intros l Hl HT e1 l1 p1 H1.
  { cbn in H1. injection H1 as <- <- <-. split; [lia|]. cbn [replay_of finish app].
    rewrite replicate_ticks_add, !Z.max_l by lia. done. }
  rewrite replay_of_cons in H1. rewrite (replay_of_cons T2 l).
  destruct (Z.ltb_spec t T1) as [Ht|Ht]; cycle 1.
  { injection H1 as <- <- <-. split; [lia|]. rewrite (replay_of_cons T2 T1). cbn [app].
    destruct (Z.ltb_spec t T2) as [Ht2|Ht2]; cycle 1.
    { cbn [finish app]. rewrite replicate_ticks_add, !Z.max_l by lia. done. }
    rewrite (Z.max_l t l), (Z.max_l t T1) by lia.
    destruct (is_game_end a).
    { cbn [finish]. by rewrite !app_assoc, !replicate_ticks_add by lia. }
    destruct rest as [|r rest].
    { cbn [finish]. by rewrite !app_assoc, !replicate_ticks_add by lia. }
    destruct (replay_of T2 t (r :: rest)) as [[[ext l2] p] lg]. cbn [finish].
    by rewrite !app_assoc, !replicate_ticks_add by lia. }
  destruct (Z.ltb_spec t T2) as [_|?]; [|lia].
  destruct (is_game_end a) eqn:Hend.
  { injection H1 as <- <- <-. split; [lia|]. rewrite (replay_of_cons T2 T1).
    destruct (Z.ltb_spec t T2) as [_|?]; [|lia]. rewrite Hend.
    replace (Z.to_nat (t - T1)) with O by lia. cbn [finish replicate app].
    rewrite (Z.max_r t T1), (replicate_ticks_add (Z.max t l) T1 T2) by lia.
    by rewrite !(Z.max_l T2) by lia. }
  destruct rest as [|r rest]; [done|].
  destruct (replay_of T1 (Z.max t l) (r :: rest)) as [[[ext l2] p] lg] eqn:Hrec.
  injection H1 as <- <- <- ->.
  destruct (IH (Z.max t l) ltac:(lia) HT _ _ _ Hrec) as [Hle Heq].
  split; [done|].
  destruct (replay_of T2 (Z.max t l) (r :: rest)) as [[[ext' l2'] p'] lg'].
  destruct (finish T2 (replay_of T2 T1 p)) as [[[e2 l3] p3] lg3].
  cbn [finish] in Heq |- *. injection Heq as Heq -> -> ->.
  rewrite <- !app_assoc. cbn [app]. by rewrite Heq.
Qed.

Lemma seek_of_compose (T1 T2 l : Z) (pend : list Entry) :
  T1 <= T2 ->
  forall e1 l1 p1, seek_of T1 l pend = (e1, l1, p1, []) ->
  seek_of T2 l pend
  = let '(e2, l2, p2, log) := seek_of T2 l1 p1 in (e1 ++ e2, l2, p2, log).
Proof.
  intros HT e1 l1 p1. unfold seek_of at 1.
  destruct (Z.gtb_spec T1 l) as [Hgt|Hle]; cycle 1.
  { intros [= <- <- <-]. by destruct (seek_of T2 l pend) as [[[? ?] ?] ?]. }
  destruct (replay_of T1 l pend) as [[[e l'] p] lg] eqn:H1. cbn [finish].
  intros [= <- <- <- ->].
  destruct (replay_of_compose T1 T2 pend l Hgt HT _ _ _ H1) as [Hle Heq].
  rewrite Z.max_l by lia. unfold seek_of.
  destruct (Z.gtb_spec T2 l) as [_|?]; [|lia].
  destruct (Z.gtb_spec T2 T1) as [Hgt2|Hle2].
  - rewrite Heq. destruct (finish T2 (replay_of T2 T1 p)) as [[[e2 l2] p2] lg2].
    by rewrite <- app_assoc.
  - assert (T2 = T1) as -> by lia. rewrite H1. cbn. rewrite app_nil_r.
    f_equal. f_equal. f_equal. lia.
Qed.

(** X5. Seeking in two steps.  A seek to [T1] followed by a seek to a later
    [T2] gives the engine the same calls, ends on the same tick, leaves the
    same entries pending and logs the same as the seek to [T2] alone,
    whatever the instants of the calls, provided the first seek did not
    use up the queue. *)
Theorem X5_seek_in_two_steps (now1 now2 now : Q) (self : RepGame.t) (t1 t2 : Z) :
  t1 <= t2 ->
  (RepGame.set_round now1 self t1).2 = [] ->
  let two := RepGame.set_round now2 (RepGame.set_round now1 self t1).1 t2 in
  let one := RepGame.set_round now self t2 in
  RepGame._logic two.1 = RepGame._logic one.1
  /\ lastTick two.1 = lastTick one.1
  /\ pending two.1 = pending one.1
  /\ two.2 = one.2.
Proof.
  intros Ht Hlog. cbn zeta.
  destruct (set_round_abs now1 self t1) as (e1 & H1 & Hc1).
  destruct (set_round_abs now2 (RepGame.set_round now1 self t1).1 t2) as (e2 & H2 & Hc2).
  destruct (set_round_abs now self t2) as (e & H & Hc).
  rewrite Hlog in H1.
  rewrite (seek_of_compose t1 t2 _ _ Ht _ _ _ H1), H2 in H.
  injection H as <- <- <- <-. split; [|done].
  by rewrite Hc2, Hc1, Hc, app_assoc.
Qed.

Lemma X5_seek_in_two_steps_witness :
  let fresh := RepGame.with_queue scenario_queue RepGame.__init__ in
  let two := RepGame.set_round 2 (RepGame.set_round 1 fresh 8).1 15 in
  let one := RepGame.set_round 3 fresh 15 in
  RepGame._logic two.1 = RepGame._logic one.1
  /\ lastTick two.1 = lastTick one.1
  /\ pending two.1 = pending one.1
  /\ two.2 = one.2.
Proof.
  apply (X5_seek_in_two_steps 1 2 3
           (RepGame.with_queue scenario_queue RepGame.__init__) 8 15).
  - lia.
  - vm_compute. reflexivity.
Defined.

(** ** Properties kept by every player of a session *)

Section Players.

Variables (file : RepFile) (P : RepGame.t -> Prop) (dom : Z -> Prop).

Hypothesis P_same : forall g g',
  P g -> RepGame._logic g' = RepGame._logic g -> lastTick g' = lastTick g ->
  pending g' = pending g -> P g'.
Hypothesis P_seek : forall now T g, P g -> P (RepGame.set_round now g T).1.
Hypothesis P_restart : forall e q,
  (_load_queue file []).1.2 = e :: q ->
  P (RepGame.run e (RepGame.with_queue q RepGame.__init__)).
Hypothesis P_fresh : forall now T,
  dom T -> T <> 0 -> P (RepGame.set_round now (reloaded file) T).1.

Lemma players_store_active (g : RepGame.t) (m : RepManager.t) :
  P g -> stored P m ->
  (RepManager._active_game m ∉ SortedDict.values (RepManager._games m)) ->
  players P (RepManager.store_active g m).
Proof.
  intros Hg Hs Ha. split; [by rewrite active_store_active|].
  intros kv Hkv. cbn. rewrite fn_lookup_insert_ne; [by apply Hs|].
  intros Heq. apply Ha. rewrite Heq. unfold SortedDict.values.
  by apply list_elem_of_fmap_2.
Qed.

Lemma players_active_set_round (now : Q) (T : Z) (m : RepManager.t) :
  players P m ->
  (RepManager._active_game m ∉ SortedDict.values (RepManager._games m)) ->
  players P (RepManager.active_set_round now T m).
Proof.
  intros [Ha Hs] Hn. unfold RepManager.active_set_round.
  pose proof (P_seek now T _ Ha) as Hg.
  destruct (RepGame.set_round now (RepManager.active m) T) as [g log].
  by apply (players_store_active g m).
Qed.

Lemma players_quiesce (now : Q) (m m1 : RepManager.t) :
  players P m ->
  (RepManager._active_game m ∉ SortedDict.values (RepManager._games m)) ->
  quiesce now m = Done m1 -> players P m1.
Proof.
  intros [Ha Hs] Hn. unfold quiesce, RepManager.rendezvous.
  set (m0 := RepManager.store_active _ _).
  destruct (RepGame.body _ _) as [|x g log|] eqn:Hbody; try done.
  destruct x as [| |r']; try done. destruct (Nat.eqb _ _); [|done].
  intros [= <-].
  apply body_answered in Hbody as (g0 & Hl & Hc & Hp & _ & _ & Hset).
  assert (players P m0) as [_ Hs0].
  { apply (players_store_active _ (RepManager.with_info_callback RepManager.Silent m));
      [|done|done]. by apply (P_same (RepManager.active m)). }
  assert (P (RepManager.active m0)) as Ha0.
  { subst m0. rewrite active_store_active. by apply (P_same (RepManager.active m)). }
  assert (P g0) as Hg0 by (by apply (P_same (RepManager.active m0))).
  pose proof (P_seek (RepGame.wall
    {| RepGame.wall := fun _ => now; RepGame.arrival := None |} 1)
    (lastTick g0 + 1) g0 Hg0) as Hg.
  rewrite Hset in Hg.
  by apply (players_store_active g m0).
Qed.

Lemma stored_retire (m : RepManager.t) :
  dict_ok (RepManager._games m) -> players P m -> stored P (RepManager.retire m).
Proof.
  intros Hok [Ha Hs]. unfold RepManager.retire.
  destruct (SortedDict.contains _ _) eqn:Hc; [done|].
  apply contains_false in Hc.
  destruct (setitem_split _ (RepManager._active_game m) _ Hok Hc)
    as (d1 & d2 & Hd & Hset & _).
  intros kv. cbn. rewrite Hset.
  intros [Hin|[->|Hin]%elem_of_cons]%elem_of_app.
  - apply Hs. rewrite Hd. apply elem_of_app. by left.
  - exact Ha.
  - apply Hs. rewrite Hd. apply elem_of_app. by right.
Qed.

Lemma players_recall (now : Q) (T : Z) (m m' : RepManager.t) :
  RepManager._rep_file m = file ->
  store_ok file (RepManager._games m) (RepManager.heap m) (RepManager.next_loc m) ->
  stored P m -> dom T ->
  RepManager.recall now T m = Done m' -> players P m'.
Proof.
  intros Hf Hst Hs HT.
  destruct (SortedDict.bisect T (RepManager._games m)) as [|i] eqn:Hb.
  - rewrite (recall_fresh_eq file) by done. cbn zeta.
    set (m1 := RepManager.logged _ _).
    assert (RepManager.active m1 = reloaded file) as Ha1 by apply active_store_active.
    assert (stored P m1) as Hs1.
    { intros kv Hkv. cbn.
      destruct Hst as (_ & _ & Hall). destruct (Hall kv Hkv) as (_ & _ & Hlt).
      rewrite !fn_lookup_insert_ne by lia. by apply Hs. }
    assert (RepManager._active_game m1 ∉ SortedDict.values (RepManager._games m1)) as Hn1.
    { intros (kv & Heq & Hkv)%list_elem_of_fmap.
      destruct Hst as (_ & _ & Hall). destruct (Hall kv Hkv) as (_ & _ & Hlt).
      cbn in Heq. lia. }
    destruct (Z.eqb_spec T 0) as [->|Hne]; cbn [negb].
    + unfold RepManager.active_run_first. rewrite Ha1.
      destruct (RepGame.queue (reloaded file)) as [|e q] eqn:Hq; [done|].
      intros [= <-]. apply players_store_active; [|done..].
      by apply P_restart.
    + intros [= <-]. unfold RepManager.active_set_round. rewrite Ha1.
      pose proof (P_fresh now T HT Hne) as Hg.
      destruct (RepGame.set_round now (reloaded file) T) as [g log].
      by apply (players_store_active g m1).
  - pose proof Hst as (Hok & _).
    destruct (bisect_succ T _ i Hok Hb) as (d1 & k & l & d2 & Hd & Hi & _).
    rewrite (recall_checkpoint_eq now T m d1 k l d2) by (done || by rewrite Hb, Hi).
    cbn zeta. set (m1 := RepManager.with_games _ _).
    rewrite Hd in Hst.
    destruct (store_ok_delete file d1 d2 _ _ k l Hst) as (_ & Hl & _).
    assert (players P m1) as Hm1.
    { split.
      - apply (Hs (k, l)). rewrite Hd. apply elem_of_app. right. by left.
      - intros kv Hkv. apply (Hs kv). rewrite Hd.
        apply elem_of_app in Hkv as [?|?]; apply elem_of_app; [by left|right; by right]. }
    intros [= <-]. destruct (_ >? _); [|done].
    by apply players_active_set_round.
Qed.

Lemma players_set_round (now : Q) (T : Z) (m m' : RepManager.t) :
  manager_ok file m -> players P m -> dom T ->
  RepManager.set_round now m T = Done m' -> players P m'.
Proof.
  intros Hm Hp HT.
  pose proof Hm as [(_ & _ & Hn & _) _].
  destruct (Z.le_gt_cases T (lastTick (RepManager.active m))) as [Hle|Hgt].
  - rewrite set_round_backward_eq by done.
    destruct (quiesce now m) as [m1| |] eqn:Hq; [|done..]. cbn [bind].
    destruct (quiesce_ok file now m m1 Hm Hq) as (Hm1 & _ & _).
    pose proof (players_quiesce now m m1 Hp Hn Hq) as Hp1.
    destruct (retire_ok file m1 Hm1) as (Hfile & Hst & _).
    destruct (RepManager.recall _ _ _) as [m2| |] eqn:Hrec; [|done..]. cbn [bind].
    intros [= <-].
    apply (players_recall now T _ m2 Hfile Hst) in Hrec; [done| |done].
    apply stored_retire; [|done]. apply Hm1.
  - rewrite set_round_forward_eq by lia. intros [= <-]. unfold seek_forward.
    set (m0 := RepManager.store_active _ _).
    assert (players P m0) as Hp0.
    { destruct Hp as [Ha Hs].
      apply (players_store_active _ (RepManager.with_info_callback RepManager.Silent m));
        [|done|done]. by apply (P_same (RepManager.active m)). }
    by apply (players_active_set_round now T m0 Hp0).
Qed.

Lemma players_init (verbose start_paused : bool) (m : RepManager.t) :
  RepManager.__init__ file verbose start_paused = Done m -> players P m.
Proof.
  intros Hinit. apply init_ok in Hinit as (_ & _ & Hg & e & q & Hq & Ha).
  split; [rewrite Ha; by apply P_restart|].
  intros kv. rewrite Hg. by inversion 1.
Qed.

Lemma players_seeks (targets : list (Q * Z)) (m m' : RepManager.t) :
  manager_ok file m -> players P m -> Forall (fun nt => dom nt.2) targets ->
  RepManager.seeks targets m = Done m' -> players P m'.
Proof.
  revert m. induction targets as [|[now t] targets IH]; intros m Hm Hp Hd; cbn.
  { by intros [= <-]. }
  inversion Hd as [|? ? Ht Hd']; subst.
  destruct (RepManager.set_round now m t) as [m1| |] eqn:Hs; [|done..]. cbn.
  destruct (set_round_ok file now t m m1 Hm Hs) as (Hm1 & _).
  apply IH; [done| |done]. by apply (players_set_round now t m m1).
Qed.

End Players.

(** ** The tick counter counts the ticks of the engine *)

Lemma ticked_set_round (now : Q) (T : Z) (g : RepGame.t) :
  ticked g -> ticked (RepGame.set_round now g T).1.
Proof.
  unfold ticked. intros Hg.
  destruct (set_round_advances now T g) as [_ (ext & Hc & Ht)].
  rewrite Hc, ticks_app. lia.
Qed.

(** X6. In a session, whatever seeks were made, the engine of the active
    player and the engine of every checkpoint have been ticked exactly as
    many times as the tick the player is at: the tick counter of a player
    and the key of a checkpoint are the number of [nextTick()] calls its
    engine has received. *)
Theorem X6_tick_counter_counts_engine_ticks (file : RepFile)
    (verbose start_paused : bool) (targets : list (Q * Z)) (m m' : RepManager.t) :
  RepManager.__init__ file verbose start_paused = Done m ->
  RepManager.seeks targets m = Done m' ->
  ticks (RepGame._logic (RepManager.active m')) = lastTick (RepManager.active m')
  /\ forall k l, (k, l) ∈ RepManager._games m' ->
       ticks (RepGame._logic (RepManager.heap m' l)) = k.
Proof.
  intros Hinit Hseeks.
  pose proof (init_ok _ _ _ _ Hinit) as (Hm & _).
  assert (players ticked m) as Hp.
  { apply (players_init file ticked) in Hinit; [done|]. by intros e q _. }
  destruct (seeks_ok file targets m m' Hm Hseeks) as [Hm' _].
  assert (players ticked m') as [Ha Hs].
  { apply (players_seeks file ticked (fun _ => True)) with targets m; try done.
    - unfold ticked. intros g g' Hg Hc Hl _. by rewrite Hc, Hl.
    - intros now T g. apply ticked_set_round.
    - intros now T _ _. by apply ticked_set_round.
    - by apply Forall_forall. }
  split; [exact Ha|].
  intros k l Hkl. pose proof (Hs _ Hkl) as Ht. cbn in Ht.
  destruct Hm' as [(_ & (_ & _ & Hall) & _) _].
  destruct (Hall _ Hkl) as [Hk _]. cbn in Hk. unfold ticked in Ht. lia.
Qed.

Lemma X6_tick_counter_counts_engine_ticks_witness :
  let m' := the (RepManager.seeks [(0%Q, 8); (0%Q, 3)] scenario_start) in
  ticks (RepGame._logic (RepManager.active m')) = lastTick (RepManager.active m')
  /\ forall k l, (k, l) ∈ RepManager._games m' ->
       ticks (RepGame._logic (RepManager.heap m' l)) = k.
Proof.
  apply (X6_tick_counter_counts_engine_ticks scenario_file false false
           [(0%Q, 8); (0%Q, 3)] scenario_start).
  - vm_compute. reflexivity.
  - vm_compute. reflexivity.
Defined.

(** ** Replay is a function of the tick *)

Lemma replay_of_terminal (T : Z) (p0 : list Entry) (e : Entry) (l : Z) :
  is_game_end e.2 = true ->
  forall ext l' p lg, replay_of T l (p0 ++ [e]) = (ext, l', p, lg) ->
  lg = [] /\ exists p0', p = p0' ++ [e].
Proof.
  intros He. revert l. induction p0 as [|[t a] p0 IH]; intros l ext l' p lg.
  { destruct e as [t a]. cbn [app]. rewrite replay_of_cons. cbn in He. rewrite He.
    destruct (t <? T); intros [= <- <- <- <-]; split; (done || by exists []). }
  cbn [app]. rewrite replay_of_cons.
  destruct (t <? T); [|intros [= <- <- <- <-]; split; [done|by exists ((t, a) :: p0)]].
  destruct (is_game_end a);
    [intros [= <- <- <- <-]; split; [done|by exists ((t, a) :: p0)]|].
  destruct (p0 ++ [e]) as [|r rs] eqn:Hr; [by destruct p0|]. rewrite <- Hr.
  destruct (replay_of T (Z.max t l) (p0 ++ [e])) as [[[ext1 l1] p1] lg1] eqn:Hrec.
  intros [= <- <- <- <-]. rewrite Hr in Hrec. by apply IH in Hrec.
Qed.

Lemma seek_of_terminal (T l : Z) (p0 : list Entry) (e : Entry) :
  is_game_end e.2 = true ->
  forall ext l' p lg, seek_of T l (p0 ++ [e]) = (ext, l', p, lg) ->
  lg = [] /\ exists p0', p = p0' ++ [e].
Proof.
  intros He ext l' p lg. unfold seek_of.
  destruct (T >? l); [|intros [= <- <- <- <-]; split; [done|by exists p0]].
  destruct (replay_of T l (p0 ++ [e])) as [[[ext1 l1] p1] lg1] eqn:Hrec.
  cbn [finish]. intros [= <- <- <- <-]. by apply replay_of_terminal in Hrec.
Qed.

Lemma replay_of_conserves (T : Z) (pend : list Entry) (l : Z) :
  forall ext l' p, replay_of T l pend = (ext, l', p, []) ->
  applied ext ++ p = pend.
Proof.
  revert l. induction pend as [|[t a] rest IH]; intros l ext l' p.
  { by intros [= <- <- <-]. }
  rewrite replay_of_cons.
  destruct (t <? T); [|by intros [= <- <- <-]].
  destruct (is_game_end a); [intros [= <- <- <-]; by rewrite applied_replicate|].
  destruct rest as [|r rs]; [done|].
  destruct (replay_of T (Z.max t l) (r :: rs)) as [[[ext1 l1] p1] lg1] eqn:Hrec.
  intros [= <- <- <- ->]. apply IH in Hrec.
  rewrite applied_app, applied_replicate. cbn. by rewrite Hrec.
Qed.

Lemma seek_of_conserves (T l : Z) (pend : list Entry) :
  forall ext l' p, seek_of T l pend = (ext, l', p, []) ->
  applied ext ++ p = pend.
Proof.
  intros ext l' p. unfold seek_of.
  destruct (T >? l); [|by intros [= <- <- <-]].
  destruct (replay_of T l pend) as [[[ext1 l1] p1] lg1] eqn:Hrec.
  cbn [finish]. intros [= <- <- <- ->]. apply replay_of_conserves in Hrec.
  by rewrite applied_app, applied_replicate, app_nil_r.
Qed.

Section Canonical.

Variable file : RepFile.
Hypothesis Hfile : plays_to_the_end file.

Lemma canonical_same (g g' : RepGame.t) :
  canonical file g -> RepGame._logic g' = RepGame._logic g ->
  lastTick g' = lastTick g -> pending g' = pending g -> canonical file g'.
Proof.
  unfold canonical. intros Hg Hc Hl Hp.
  destruct ((_load_queue file []).1.2) as [|e q]; [done|].
  by rewrite Hc, Hl, Hp.
Qed.

Lemma canonical_set_round (now : Q) (T : Z) (g : RepGame.t) :
  canonical file g -> canonical file (RepGame.set_round now g T).1.
Proof.
  destruct (Z.le_gt_cases T (lastTick g)) as [Hle|Hgt].
  { by rewrite set_round_noop. }
  unfold canonical.
  destruct Hfile as (a0 & mid & e & -> & Ha0 & He).
  intros (ext & Hseek & Hc).
  destruct (set_round_abs now g T) as (ext2 & H2 & Hc2).
  destruct (seek_of_terminal _ _ _ _ He _ _ _ _ Hseek) as [_ [p0 Hp0]].
  rewrite Hp0 in H2.
  destruct (seek_of_terminal _ _ _ _ He _ _ _ _ H2) as [Hlog _].
  rewrite <- Hp0, Hlog in H2.
  pose proof (set_round_last now T g) as Hl. rewrite Z.max_l in Hl by lia.
  exists (ext ++ ext2). split.
  - rewrite Hl. rewrite (seek_of_compose (lastTick g) T 0 _ ltac:(lia) _ _ _ Hseek).
    rewrite H2. by rewrite Hl.
  - by rewrite Hc2, Hc.
Qed.

Lemma canonical_restart (e : Entry) (q : list Entry) :
  (_load_queue file []).1.2 = e :: q ->
  canonical file (RepGame.run e (RepGame.with_queue q RepGame.__init__)).
Proof.
  intros Hq. unfold canonical. rewrite Hq. by exists [].
Qed.

Lemma canonical_fresh (now : Q) (T : Z) :
  0 <= T -> T <> 0 -> canonical file (RepGame.set_round now (reloaded file) T).1.
Proof.
  intros H0 Hne. unfold canonical.
  destruct (set_round_abs now (reloaded file) T) as (ext & Habs & Hc).
  pose proof (set_round_last now T (reloaded file)) as Hl.
  change (lastTick (reloaded file)) with 0 in Habs, Hl.
  change (pending (reloaded file)) with (_load_queue file []).1.2 in Habs.
  change (RepGame._logic (reloaded file)) with (@nil LogicCall) in Hc.
  rewrite Z.max_l in Hl by lia.
  destruct Hfile as (a0 & mid & e & Hq & Ha0 & He). rewrite Hq in Habs |- *.
  unfold seek_of in Habs |- *. rewrite Hl.
  destruct (Z.gtb_spec T 0) as [_|?]; [|lia].
  rewrite replay_of_cons in Habs.
  destruct (Z.ltb_spec 0 T) as [_|?]; [|lia]. rewrite Ha0 in Habs.
  destruct (mid ++ [e]) as [|r rs] eqn:Hr; [by destruct mid|].
  change (Z.max 0 0) with 0 in Habs.
  destruct (replay_of T 0 (r :: rs)) as [[[ext1 l1] p1] lg1] eqn:Hrec.
  cbn [finish replicate app Z.to_nat Z.sub] in Habs |- *.
  injection Habs as He1 He2 He3 He4.
  rewrite <- Hr in Hrec. apply replay_of_terminal in Hrec as [-> _]; [|done].
  rewrite Hl in He2. rewrite He2, He3.
  eexists. split; [done|]. by rewrite Hc, <- He1.
Qed.

Lemma seeks_canonical (verbose start_paused : bool) (targets : list (Q * Z))
    (m : RepManager.t) :
  RepManager.__init__ file verbose start_paused = Done m ->
  Forall (fun nt => 0 <= nt.2) targets ->
  exists m', RepManager.seeks targets m = Done m'
             /\ manager_ok file m' /\ players (canonical file) m'.
Proof.
  intros Hinit Hdom.
  pose proof (init_ok _ _ _ _ Hinit) as (Hm & _).
  assert (two_entries file) as H2.
  { unfold two_entries. destruct Hfile as (a0 & mid & e & -> & _).
    cbn. rewrite length_app. cbn. lia. }
  destruct (seeks_return file targets m H2 Hm) as [m' Hseeks].
  exists m'. split; [done|]. split; [by apply (seeks_ok file targets m m')|].
  apply (players_seeks file (canonical file) (fun T => 0 <= T) canonical_same
           canonical_set_round canonical_restart canonical_fresh targets m m');
    [done| |done|done].
  apply (players_init file (canonical file) canonical_restart verbose start_paused m Hinit).
Qed.

(** A canonical player has the engine trace and the pending entries of
    the player that one seek from the start brings to the same tick. *)
Lemma canonical_direct (now : Q) (e : Entry) (q : list Entry) (g : RepGame.t) :
  (_load_queue file []).1.2 = e :: q ->
  canonical file g ->
  let direct :=
    (RepGame.set_round now (RepGame.run e (RepGame.with_queue q RepGame.__init__))
                       (lastTick g)).1 in
  RepGame._logic g = RepGame._logic direct /\ pending g = pending direct
  /\ lastTick g = lastTick direct.
Proof.
  intros Hq. unfold canonical. rewrite Hq. intros (ext & Hseek & Hc). cbn zeta.
  destruct (set_round_abs now (RepGame.run e (RepGame.with_queue q RepGame.__init__))
              (lastTick g)) as (ext' & Habs & Hc').
  change (lastTick (RepGame.run e (RepGame.with_queue q RepGame.__init__))) with 0 in Habs.
  change (pending (RepGame.run e (RepGame.with_queue q RepGame.__init__))) with q in Habs.
  rewrite Hseek in Habs. injection Habs as <- <- <- _.
  split; [|done]. by rewrite Hc, Hc'.
Qed.

Lemma canonical_conserves (g : RepGame.t) :
  canonical file g ->
  applied (RepGame._logic g) ++ pending g = (_load_queue file []).1.2.
Proof.
  unfold canonical. destruct ((_load_queue file []).1.2) as [|e q]; [done|].
  intros (ext & Hseek & ->). apply seek_of_conserves in Hseek.
  cbn. rewrite Hseek. by destruct e.
Qed.

End Canonical.

(** X7. Replay is a function of the tick.  On a replay that starts with a
    regular record at tick 0 and ends with the terminal record, every
    sequence of seeks to targets that are not negative returns, and leaves
    the active player with the engine calls and the pending entries that
    one forward seek from the start of the session to the tick it is at
    gives; so does every checkpoint for its key.  Restarts, checkpoints and
    the order of the seeks leave no trace in the engine. *)
Theorem X7_replay_is_a_function_of_the_tick (file : RepFile)
    (verbose start_paused : bool) (targets : list (Q * Z)) (m : RepManager.t)
    (now : Q) :
  plays_to_the_end file ->
  RepManager.__init__ file verbose start_paused = Done m ->
  Forall (fun nt => 0 <= nt.2) targets ->
  exists m',
    RepManager.seeks targets m = Done m'
    /\ (let direct :=
          (RepGame.set_round now (RepManager.active m)
                             (lastTick (RepManager.active m'))).1 in
        RepGame._logic (RepManager.active m') = RepGame._logic direct
        /\ pending (RepManager.active m') = pending direct)
    /\ forall k l, (k, l) ∈ RepManager._games m' ->
         let direct := (RepGame.set_round now (RepManager.active m) k).1 in
         RepGame._logic (RepManager.heap m' l) = RepGame._logic direct
         /\ pending (RepManager.heap m' l) = pending direct.
Proof.
  intros Hfile Hinit Hdom.
  destruct (seeks_canonical file Hfile verbose start_paused targets m Hinit Hdom)
    as (m' & Hseeks & Hm' & Ha & Hs).
  apply init_ok in Hinit as (_ & _ & _ & e & q & Hq & Hact).
  exists m'. split; [done|]. rewrite Hact. split.
  - destruct (canonical_direct file now e q _ Hq Ha) as (? & ? & _). done.
  - intros k l Hkl. pose proof (Hs _ Hkl) as Hc. cbn [snd] in Hc.
    destruct Hm' as [(_ & (_ & _ & Hall) & _) _].
    destruct (Hall _ Hkl) as [Hk _]. cbn [fst snd] in Hk.
    destruct (canonical_direct file now e q _ Hq Hc) as (? & ? & _).
    rewrite Hk in *. done.
Qed.

Lemma X7_replay_is_a_function_of_the_tick_witness :
  exists m',
    RepManager.seeks [(0%Q, 8); (1%Q, 3); (2%Q, 15)] scenario_start = Done m'
    /\ (let direct :=
          (RepGame.set_round 0 (RepManager.active scenario_start)
                             (lastTick (RepManager.active m'))).1 in
        RepGame._logic (RepManager.active m') = RepGame._logic direct
        /\ pending (RepManager.active m') = pending direct)
    /\ forall k l, (k, l) ∈ RepManager._games m' ->
         let direct := (RepGame.set_round 0 (RepManager.active scenario_start) k).1 in
         RepGame._logic (RepManager.heap m' l) = RepGame._logic direct
         /\ pending (RepManager.heap m' l) = pending direct.
Proof.
  apply (X7_replay_is_a_function_of_the_tick scenario_file false false
           [(0%Q, 8); (1%Q, 3); (2%Q, 15)] scenario_start 0).
  - exists (instr "init"), [(5, instr "instrA"); (12, instr "instrB")],
           (20, mkAction "gameEnd" "game_end" None).
    split; [vm_compute; reflexivity|]. split; reflexivity.
  - vm_compute. reflexivity.
  - repeat constructor; cbn; lia.
Defined.

(** X8. Nothing of the replay is lost or played twice.  Under the same
    conditions, after any seeks, the actions the engine of the active
    player has been given, followed by the entries the player has pending,
    are the records of the file, in file order, each once; so it is for
    every checkpoint. *)
Theorem X8_session_conserves_the_records (file : RepFile)
    (verbose start_paused : bool) (targets : list (Q * Z)) (m m' : RepManager.t) :
  plays_to_the_end file ->
  RepManager.__init__ file verbose start_paused = Done m ->
  Forall (fun nt => 0 <= nt.2) targets ->
  RepManager.seeks targets m = Done m' ->
  applied (RepGame._logic (RepManager.active m')) ++ pending (RepManager.active m')
  = (_load_queue file []).1.2
  /\ forall k l, (k, l) ∈ RepManager._games m' ->
       applied (RepGame._logic (RepManager.heap m' l)) ++ pending (RepManager.heap m' l)
       = (_load_queue file []).1.2.
Proof.
  intros Hfile Hinit Hdom Hseeks.
  destruct (seeks_canonical file Hfile verbose start_paused targets m Hinit Hdom)
    as (m1 & Hseeks1 & _ & Ha & Hs).
  rewrite Hseeks in Hseeks1. injection Hseeks1 as <-.
  split; [by apply canonical_conserves|].
  intros k l Hkl. apply canonical_conserves. exact (Hs _ Hkl).
Qed.

Lemma X8_session_conserves_the_records_witness :
  let m' := the (RepManager.seeks [(0%Q, 8); (1%Q, 3); (2%Q, 15)] scenario_start) in
  applied (RepGame._logic (RepManager.active m')) ++ pending (RepManager.active m')
  = (_load_queue scenario_file []).1.2
  /\ forall k l, (k, l) ∈ RepManager._games m' ->
       applied (RepGame._logic (RepManager.heap m' l)) ++ pending (RepManager.heap m' l)
       = (_load_queue scenario_file []).1.2.
Proof.
  apply (X8_session_conserves_the_records scenario_file false false
           [(0%Q, 8); (1%Q, 3); (2%Q, 15)] scenario_start).
  - exists (instr "init"), [(5, instr "instrA"); (12, instr "instrB")],
           (20, mkAction "gameEnd" "game_end" None).
    split; [vm_compute; reflexivity|]. split; reflexivity.
  - vm_compute. reflexivity.
  - repeat constructor; cbn; lia.
  - vm_compute. reflexivity.
Defined.

(** ** How playback ends *)

Section MainloopEnds.

Variable e : RepGame.Env.

Lemma dispatch_no_return (buf : Entry) (next_action : option Entry) (g : RepGame.t)
    (x : RepGame.Exit) (g' : RepGame.t) (log : list LogRecord) :
  RepGame.dispatch e buf next_action g <> RepGame.Return x g' log.
Proof. unfold RepGame.dispatch, RepGame.deliver. repeat case_match; done. Qed.

Lemma poll_return (buf : Entry) (g g' : RepGame.t) (x : RepGame.Exit)
    (log : list LogRecord) :
  RepGame.poll e buf g = RepGame.Return x g' log ->
  x <> RepGame.Finished /\ lastTick g' = lastTick g + 1
  /\ Timer.running (RepGame._timer g') = false.
Proof.
  unfold RepGame.poll. cbn zeta.
  destruct (_ || _); [|intros H; by apply dispatch_no_return in H].
  destruct (RepGame.get e g) as [[q g1]|] eqn:Hget; [|done].
  apply get_same in Hget.
  assert (lastTick g1 = lastTick g) as Hl by (by rewrite Hget).
  destruct q as [[| |a|r]|]; try (intros H; by apply dispatch_no_return in H); [| |].
  - destruct (RepGame.set_round _ _ _) as [g2 l2] eqn:E. intros [= <- <- <-].
    apply set_round_spec in E as (? & _ & ? & _); [|lia]. split; [done|]. split; [lia|done].
  - done.
  - destruct (RepGame.set_round _ _ _) as [g2 l2] eqn:E. intros [= <- <- <-].
    apply set_round_spec in E as (? & _ & ? & _); [|lia]. split; [done|]. split; [lia|done].
Qed.

Lemma body_return (g g' : RepGame.t) (x : RepGame.Exit) (log : list LogRecord) :
  RepGame.body e g = RepGame.Return x g' log ->
  Timer.running (RepGame._timer g') = false
  /\ match x with
     | RepGame.Finished =>
         pending g' = [] /\ log = []
         /\ Timer.elapsed (RepGame._timer g') = RepGame.__real_time (lastTick g')
     | _ => lastTick g' = lastTick g + 1
     end.
Proof.
  unfold RepGame.body.
  destruct g as [tm l calls [|y q] s [b|]]; cbn [RepGame._action_buffer RepGame.queue].
  - intros (Hx & Hl & Hr)%poll_return. split; [done|]. by destruct x.
  - intros [= <- <- <-]. split; [apply stop_not_running|done].
  - intros (Hx & Hl & Hr)%poll_return. split; [done|]. by destruct x.
  - intros (Hx & Hl & Hr)%poll_return. split; [done|]. by destruct x.
Qed.

End MainloopEnds.

(** X9. How playback ends.  Whenever [mainloop] returns, the clock of the
    player is stopped.  It returns on its own only when the player has
    nothing pending, and then logs nothing and leaves the clock at the
    real time of the tick reached; when it returns for a stop signal or a
    rendezvous, the player has gone at least one tick further. *)
Theorem X9_how_playback_ends (fuel : nat) (env : nat -> RepGame.Env)
    (self self' : RepGame.t) (x : RepGame.Exit) (log : list LogRecord) :
  RepGame.mainloop fuel env self = RepGame.Return x self' log ->
  Timer.running (RepGame._timer self') = false
  /\ match x with
     | RepGame.Finished =>
         pending self' = [] /\ log = []
         /\ Timer.elapsed (RepGame._timer self') = RepGame.__real_time (lastTick self')
     | _ => lastTick self < lastTick self'
     end.
Proof.
  revert env self. induction fuel as [|fuel IH]; intros env self;
    cbn [RepGame.mainloop]; [done|].
  pose proof (body_advances (env O) self) as Hadv.
  destruct (RepGame.body (env O) self) as [g1|x1 g1 log1|g1] eqn:Hbody;
    cbn [step_state] in Hadv; [| |done].
  - intros H. apply IH in H as [Hr Hx]. split; [done|].
    destruct Hadv as [Hle _]. destruct x; [done|lia..].
  - intros [= -> -> ->]. apply body_return in Hbody as [Hr Hx]. split; [done|].
    destruct x; [done|lia..].
Qed.

Lemma X9_how_playback_ends_witness :
  let env := fun _ : nat => {| RepGame.wall := fun _ => 0%Q; RepGame.arrival := None |} in
  let self := RepGame.with_sig [SigStop]
                (RepGame.with_queue scenario_queue RepGame.__init__) in
  Timer.running (RepGame._timer (step_state (RepGame.mainloop 1 env self))) = false
  /\ lastTick self < lastTick (step_state (RepGame.mainloop 1 env self)).
Proof.
  cbn zeta.
  apply (X9_how_playback_ends 1
           (fun _ => {| RepGame.wall := fun _ => 0%Q; RepGame.arrival := None |})
           (RepGame.with_sig [SigStop]
              (RepGame.with_queue scenario_queue RepGame.__init__))
           _ RepGame.Stopped []).
  vm_compute. reflexivity.
Defined.

(** ** Live instructions during playback *)

Section LiveInstructions.

Variable e : RepGame.Env.

(** A signal at the head of the channel is read before anything else is
    done, whatever the clock says. *)
Lemma body_pause (g : RepGame.t) (rest : list Signal) :
  RepGame.sig g = SigPause :: rest -> pending g <> [] ->
  RepGame.body e g
  = RepGame.Continue
      (RepGame.with_timer
         (Timer.set_running (negb (Timer.running (RepGame._timer g))) (RepGame._timer g))
         (RepGame.with_sig rest (RepGame.fill_buffer g))).
Proof.
  unfold RepGame.body, RepGame.poll, RepGame.get, RepGame.fill_buffer, pending.
  destruct g as [tm l calls [|y q] s [b|]];
    cbn [RepGame._action_buffer RepGame.queue RepGame.sig RepGame.with_buffer
         RepGame.with_queue RepGame._timer];
    intros -> Hp; try done; cbv zeta; by rewrite !orb_true_r.
Qed.

Lemma body_action (g : RepGame.t) (a : Action) (rest : list Signal) :
  RepGame.sig g = SigAction a :: rest -> pending g <> [] ->
  RepGame.body e g
  = RepGame.deliver e (lastTick g, a) (RepGame.with_sig rest (RepGame.fill_buffer g)).
Proof.
  unfold RepGame.body, RepGame.poll, RepGame.get, RepGame.fill_buffer, pending,
    RepGame.dispatch.
  destruct g as [tm l calls [|y q] s [b|]];
    cbn [RepGame._action_buffer RepGame.queue RepGame.sig RepGame.with_buffer
         RepGame.with_queue RepGame._timer];
    intros -> Hp; try done; cbv zeta; by rewrite !orb_true_r.
Qed.

(** A paused player with nothing on its channel waits. *)
Lemma body_paused (g : RepGame.t) :
  Timer.running (RepGame._timer g) = false -> RepGame.sig g = [] ->
  RepGame.arrival e = None -> pending g <> [] ->
  RepGame.body e g = RepGame.Waits (RepGame.fill_buffer g).
Proof.
  unfold RepGame.body, RepGame.poll, RepGame.get, RepGame.fill_buffer, pending.
  destruct g as [tm l calls [|y q] s [b|]]; cbn; intros Hr -> Ha Hp; try done;
    by rewrite Hr, Ha.
Qed.

End LiveInstructions.

Lemma pending_fill_buffer (g : RepGame.t) : pending (RepGame.fill_buffer g) = pending g.
Proof. unfold pending, RepGame.fill_buffer. by destruct g as [tm l calls [|y q] s [b|]]. Qed.

Lemma fill_buffer_idemp (g : RepGame.t) :
  RepGame.fill_buffer (RepGame.fill_buffer g) = RepGame.fill_buffer g.
Proof. unfold RepGame.fill_buffer. by destruct g as [tm l calls [|y q] s [b|]]. Qed.

(** X10. A pause request stops playback before anything else is done.  On
    a running player with entries pending and an empty channel, the loop
    that finds [_pause] enqueued flips the clock to paused and then waits
    on the channel: it makes no call to the engine and applies no entry,
    however far the clock is ahead of the tick counter. *)
Theorem X10_pause_holds_playback (fuel : nat) (env : nat -> RepGame.Env)
    (self : RepGame.t) (act : Action) :
  action_name act = "_pause"%string ->
  RepGame.sig self = [] -> pending self <> [] ->
  Timer.running (RepGame._timer self) = true ->
  (forall n, RepGame.arrival (env n) = None) ->
  RepGame.mainloop (S (S fuel)) env (RepGame.enqueue self act)
  = RepGame.Waits
      (RepGame.with_timer (Timer.set_running false (RepGame._timer self))
                          (RepGame.fill_buffer self)).
Proof.
  intros Hname Hsig Hp Hrun Henv. unfold RepGame.enqueue. rewrite Hname, Hsig.
  assert (("_pause" =? "_pause")%string = true) as -> by reflexivity.
  cbn [app RepGame.mainloop].
  rewrite (body_pause (env O) _ []); [|done|done].
  rewrite body_paused; [| |done|apply Henv|].
  - f_equal. unfold RepGame.fill_buffer.
    destruct self as [tm l calls [|y q] s [b|]]; cbn in *; subst; try done;
      by rewrite Hrun.
  - cbn. by rewrite Hrun.
  - unfold pending, RepGame.fill_buffer in *.
    by destruct self as [tm l calls [|y q] s [b|]].
Qed.

Lemma X10_pause_holds_playback_witness :
  let env := fun _ : nat => {| RepGame.wall := fun _ => 100%Q; RepGame.arrival := None |} in
  let self := RepGame.with_timer (Timer.start 0 Timer.init)
                (RepGame.with_queue scenario_queue RepGame.__init__) in
  RepGame.mainloop 2 env (RepGame.enqueue self (mkAction "{}" "_pause" None))
  = RepGame.Waits
      (RepGame.with_timer (Timer.set_running false (RepGame._timer self))
                          (RepGame.fill_buffer self)).
Proof.
  cbn zeta.
  apply (X10_pause_holds_playback O
           (fun _ => {| RepGame.wall := fun _ => 100%Q; RepGame.arrival := None |})
           (RepGame.with_timer (Timer.start 0 Timer.init)
              (RepGame.with_queue scenario_queue RepGame.__init__))
           (mkAction "{}" "_pause" None)).
  - reflexivity.
  - reflexivity.
  - vm_compute. discriminate.
  - reflexivity.
  - reflexivity.
Defined.

(** X11. Pause and resume.  Two [_pause] requests enqueued on a player
    with entries pending and an empty channel are served by two passes of
    the loop that leave the player as it was, with its next entry in the
    buffer: the running flag is back, and neither the clock, the engine
    nor the queue has been touched. *)
Theorem X11_pause_twice_resumes (env : nat -> RepGame.Env) (self : RepGame.t)
    (act : Action) :
  action_name act = "_pause"%string ->
  RepGame.sig self = [] -> pending self <> [] ->
  RepGame.mainloop 2 env (RepGame.enqueue (RepGame.enqueue self act) act)
  = RepGame.Continue (RepGame.fill_buffer self).
Proof.
  intros Hname Hsig Hp. unfold RepGame.enqueue. rewrite Hname.
  assert (("_pause" =? "_pause")%string = true) as -> by reflexivity.
  cbn [RepGame.sig RepGame.with_sig]. rewrite Hsig.
  cbn [app RepGame.mainloop].
  rewrite (body_pause (env O) _ [SigPause]); [|done|].
  - rewrite (body_pause (env 1%nat) _ []); [|done|].
    + f_equal. unfold RepGame.fill_buffer.
      destruct self as [[r el st] l calls [|y q] s [b|]]; cbn in *; subst;
        try done; by destruct r.
    + unfold pending, RepGame.fill_buffer in *.
      by destruct self as [tm l calls [|y q] s [b|]].
  - unfold pending in *. by destruct self as [tm l calls [|y q] s [b|]].
Qed.

Lemma X11_pause_twice_resumes_witness :
  let env := fun _ : nat => {| RepGame.wall := fun _ => 100%Q; RepGame.arrival := None |} in
  let self := RepGame.with_queue scenario_queue RepGame.__init__ in
  RepGame.mainloop 2 env
    (RepGame.enqueue (RepGame.enqueue self (mkAction "{}" "_pause" None))
                     (mkAction "{}" "_pause" None))
  = RepGame.Continue (RepGame.fill_buffer self).
Proof.
  cbn zeta.
  apply (X11_pause_twice_resumes
           (fun _ => {| RepGame.wall := fun _ => 100%Q; RepGame.arrival := None |})
           (RepGame.with_queue scenario_queue RepGame.__init__)
           (mkAction "{}" "_pause" None)).
  - reflexivity.
  - reflexivity.
  - vm_compute. discriminate.
Defined.

(** X12. An injected action.  A live action, enqueued on a player with
    entries pending and an empty channel, is taken by the next pass of the
    loop at the current tick.  The pass never ticks the engine.  Either it
    runs the action at once, stamped with the current tick, and the file
    entry in the buffer stays where it is; or, when the clock is behind the
    tick counter, it runs nothing and puts the action into the buffer in
    the place of the file entry that was there, which is dropped. *)
Theorem X12_injected_action (e : RepGame.Env) (self : RepGame.t) (act : Action) :
  String.eqb (action_name act) "_pause" = false ->
  RepGame.sig self = [] -> pending self <> [] ->
  exists self',
    RepGame.body e (RepGame.enqueue self act) = RepGame.Continue self'
    /\ lastTick self' = lastTick self
    /\ RepGame.sig self' = []
    /\ RepGame.queue self' = RepGame.queue (RepGame.fill_buffer self)
    /\ (RepGame._logic self'
        = RepGame._logic self
          ++ [Run (lastTick self) (set_timestamp (lastTick self) act)]
        /\ RepGame._action_buffer self' = RepGame._action_buffer (RepGame.fill_buffer self)
        \/ RepGame.__logic_time (RepGame.current_time (RepGame.wall e 3) self)
           < lastTick self
           /\ RepGame._logic self' = RepGame._logic self
           /\ RepGame._action_buffer self' = Some (lastTick self, act)).
Proof.
  intros Hname Hsig Hp. unfold RepGame.enqueue. rewrite Hname, Hsig. cbn [app].
  rewrite (body_action e _ act []); [|done|done].
  assert (forall g l, l = lastTick g ->
            RepGame.apply_action (l, act) g
            = RepGame.with_logic
                (RepGame._logic g ++ [Run l (set_timestamp l act)]) g)
    as Happly.
  { intros g l ->. unfold RepGame.apply_action. rewrite advance_eq. cbn [fst snd].
    unfold RepGame.run. cbn. rewrite Z.sub_diag, Z.max_id. cbn.
    rewrite app_nil_r. by destruct g. }
  unfold RepGame.deliver. cbn [fst snd].
  set (g := RepGame.with_sig [] (RepGame.fill_buffer (RepGame.with_sig [SigAction act] self))).
  assert (lastTick g = lastTick self /\ RepGame._logic g = RepGame._logic self
          /\ RepGame.queue g = RepGame.queue (RepGame.fill_buffer self)
          /\ RepGame._action_buffer g = RepGame._action_buffer (RepGame.fill_buffer self)
          /\ RepGame._timer g = RepGame._timer self
          /\ RepGame.sig g = []) as (Hl & Hc & Hq & Hb & Ht & Hs).
  { subst g. unfold RepGame.fill_buffer.
    by destruct self as [tm l calls [|y q] s [b|]]. }
  change (lastTick (RepGame.with_sig [SigAction act] self)) with (lastTick self).
  rewrite <- Hl. clearbody g.
  destruct (_ <? _) eqn:H1.
  - eexists. split; [done|]. rewrite Happly by done.
    cbn. split; [done|]. split; [done|]. split; [done|].
    left. by rewrite Hc, Hb.
  - destruct (_ >? _) eqn:H2.
    + eexists. split; [done|]. cbn. split; [done|]. split; [done|]. split; [done|].
      right. split; [|done].
      unfold RepGame.current_time in *. rewrite Ht in H2. lia.
    + eexists. split; [done|]. rewrite Happly by done.
      cbn. split; [done|]. split; [done|]. split; [done|].
      left. by rewrite Hc, Hb.
Qed.

Lemma X12_injected_action_witness :
  let e := {| RepGame.wall := fun _ => 0%Q; RepGame.arrival := None |} in
  let self := RepGame.with_queue scenario_queue RepGame.__init__ in
  exists self',
    RepGame.body e (RepGame.enqueue self (instr "live")) = RepGame.Continue self'
    /\ lastTick self' = lastTick self
    /\ RepGame.sig self' = []
    /\ RepGame.queue self' = RepGame.queue (RepGame.fill_buffer self)
    /\ (RepGame._logic self'
        = RepGame._logic self
          ++ [Run (lastTick self) (set_timestamp (lastTick self) (instr "live"))]
        /\ RepGame._action_buffer self' = RepGame._action_buffer (RepGame.fill_buffer self)
        \/ RepGame.__logic_time (RepGame.current_time (RepGame.wall e 3) self)
           < lastTick self
           /\ RepGame._logic self' = RepGame._logic self
           /\ RepGame._action_buffer self' = Some (lastTick self, instr "live")).
Proof.
  cbn zeta.
  apply (X12_injected_action
           {| RepGame.wall := fun _ => 0%Q; RepGame.arrival := None |}
           (RepGame.with_queue scenario_queue RepGame.__init__) (instr "live")).
  - reflexivity.
  - reflexivity.
  - vm_compute. discriminate.
Defined.

(** ** Live dispatch by the manager *)

Lemma body_stop (e : RepGame.Env) (g : RepGame.t) (rest : list Signal) :
  RepGame.sig g = SigStop :: rest -> pending g <> [] ->
  RepGame.body e g
  = let '(g', log) :=
      RepGame.set_round (RepGame.wall e 1)
        (RepGame.with_sig rest (RepGame.fill_buffer g)) (lastTick g + 1) in
    RepGame.Return RepGame.Stopped g' log.
Proof.
  unfold RepGame.body, RepGame.poll, RepGame.get, RepGame.fill_buffer, pending.
  destruct g as [tm l calls [|y q] s [b|]];
    cbn [RepGame._action_buffer RepGame.queue RepGame.sig RepGame.with_buffer
         RepGame.with_queue RepGame._timer];
    intros -> Hp; try done; cbv zeta; by rewrite !orb_true_r.
Qed.

Lemma body_finished (e : RepGame.Env) (g : RepGame.t) :
  pending g = [] ->
  RepGame.body e g
  = RepGame.Return RepGame.Finished
      (RepGame.with_timer
         (Timer.set_elapsed (RepGame.__real_time (lastTick g))
            (Timer.stop (RepGame.wall e 0) (RepGame._timer g))) g) [].
Proof.
  unfold RepGame.body, pending.
  by destruct g as [tm l calls [|y q] s [b|]].
Qed.

(** X13. Ending a session.  [_end], sent to a manager whose channels are
    empty, is served by the next round of [mainloop], which then ends
    whatever the user interface answers: the player with entries pending
    leaves its loop one tick further, the player that has none leaves it
    where it is, and in both cases its clock is stopped. *)
Theorem X13_end_stops_the_session (now : Q) (self : RepManager.t) (timestamp : Z)
    (act : Action) :
  action_name act = "_end"%string ->
  RepManager.sig self = [] -> RepGame.sig (RepManager.active self) = [] ->
  exists m1,
    RepManager.enqueue now self timestamp act = RepManager.Queued (Done m1) []
    /\ forall (rounds fuel : nat) (clock : nat -> Q) (env : nat -> nat -> RepGame.Env)
              (ui_running : nat -> bool),
       exists m2,
         RepManager.mainloop (S rounds) (S fuel) clock env ui_running m1
         = RepManager.Ended m2
         /\ Timer.running (RepGame._timer (RepManager.active m2)) = false
         /\ lastTick (RepManager.active m2)
            = match pending (RepManager.active self) with
              | [] => lastTick (RepManager.active self)
              | _ :: _ => lastTick (RepManager.active self) + 1
              end.
Proof.
  intros Hname Hsig Hgsig. unfold RepManager.enqueue. rewrite Hname.
  assert (("_end" =? "_set_time")%string = false) as -> by reflexivity.
  assert (("_end" =? "_end")%string = true) as -> by reflexivity.
  cbv zeta.
  change (RepManager.active (RepManager.with_sig _ self)) with (RepManager.active self).
  rewrite Hsig, Hgsig. cbn [app]. eexists. split; [reflexivity|].
  intros rounds fuel clock env ui_running.
  set (g0 := RepGame.with_sig [SigStop] (RepManager.active self)).
  set (m1 := RepManager.store_active g0 _).
  cbn [RepManager.mainloop].
  set (m1' := if negb (RepManager._start_paused m1) then _ else m1).
  assert (exists tm, RepManager.active m1' = RepGame.with_timer tm g0
                     /\ RepManager.sig m1' = [false]) as (tm & Ha & Hs).
  { subst m1' m1. destruct (negb _).
    - eexists. rewrite !active_store_active. split; reflexivity.
    - exists (RepGame._timer g0). rewrite active_store_active.
      split; [by destruct g0|done]. }
  rewrite Ha. cbn [RepGame.mainloop].
  destruct (pending (RepManager.active self)) as [|b rest] eqn:Hp.
  - rewrite body_finished by done. cbv zeta.
    change (RepManager.sig (RepManager.logged _ (RepManager.store_active _ ?x)))
      with (RepManager.sig x). rewrite Hs.
    destruct (ui_running O); (eexists; split; [reflexivity|]).
    + change (RepManager.active (RepManager.with_sig _ (RepManager.logged _ ?x)))
        with (RepManager.active x).
      rewrite active_store_active. split; [apply stop_not_running|done].
    + change (RepManager.active (RepManager.logged _ ?x)) with (RepManager.active x).
      rewrite active_store_active. split; [apply stop_not_running|done].
  - rewrite (body_stop _ _ []);
      [|done|change (pending (RepManager.active self) <> []); by rewrite Hp].
    destruct (RepGame.set_round _ _ _) as [g' log] eqn:Hset.
    apply set_round_spec in Hset as (Hl & _ & Hr & _);
      [|rewrite !Z.add_1_r; apply Z.lt_succ_r; unfold RepGame.fill_buffer;
        destruct (RepManager.active self) as [? ? ? [|? ?] ? [?|]]; cbn; lia].
    cbv zeta.
    change (RepManager.sig (RepManager.logged _ (RepManager.store_active _ ?x)))
      with (RepManager.sig x). rewrite Hs.
    destruct (ui_running O); (eexists; split; [reflexivity|]).
    + change (RepManager.active (RepManager.with_sig _ (RepManager.logged _ ?x)))
        with (RepManager.active x).
      rewrite active_store_active. split; [done|]. rewrite Hl. done.
    + change (RepManager.active (RepManager.logged _ ?x)) with (RepManager.active x).
      rewrite active_store_active. split; [done|]. rewrite Hl. done.
Qed.

Lemma X13_end_stops_the_session_witness :
  exists m1,
    RepManager.enqueue 0 scenario_start 0 (mkAction "{}" "_end" None)
    = RepManager.Queued (Done m1) []
    /\ forall (rounds fuel : nat) (clock : nat -> Q) (env : nat -> nat -> RepGame.Env)
              (ui_running : nat -> bool),
       exists m2,
         RepManager.mainloop (S rounds) (S fuel) clock env ui_running m1
         = RepManager.Ended m2
         /\ Timer.running (RepGame._timer (RepManager.active m2)) = false
         /\ lastTick (RepManager.active m2)
            = match pending (RepManager.active scenario_start) with
              | [] => lastTick (RepManager.active scenario_start)
              | _ :: _ => lastTick (RepManager.active scenario_start) + 1
              end.
Proof.
  apply (X13_end_stops_the_session 0 scenario_start 0 (mkAction "{}" "_end" None)).
  - reflexivity.
  - reflexivity.
  - reflexivity.
Defined.

(** A session whose active player has nothing pending makes no further
    call to the engine: every round of the loop finds the player finished,
    and the loop ends or waits once the channel of the manager is used up. *)
Lemma mainloop_after_the_end (rounds fuel : nat) (clock : nat -> Q)
    (env : nat -> nat -> RepGame.Env) (ui_running : nat -> bool) (m : RepManager.t) :
  pending (RepManager.active m) = [] ->
  (length (RepManager.sig m) < rounds)%nat ->
  exists m2,
    (RepManager.mainloop rounds (S fuel) clock env ui_running m = RepManager.Waiting m2
     \/ RepManager.mainloop rounds (S fuel) clock env ui_running m = RepManager.Ended m2)
    /\ RepGame._logic (RepManager.active m2) = RepGame._logic (RepManager.active m)
    /\ lastTick (RepManager.active m2) = lastTick (RepManager.active m)
    /\ RepGame.sig (RepManager.active m2) = RepGame.sig (RepManager.active m).
Proof.
  revert clock env ui_running m.
  induction rounds as [|rounds IH]; intros clock env ui_running m Hp Hlen; [lia|].
  cbn [RepManager.mainloop].
  set (m' := if negb (RepManager._start_paused m) then _ else m).
  assert (exists tm, RepManager.active m' = RepGame.with_timer tm (RepManager.active m)
                     /\ RepManager.sig m' = RepManager.sig m) as (tm & Ha & Hs).
  { subst m'. destruct (negb _).
    - eexists. rewrite !active_store_active. split; reflexivity.
    - exists (RepGame._timer (RepManager.active m)).
      split; [by destruct (RepManager.active m)|done]. }
  rewrite Ha. cbn [RepGame.mainloop]. rewrite body_finished by done. cbv zeta.
  change (RepManager.sig (RepManager.logged _ (RepManager.store_active _ ?x)))
    with (RepManager.sig x). rewrite Hs.
  set (gF := RepGame.with_timer _ (RepGame.with_timer tm _)).
  destruct (ui_running O).
  - destruct (RepManager.sig m) as [|q rest] eqn:Hsig.
    + eexists. split; [by left|].
      change (RepManager.active (RepManager.logged _ ?x)) with (RepManager.active x).
      by rewrite active_store_active.
    + destruct q.
      * edestruct (IH (fun k => clock (S k)) (fun k => env (S k))
                      (fun k => ui_running (S k))
                      (RepManager.with_sig rest
                         (RepManager.logged [] (RepManager.store_active gF m'))))
          as (m2 & Hrun & Hc & Hl & Hg).
        { change (RepManager.active (RepManager.with_sig _ (RepManager.logged _ ?x)))
            with (RepManager.active x). by rewrite active_store_active. }
        { cbn in Hlen |- *. lia. }
        exists m2. split; [exact Hrun|].
        change (RepManager.active (RepManager.with_sig _ (RepManager.logged _ ?x)))
          with (RepManager.active x) in Hc, Hl, Hg.
        rewrite active_store_active in Hc, Hl, Hg. done.
      * eexists. split; [by right|].
        change (RepManager.active (RepManager.with_sig _ (RepManager.logged _ ?x)))
          with (RepManager.active x).
        by rewrite active_store_active.
  - eexists. split; [by right|].
    change (RepManager.active (RepManager.logged _ ?x)) with (RepManager.active x).
    by rewrite active_store_active.
Qed.

(** X14. A live action that comes after the end of the replay is never
    applied.  When the active player has nothing pending, the manager puts
    the action on the channel of the player and wakes its own loop; the
    loop then finds the player finished in every round, and ends or waits
    with the engine as it was and the action still on the channel. *)
Theorem X14_live_action_after_the_end (now : Q) (self : RepManager.t)
    (timestamp : Z) (act : Action) :
  String.eqb (action_name act) "_set_time" = false ->
  String.eqb (action_name act) "_end" = false ->
  String.eqb (action_name act) "_query_rounds" = false ->
  pending (RepManager.active self) = [] -> RepManager.sig self = [] ->
  exists m1,
    RepManager.enqueue now self timestamp act = RepManager.Queued (Done m1) []
    /\ RepGame.sig (RepManager.active m1)
       = RepGame.sig (RepGame.enqueue (RepManager.active self) act)
    /\ forall (rounds fuel : nat) (clock : nat -> Q) (env : nat -> nat -> RepGame.Env)
              (ui_running : nat -> bool),
       exists m2,
         (RepManager.mainloop (S (S rounds)) (S fuel) clock env ui_running m1
          = RepManager.Waiting m2
          \/ RepManager.mainloop (S (S rounds)) (S fuel) clock env ui_running m1
             = RepManager.Ended m2)
         /\ RepGame._logic (RepManager.active m2) = RepGame._logic (RepManager.active self)
         /\ lastTick (RepManager.active m2) = lastTick (RepManager.active self)
         /\ RepGame.sig (RepManager.active m2) = RepGame.sig (RepManager.active m1).
Proof.
  intros H1 H2 H3 Hp Hsig. unfold RepManager.enqueue. rewrite H1, H2, H3.
  unfold pending in Hp.
  destruct (RepGame._action_buffer (RepManager.active self)) eqn:Hb; [done|].
  rewrite Hp. cbv zeta.
  change (RepManager.sig (RepManager.store_active _ self)) with (RepManager.sig self).
  rewrite Hsig. cbn [app].
  eexists. split; [reflexivity|].
  change (RepManager.active (RepManager.with_sig _ ?x)) with (RepManager.active x).
  rewrite active_store_active. split; [done|].
  intros rounds fuel clock env ui_running.
  edestruct (mainloop_after_the_end (S (S rounds)) fuel clock env ui_running)
    as (m2 & Hrun & Hc & Hl & Hg); [| |exists m2; split; [exact Hrun|]].
  - change (RepManager.active (RepManager.with_sig _ ?x)) with (RepManager.active x).
    rewrite active_store_active. unfold pending, RepGame.enqueue.
    destruct (action_name act =? "_pause")%string;
      cbn [RepGame._action_buffer RepGame.queue RepGame.with_sig]; by rewrite Hb, Hp.
  - cbn. lia.
  - change (RepManager.active (RepManager.with_sig _ ?x)) with (RepManager.active x)
      in Hc, Hl, Hg.
    rewrite active_store_active in Hc, Hl, Hg.
    split; [|split; [|done]].
    + rewrite Hc. unfold RepGame.enqueue. by destruct (action_name act =? "_pause")%string.
    + rewrite Hl. unfold RepGame.enqueue. by destruct (action_name act =? "_pause")%string.
Qed.

Lemma X14_live_action_after_the_end_witness :
  let self := the (RepManager.__init__ one_record_file false false) in
  exists m1,
    RepManager.enqueue 0 self 0 (instr "live") = RepManager.Queued (Done m1) []
    /\ RepGame.sig (RepManager.active m1)
       = RepGame.sig (RepGame.enqueue (RepManager.active self) (instr "live"))
    /\ forall (rounds fuel : nat) (clock : nat -> Q) (env : nat -> nat -> RepGame.Env)
              (ui_running : nat -> bool),
       exists m2,
         (RepManager.mainloop (S (S rounds)) (S fuel) clock env ui_running m1
          = RepManager.Waiting m2
          \/ RepManager.mainloop (S (S rounds)) (S fuel) clock env ui_running m1
             = RepManager.Ended m2)
         /\ RepGame._logic (RepManager.active m2) = RepGame._logic (RepManager.active self)
         /\ lastTick (RepManager.active m2) = lastTick (RepManager.active self)
         /\ RepGame.sig (RepManager.active m2) = RepGame.sig (RepManager.active m1).
Proof.
  cbn zeta.
  apply (X14_live_action_after_the_end 0
           (the (RepManager.__init__ one_record_file false false)) 0 (instr "live")).
  - reflexivity.
  - reflexivity.
  - reflexivity.
  - reflexivity.
  - reflexivity.
Defined.

(** X15. The reply to [_query_rounds].  In a session on a replay that
    reads to its end, whatever seeks were made, the manager answers
    [_query_rounds] on the return queue of the action with the tick of the
    last [game_end] record of the file, and changes nothing. *)
Theorem X15_query_rounds_reply (name : string) (js : list JsonLine)
    (verbose start_paused : bool) (targets : list (Q * Z)) (m m' : RepManager.t)
    (now : Q) (timestamp : Z) (act : Action) (q : nat) :
  RepManager.__init__ (clean_file name js) verbose start_paused = Done m ->
  RepManager.seeks targets m = Done m' ->
  action_name act = "_query_rounds"%string -> return_queue act = Some q ->
  RepManager.enqueue now m' timestamp act
  = RepManager.Queued (Done m') [RepManager.Reply q (total_ticks js)].
Proof.
  intros Hinit Hseeks Hname Hq.
  apply init_ok in Hinit as (Hm & Hr & _).
  apply (seeks_ok _ _ _ _ Hm) in Hseeks as [_ Hr'].
  unfold RepManager.enqueue. rewrite Hname, Hq, Hr', Hr.
  assert (("_query_rounds" =? "_set_time")%string = false) as -> by reflexivity.
  assert (("_query_rounds" =? "_end")%string = false) as -> by reflexivity.
  assert (("_query_rounds" =? "_query_rounds")%string = true) as -> by reflexivity.
  unfold _load_queue, clean_file. cbn [file_name events].
  by rewrite load_lines_clean.
Qed.

Lemma X15_query_rounds_reply_witness :
  RepManager.enqueue 0 scenario_at_8 0 (mkAction "{}" "_query_rounds" (Some 7%nat))
  = RepManager.Queued (Done scenario_at_8) [RepManager.Reply 7 20].
Proof.
  apply (X15_query_rounds_reply "scenario.rpy"
           [ {| text := "init"; time := Some 0; action := Some "init"%string |};
             {| text := "instrA"; time := Some 5; action := Some "move"%string |};
             {| text := "instrB"; time := Some 12; action := Some "move"%string |};
             {| text := "gameEnd"; time := Some 20; action := Some "game_end"%string |} ]
           false false [(0%Q, 8)] scenario_start scenario_at_8 0 0
           (mkAction "{}" "_query_rounds" (Some 7%nat)) 7).
  - vm_compute. reflexivity.
  - vm_compute. reflexivity.
  - reflexivity.
  - reflexivity.
Defined.

(** ** The loader on any source *)

Lemma load_lines_appends (name : string) (evs : list ReadEvent) (r : Z)
    (target : list Entry) :
  load_lines name evs r target
  = ((load_lines name evs r []).1.1, target ++ (load_lines name evs r []).1.2,
     (load_lines name evs r []).2).
Proof.
  revert r target. induction evs as [|[j|s| |] evs IH]; intros r target;
    cbn [load_lines]; rewrite ?app_nil_r; try done.
  cbv zeta. destruct (negb _).
  - rewrite (IH r (target ++ _)), (IH r ([] ++ _)). cbn [fst snd].
    by rewrite <- app_assoc.
  - rewrite (IH _ (target ++ _)), (IH _ ([] ++ _)). cbn [fst snd].
    by rewrite <- app_assoc.
Qed.

(** X16. [_load_queue] only appends.  Whatever the source holds, the queue
    it is given comes back with its entries untouched and the loaded ones
    after them, and neither the tick count, the loaded entries nor the log
    depend on what the queue held. *)
Theorem X16_load_queue_only_appends (file : RepFile) (target : list Entry) :
  _load_queue file target
  = ((_load_queue file []).1.1, target ++ (_load_queue file []).1.2,
     (_load_queue file []).2).
Proof. apply load_lines_appends. Qed.

Lemma load_lines_decode_error (name : string) (js : list JsonLine) (ev : ReadEvent)
    (rest : list ReadEvent) (r : Z) (target : list Entry) :
  match ev with BadLine _ | OtherError => True | _ => False end ->
  load_lines name ((Line <$> js) ++ ev :: rest) r target
  = load_lines name (Line <$> js) r target.
Proof.
  intros Hev. revert r target.
  induction js as [|j js IH]; intros r target.
  { by destruct ev. }
  rewrite !fmap_cons. cbn [app load_lines]. cbv zeta.
  destruct (negb _); apply IH.
Qed.

(** X17. A source that stops decoding is loaded as if it ended there.
    When a line is not valid JSON, or reading raises anything but
    [OSError], [_load_queue] returns what the file cut before that point
    gives: the records read so far, their tick count, no synthetic record
    and nothing logged. *)
Theorem X17_decode_error_truncates_silently (name : string) (js : list JsonLine)
    (rest : list ReadEvent) (target : list Entry) :
  (forall line,
      _load_queue {| file_name := name; events := (Line <$> js) ++ BadLine line :: rest |}
                  target
      = (total_ticks js, target ++ (entry_of <$> js), []))
  /\ _load_queue {| file_name := name; events := (Line <$> js) ++ OtherError :: rest |}
                 target
     = (total_ticks js, target ++ (entry_of <$> js), []).
Proof.
  unfold _load_queue. cbn [file_name events]. split; [intros line|];
    (rewrite load_lines_decode_error by done); apply load_lines_clean.
Qed.

(** ** The writer of the run log *)

Lemma puts_sig (qs : list RunLogger.Item) (self : RunLogger.t) :
  puts qs self
  = {| RunLogger._filename := RunLogger._filename self;
       RunLogger._fp := RunLogger._fp self;
       RunLogger.closed := RunLogger.closed self;
       RunLogger.sig := RunLogger.sig self ++ qs |}.
Proof.
  revert self. induction qs as [|q qs IH]; intros self; cbn.
  - rewrite app_nil_r. by destruct self.
  - fold (puts qs (RunLogger.put q self)). rewrite IH. cbn. by rewrite <- app_assoc.
Qed.

Lemma run_loop_texts (msgs : list string) (rest : list RunLogger.Item)
    (fp : list string) :
  RunLogger.run_loop ((RunLogger.Text <$> msgs) ++ rest) fp
  = RunLogger.run_loop rest (fp ++ lines msgs).
Proof.
  revert fp. induction msgs as [|q msgs IH]; intros fp; cbn.
  - by rewrite app_nil_r.
  - fold (lines msgs). rewrite IH. by rewrite <- app_assoc.
Qed.

(** X18. The run log.  The writer thread writes the messages put before
    [exit], in the order they were put, each followed by a newline, then
    closes the file and returns; what is put after [exit] stays on the
    channel and is never written.  Without [exit] it writes every message
    and waits, the file open. *)
Theorem X18_run_log_is_written_in_order (self : RunLogger.t)
    (msgs : list string) (later : list RunLogger.Item) :
  RunLogger.sig self = [] ->
  RunLogger.run (puts later (RunLogger.exit (puts (RunLogger.Text <$> msgs) self)))
  = RunLogger.Returned
      {| RunLogger._filename := RunLogger._filename self;
         RunLogger._fp := RunLogger._fp self ++ lines msgs;
         RunLogger.closed := true;
         RunLogger.sig := later |}
  /\ RunLogger.run (puts (RunLogger.Text <$> msgs) self)
     = RunLogger.Waits
         {| RunLogger._filename := RunLogger._filename self;
            RunLogger._fp := RunLogger._fp self ++ lines msgs;
            RunLogger.closed := false;
            RunLogger.sig := [] |}.
Proof.
  intros Hsig. unfold RunLogger.exit, RunLogger.run.
  rewrite !puts_sig. cbn [RunLogger.put RunLogger.sig RunLogger._fp RunLogger._filename].
  rewrite Hsig. cbn [app]. split.
  - rewrite <- app_assoc, run_loop_texts. done.
  - rewrite <- (app_nil_r (RunLogger.Text <$> msgs)), run_loop_texts. done.
Qed.

Lemma X18_run_log_is_written_in_order_witness :
  let self := RunLogger.__init__ "1103120000" EmptyString in
  RunLogger.run (puts [RunLogger.Text "late"]
                   (RunLogger.exit (puts (RunLogger.Text <$> ["a"; "b"]%string) self)))
  = RunLogger.Returned
      {| RunLogger._filename := RunLogger._filename self;
         RunLogger._fp := RunLogger._fp self ++ lines ["a"; "b"]%string;
         RunLogger.closed := true;
         RunLogger.sig := [RunLogger.Text "late"] |}
  /\ RunLogger.run (puts (RunLogger.Text <$> ["a"; "b"]%string) self)
     = RunLogger.Waits
         {| RunLogger._filename := RunLogger._filename self;
            RunLogger._fp := RunLogger._fp self ++ lines ["a"; "b"]%string;
            RunLogger.closed := false;
            RunLogger.sig := [] |}.
Proof.
  cbn zeta.
  apply (X18_run_log_is_written_in_order (RunLogger.__init__ "1103120000" EmptyString)
           ["a"; "b"]%string [RunLogger.Text "late"]).
  reflexivity.
Defined.

(** ** Seeks and the loop of the session *)

(** X19. A forward seek leaves playback paused.  The manager's forward
    seek returns with the clock of the active player stopped and puts
    nothing on the manager's channel; the loop of the player, if it has
    entries pending and nothing reaches its channel, then waits on the
    channel without calling the engine, however much time passes. *)
Theorem X19_forward_seek_pauses_playback (now : Q) (self : RepManager.t)
    (timestamp : Z) :
  lastTick (RepManager.active self) < timestamp ->
  RepGame.sig (RepManager.active self) = [] ->
  exists m',
    RepManager.set_round now self timestamp = Done m'
    /\ RepManager.sig m' = RepManager.sig self
    /\ Timer.running (RepGame._timer (RepManager.active m')) = false
    /\ forall (fuel : nat) (env : nat -> RepGame.Env),
         RepGame.arrival (env O) = None ->
         pending (RepManager.active self) <> [] ->
         RepGame.mainloop (S fuel) env (RepManager.active m')
         = RepGame.Waits (RepGame.fill_buffer (RepManager.active m')).
Proof.
  intros Hlt Hsig. rewrite (set_round_forward_eq now timestamp self Hlt).
  eexists. split; [reflexivity|]. unfold seek_forward.
  set (m0 := RepManager.store_active _ _).
  assert (RepManager.active m0
          = RepGame.with_timer (Timer.stop now (RepGame._timer (RepManager.active self)))
                               (RepManager.active self)) as Ha0
    by apply active_store_active.
  unfold RepManager.active_set_round. rewrite Ha0.
  destruct (RepGame.set_round now _ timestamp) as [g log] eqn:Hset.
  change (RepManager.active (RepManager.logged _ (RepManager.with_info_callback _
            (RepManager.logged _ ?x)))) with (RepManager.active x).
  rewrite active_store_active.
  pose proof (set_round_pending now timestamp
                (RepGame.with_timer (Timer.stop now (RepGame._timer (RepManager.active self)))
                   (RepManager.active self))) as Hpend.
  rewrite Hset in Hpend. cbn [fst] in Hpend.
  apply set_round_spec in Hset as (_ & Hs & Hr & _); [|done].
  split; [done|]. split; [done|].
  intros fuel env Henv Hp. cbn [RepGame.mainloop].
  rewrite body_paused; [done|done| |done|by apply Hpend].
  by rewrite Hs.
Qed.

Lemma X19_forward_seek_pauses_playback_witness :
  exists m',
    RepManager.set_round 0 scenario_start 8 = Done m'
    /\ RepManager.sig m' = RepManager.sig scenario_start
    /\ Timer.running (RepGame._timer (RepManager.active m')) = false
    /\ forall (fuel : nat) (env : nat -> RepGame.Env),
         RepGame.arrival (env O) = None ->
         pending (RepManager.active scenario_start) <> [] ->
         RepGame.mainloop (S fuel) env (RepManager.active m')
         = RepGame.Waits (RepGame.fill_buffer (RepManager.active m')).
Proof.
  apply (X19_forward_seek_pauses_playback 0 scenario_start 8).
  - vm_compute. reflexivity.
  - reflexivity.
Defined.



(** X21. A backward seek after the end never returns.  Once the active
    player of a session has nothing pending, its loop has returned and
    nobody answers the rendezvous: a seek to its tick or to an earlier one
    waits for ever. *)
Theorem X21_backward_seek_after_the_end_blocks (file : RepFile)
    (verbose start_paused : bool) (targets : list (Q * Z)) (m m' : RepManager.t)
    (now : Q) (timestamp : Z) :
  RepManager.__init__ file verbose start_paused = Done m ->
  RepManager.seeks targets m = Done m' ->
  pending (RepManager.active m') = [] ->
  timestamp <= lastTick (RepManager.active m') ->
  RepManager.set_round now m' timestamp = Blocks.
Proof.
  intros Hinit Hseeks Hp Hle. apply init_ok in Hinit as (Hm & _).
  apply (seeks_ok _ _ _ _ Hm) in Hseeks as [Hm' _].
  by apply (seek_back_after_the_end_blocks file).
Qed.

Lemma X21_backward_seek_after_the_end_blocks_witness :
  RepManager.set_round 0
    (the (RepManager.seeks [(0%Q, 7)] (the (RepManager.__init__ one_record_file false false))))
    3
  = Blocks.
Proof.
  apply (X21_backward_seek_after_the_end_blocks one_record_file false false
           [(0%Q, 7)] (the (RepManager.__init__ one_record_file false false))).
  - vm_compute. reflexivity.
  - vm_compute. reflexivity.
  - vm_compute. reflexivity.
  - vm_compute. discriminate.
Defined.

(** ** Playback keeps to the clock *)

Section Pacing.

Variable e : RepGame.Env.

Lemma paced_none (g g' : RepGame.t) :
  RepGame._logic g' = RepGame._logic g -> lastTick g' = lastTick g -> paced e g g'.
Proof.
  intros Hc Hl. exists []. rewrite app_nil_r. split; [done|].
  split; [intros t a; inversion 1|by left].
Qed.

Lemma paced_from (g0 g g' : RepGame.t) :
  RepGame._timer g0 = RepGame._timer g -> RepGame._logic g0 = RepGame._logic g ->
  lastTick g0 = lastTick g -> paced e g0 g' -> paced e g g'.
Proof.
  intros Ht Hc Hl (ext & H1 & H2 & H3). exists ext.
  rewrite <- Ht, <- Hc, <- Hl. done.
Qed.

Lemma apply_action_paced (na : Entry) (tm : Timer.t) (g : RepGame.t) :
  on_time e (RepGame._timer g) na.1 ->
  paced e g (RepGame.apply_action na (RepGame.with_timer tm g)).
Proof.
  intros Hon. unfold RepGame.apply_action. rewrite advance_eq. unfold RepGame.run.
  cbn. eexists. split; [by rewrite <- app_assoc|]. split.
  - intros t a [Hin|Hin]%elem_of_app.
    + by apply elem_of_replicate in Hin as [? _].
    + apply list_elem_of_singleton in Hin. by simplify_eq.
  - destruct (Z.max_spec na.1 (lastTick g)) as [[_ ->]|[_ ->]]; [by left|by right].
Qed.

Lemma deliver_paced (na : Entry) (g g' : RepGame.t) :
  RepGame.deliver e na g = RepGame.Continue g' -> paced e g g'.
Proof.
  unfold RepGame.deliver.
  destruct (Z.ltb_spec na.1 (RepGame.__logic_time (RepGame.current_time (RepGame.wall e 2) g)))
    as [H1|H1].
  { intros [= <-]. apply apply_action_paced. exists 2%nat.
    unfold RepGame.current_time in H1. lia. }
  destruct (Z.gtb_spec na.1 (RepGame.__logic_time (RepGame.current_time (RepGame.wall e 3) g)))
    as [H2|H2]; intros [= <-].
  - by apply paced_none.
  - replace g with (RepGame.with_timer (RepGame._timer g) g) at 2 by (by destruct g).
    apply apply_action_paced. exists 3%nat. exact H2.
Qed.

Lemma tick_while_due_paced (fuel i : nat) (bound : Z) (g : RepGame.t) :
  paced e g (RepGame.tick_while_due fuel e i bound g).
Proof.
  revert i g. induction fuel as [|fuel IH]; intros i g; cbn [RepGame.tick_while_due];
    [by apply paced_none|].
  destruct (_ >? _) eqn:Hb; cbn [andb]; [|by apply paced_none].
  destruct (Z.gtb_spec (RepGame.__logic_time (RepGame.current_time (RepGame.wall e i) g))
              (lastTick g)) as [Hc|Hc]; [|by apply paced_none].
  destruct (IH (S i) (RepGame.tick g)) as (ext & H1 & H2 & H3).
  exists (NextTick :: ext). split; [|split].
  - rewrite H1. cbn. by rewrite <- app_assoc.
  - intros t a Hin. apply elem_of_cons in Hin as [?|Hin]; [done|]. by apply (H2 t a).
  - right. destruct H3 as [->|H3]; [|exact H3].
    exists i. cbn. unfold RepGame.current_time in Hc. lia.
Qed.

Lemma dispatch_paced (buf : Entry) (next_action : option Entry) (g g' : RepGame.t) :
  RepGame.dispatch e buf next_action g = RepGame.Continue g' -> paced e g g'.
Proof.
  unfold RepGame.dispatch. destruct next_action as [na|]; [apply deliver_paced|].
  destruct (_ <=? _).
  - intros H%deliver_paced. by apply (paced_from (RepGame.with_buffer None g)).
  - intros [= <-]. apply tick_while_due_paced.
Qed.

Lemma poll_paced (buf : Entry) (g g' : RepGame.t) :
  RepGame.poll e buf g = RepGame.Continue g' -> paced e g g'.
Proof.
  unfold RepGame.poll. cbn zeta.
  destruct (_ || _); [|apply dispatch_paced].
  destruct (RepGame.get e g) as [[q g1]|] eqn:Hget; [|done].
  apply get_same in Hget.
  assert (RepGame._timer g1 = RepGame._timer g /\ RepGame._logic g1 = RepGame._logic g
          /\ lastTick g1 = lastTick g) as (Ht & Hc & Hl) by (by rewrite Hget).
  destruct q as [[| |a|r]|].
  - by destruct (RepGame.set_round _ _ _).
  - intros [= <-]. by apply paced_none.
  - intros H%dispatch_paced. by apply (paced_from g1).
  - by destruct (RepGame.set_round _ _ _).
  - intros H%dispatch_paced. by apply (paced_from g1).
Qed.

End Pacing.

(** X22. Playback keeps to the clock.  In a pass of the loop after which
    the loop goes on, an action is run on the engine only when the clock,
    at one of the instants the pass reads it, shows the tick of the action
    or a later one; and the pass leaves the tick counter where it was or at
    a tick the clock had reached.  Replay entries and live actions alike
    are never applied ahead of time. *)
Theorem X22_playback_keeps_to_the_clock (e : RepGame.Env) (self self' : RepGame.t) :
  RepGame.body e self = RepGame.Continue self' ->
  exists ext,
    RepGame._logic self' = RepGame._logic self ++ ext
    /\ (forall t a, Run t a ∈ ext -> on_time e (RepGame._timer self) t)
    /\ (lastTick self' = lastTick self
        \/ on_time e (RepGame._timer self) (lastTick self')).
Proof.
  unfold RepGame.body.
  destruct self as [tm l calls [|y q] s [b|]];
    cbn [RepGame._action_buffer RepGame.queue]; try done;
    intros H%poll_paced; exact H.
Qed.

Lemma X22_playback_keeps_to_the_clock_witness :
  let e := {| RepGame.wall := fun _ => 1%Q; RepGame.arrival := None |} in
  let self := RepGame.with_timer (Timer.start 0 Timer.init)
                (RepGame.with_buffer (Some (5, instr "instrA")) RepGame.__init__) in
  exists ext,
    RepGame._logic (step_state (RepGame.body e self)) = RepGame._logic self ++ ext
    /\ (forall t a, Run t a ∈ ext -> on_time e (RepGame._timer self) t)
    /\ (lastTick (step_state (RepGame.body e self)) = lastTick self
        \/ on_time e (RepGame._timer self) (lastTick (step_state (RepGame.body e self)))).
Proof.
  cbn zeta.
  apply (X22_playback_keeps_to_the_clock
           {| RepGame.wall := fun _ => 1%Q; RepGame.arrival := None |}
           (RepGame.with_timer (Timer.start 0 Timer.init)
              (RepGame.with_buffer (Some (5, instr "instrA")) RepGame.__init__))).
  vm_compute. reflexivity.
Defined.

Lemma apply_action_eq (na : Entry) (g : RepGame.t) :
  RepGame.apply_action na g
  = RepGame.with_logic
      (RepGame._logic g ++ replicate (Z.to_nat (na.1 - lastTick g)) NextTick
       ++ [Run na.1 (set_timestamp (Z.max na.1 (lastTick g)) na.2)])
      {| RepGame._timer := RepGame._timer g;
         RepGame._last_action_timestamp := Z.max na.1 (lastTick g);
         RepGame._logic := RepGame._logic g;
         RepGame.queue := RepGame.queue g;
         RepGame.sig := RepGame.sig g;
         RepGame._action_buffer := RepGame._action_buffer g |}.
Proof.
  unfold RepGame.apply_action. rewrite advance_eq. unfold RepGame.run, RepGame.with_logic.
  cbn. by rewrite <- app_assoc.
Qed.

(** X23. A due entry is applied, the terminal one included.  When the
    player is running, nothing is on its channel and the clock has reached
    the tick of the buffered entry, the pass ticks the engine up to that
    tick, stamps the action with the tick the engine is at and runs it, and
    empties the buffer.  The loop does not look at the name of the action:
    unlike a seek, playback runs the [game_end] record on the engine. *)
Theorem X23_due_entry_is_applied (e : RepGame.Env) (self : RepGame.t)
    (t : Z) (a : Action) :
  Timer.running (RepGame._timer self) = true ->
  RepGame.sig self = [] -> RepGame.arrival e = None ->
  RepGame._action_buffer self = Some (t, a) ->
  t <= RepGame.__logic_time (RepGame.current_time (RepGame.wall e 1) self) ->
  t <= RepGame.__logic_time (RepGame.current_time (RepGame.wall e 3) self) ->
  exists self',
    RepGame.body e self = RepGame.Continue self'
    /\ RepGame._logic self'
       = RepGame._logic self ++ replicate (Z.to_nat (t - lastTick self)) NextTick
         ++ [Run t (set_timestamp (Z.max t (lastTick self)) a)]
    /\ lastTick self' = Z.max t (lastTick self)
    /\ RepGame._action_buffer self' = None
    /\ RepGame.queue self' = RepGame.queue self.
Proof.
  intros Hrun Hsig Harr Hbuf H1 H3.
  assert (RepGame.dispatch e (t, a) None self
          = RepGame.deliver e (t, a) (RepGame.with_buffer None self)) as Hd.
  { unfold RepGame.dispatch. cbn [fst].
    by destruct (Z.leb_spec t (RepGame.__logic_time
                                 (RepGame.current_time (RepGame.wall e 1) self))); [|lia]. }
  assert (RepGame.body e self
          = RepGame.deliver e (t, a) (RepGame.with_buffer None self)) as ->.
  { rewrite <- Hd. unfold RepGame.body. rewrite Hbuf.
    unfold RepGame.poll, RepGame.get. cbv zeta. rewrite Hsig, Harr, Hrun.
    by destruct (_ || _). }
  unfold RepGame.deliver. cbn [fst].
  change (RepGame.current_time ?n (RepGame.with_buffer None self))
    with (RepGame.current_time n self).
  destruct (_ <? _).
  - eexists. split; [reflexivity|]. rewrite apply_action_eq. done.
  - destruct (Z.gtb_spec t (RepGame.__logic_time
                               (RepGame.current_time (RepGame.wall e 3) self))); [lia|].
    eexists. split; [reflexivity|]. rewrite apply_action_eq. done.
Qed.

Lemma X23_due_entry_is_applied_witness :
  let e := {| RepGame.wall := fun _ => 2%Q; RepGame.arrival := None |} in
  let self := RepGame.with_timer (Timer.start 0 Timer.init)
                (RepGame.with_buffer (Some (20, mkAction "gameEnd" "game_end" None))
                                     RepGame.__init__) in
  exists self',
    RepGame.body e self = RepGame.Continue self'
    /\ RepGame._logic self'
       = RepGame._logic self ++ replicate (Z.to_nat (20 - lastTick self)) NextTick
         ++ [Run 20 (set_timestamp (Z.max 20 (lastTick self))
                       (mkAction "gameEnd" "game_end" None))]
    /\ lastTick self' = Z.max 20 (lastTick self)
    /\ RepGame._action_buffer self' = None
    /\ RepGame.queue self' = RepGame.queue self.
Proof.
  cbn zeta.
  apply (X23_due_entry_is_applied
           {| RepGame.wall := fun _ => 2%Q; RepGame.arrival := None |}
           (RepGame.with_timer (Timer.start 0 Timer.init)
              (RepGame.with_buffer (Some (20, mkAction "gameEnd" "game_end" None))
                                   RepGame.__init__))
           20 (mkAction "gameEnd" "game_end" None)).
  - reflexivity.
  - reflexivity.
  - reflexivity.
  - reflexivity.
  - vm_compute. discriminate.
  - vm_compute. discriminate.
Defined.

(** ** The time of the session *)

(** X24. The time a session shows after a forward seek.  Once the manager
    has sought forward to a target, [current_time] is, at every later
    instant, the real time of the target: the clock stands still.  The one
    exception is the seek that met the terminal record before the target;
    the time shown is then the real time of the end of the game, though the
    tick counter is at the target. *)
Theorem X24_time_shown_after_a_forward_seek (now later : Q) (self : RepManager.t)
    (timestamp : Z) :
  lastTick (RepManager.active self) < timestamp ->
  exists m',
    RepManager.set_round now self timestamp = Done m'
    /\ lastTick (RepManager.active m') = timestamp
    /\ (RepManager.current_time later m' = RepGame.__real_time timestamp
        \/ exists t a,
             RepGame._action_buffer (RepManager.active m') = Some (t, a)
             /\ is_game_end a = true /\ t < timestamp
             /\ RepManager.current_time later m' = RepGame.__real_time t).
Proof.
  intros Hlt. rewrite (set_round_forward_eq now timestamp self Hlt).
  eexists. split; [reflexivity|]. unfold seek_forward, RepManager.current_time.
  set (m0 := RepManager.store_active _ _).
  assert (RepManager.active m0
          = RepGame.with_timer (Timer.stop now (RepGame._timer (RepManager.active self)))
                               (RepManager.active self)) as Ha0
    by apply active_store_active.
  unfold RepManager.active_set_round. rewrite Ha0.
  pose proof (forward_seek_clock now
                (RepGame.with_timer (Timer.stop now (RepGame._timer (RepManager.active self)))
                   (RepManager.active self)) timestamp Hlt) as Hclock.
  cbn zeta in Hclock.
  destruct (RepGame.set_round now _ timestamp) as [g log].
  change (RepManager.active (RepManager.logged _ (RepManager.with_info_callback _
            (RepManager.logged _ ?x)))) with (RepManager.active x).
  rewrite active_store_active. cbn [fst] in Hclock.
  destruct Hclock as (Hl & Hr & Hel). split; [done|].
  unfold RepGame.current_time, Timer.current_time. rewrite Hr.
  destruct Hel as [->|(t & a & Hb & Ha & Ht & ->)]; [by left|].
  right. by exists t, a.
Qed.

Lemma X24_time_shown_after_a_forward_seek_witness :
  exists m',
    RepManager.set_round 0 scenario_start 25 = Done m'
    /\ lastTick (RepManager.active m') = 25
    /\ (RepManager.current_time 9 m' = RepGame.__real_time 25
        \/ exists t a,
             RepGame._action_buffer (RepManager.active m') = Some (t, a)
             /\ is_game_end a = true /\ t < 25
             /\ RepManager.current_time 9 m' = RepGame.__real_time t).
Proof.
  apply (X24_time_shown_after_a_forward_seek 0 9 scenario_start 25).
  vm_compute. reflexivity.
Defined.
